(** * squidpy: segmentation dispatch, relabel-and-merge, crop extraction, extract

    A shallow embedding of [squidpy/image/segment.py] and of [extract] from
    [squidpy/pl/_utils.py], with the properties of the natural-language
    specification stated and proved over it.

    Conventions of the embedding.
    - A numpy array is a shape together with its elements in row-major order.
      Elements are integers ([Z]): label masks hold integer labels, and pixel
      intensities are taken integer valued.  The masks that the backends
      return have a fixed-width integer type ([dtype]); the arithmetic of the
      relabeling loop is done in that type and wraps around silently, as numpy
      does.
    - A Python exception is a value of [exn]; a computation that may raise
      returns [exn + A].
    - Objects that the source mutates in place (numpy arrays in the relabeling
      loop, [AnnData] objects in [extract]) live in a store indexed by
      locations, so that two names for one object see the same content.
    - Code of the image container ([crop_equally], [crop], [add_img]), of
      [uncrop_img] and of the external libraries is not part of the embedded
      files; it enters through the interfaces [Externals] and [ContainerOps]. *)

From Stdlib Require Import ZArith QArith Qround Lia.
From stdpp Require Import gmap strings list sorting pretty.

Local Open Scope string_scope.
Local Open Scope Z_scope.
Set Warnings "-clear-no-such-hyp".

(** ** Exceptions and fallible computations *)

Inductive exn : Type :=
| ValueError (msg : string)
| AssertionError (msg : string)
| IndexError (msg : string)
| KeyError (key : string)
| TypeError (msg : string)
| LibraryError (cls msg : string).

Abbreviation result := (sum exn).

#[global] Instance result_ret : MRet result := λ A a, inr a.
#[global] Instance result_bind : MBind result := λ A B f m,
  match m with
  | inl e => inl e
  | inr a => f a
  end.
#[global] Instance result_fmap : FMap result := λ A B f m,
  match m with
  | inl e => inl e
  | inr a => inr (f a)
  end.

Definition raise {A} (e : exn) : result A := inl e.

(** Computations over a state of type [S] that may raise.  A raised
    exception keeps the state reached so far. *)
Definition ST (S A : Type) : Type := S → result A * S.

#[global] Instance ST_ret {S} : MRet (ST S) := λ A a s, (inr a, s).
#[global] Instance ST_bind {S} : MBind (ST S) := λ A B f m s,
  match m s with
  | (inl e, s') => (inl e, s')
  | (inr a, s') => f a s'
  end.

Definition lift {S A} (r : result A) : ST S A := λ s, (r, s).

(** A computation keeps the property [P] of the state, whether it returns or
    raises. *)
Definition preserves {S A} (P : S → Prop) (m : ST S A) : Prop :=
  ∀ s, P s → P (m s).2.

(** ** numpy integer types *)

Inductive dtype : Type :=
| int8 | int16 | int32 | int64
| uint8 | uint16 | uint32 | uint64.

Definition bits (dt : dtype) : Z :=
  match dt with
  | int8 | uint8 => 8
  | int16 | uint16 => 16
  | int32 | uint32 => 32
  | int64 | uint64 => 64
  end.

Definition signed (dt : dtype) : bool :=
  match dt with
  | int8 | int16 | int32 | int64 => true
  | uint8 | uint16 | uint32 | uint64 => false
  end.

Definition min_value (dt : dtype) : Z :=
  if signed dt then - 2 ^ (bits dt - 1) else 0.

Definition max_value (dt : dtype) : Z :=
  if signed dt then 2 ^ (bits dt - 1) - 1 else 2 ^ bits dt - 1.

(** The value that a fixed-width integer operation stores for the exact
    result [z]: numpy wraps around, without an exception. *)
Definition wrap (dt : dtype) (z : Z) : Z :=
  (z - min_value dt) `mod` 2 ^ bits dt + min_value dt.

(** ** numpy arrays *)

Record ndarray : Type := NdArray { shape : list nat; data : list Z }.

Definition ndim (a : ndarray) : nat := length (shape a).

Definition with_data (a : ndarray) (vs : list Z) : ndarray :=
  {| shape := shape a; data := vs |}.

(** [np.max(a)]: raises on a zero-size array. *)
Definition np_max (a : ndarray) : result Z :=
  match data a with
  | [] => inl (ValueError
      "zero-size array to reduction operation maximum which has no identity")
  | v :: vs => inr (foldr Z.max v vs)
  end.

(** [a > 0]: the boolean mask, element by element. *)
Definition gt0 (vs : list Z) : list bool := (λ v, 0 <? v) <$> vs.

(** [a[mask]]: the selected elements, in row-major order. *)
Fixpoint getitem_mask (vs : list Z) (mask : list bool) : list Z :=
  match vs, mask with
  | v :: vs', b :: mask' =>
      if b then v :: getitem_mask vs' mask' else getitem_mask vs' mask'
  | _, _ => []
  end.

(** [a[mask] = rhs]: the selected positions receive the elements of [rhs] in
    order, the other positions keep their value; numpy refuses a right-hand
    side whose length is not the number of selected positions. *)
Fixpoint fill_mask (vs : list Z) (mask : list bool) (rhs : list Z) : list Z :=
  match vs, mask with
  | v :: vs', b :: mask' =>
      if b then
        match rhs with
        | r :: rhs' => r :: fill_mask vs' mask' rhs'
        | [] => v :: vs'
        end
      else v :: fill_mask vs' mask' rhs
  | _, _ => vs
  end.

Definition setitem_mask (vs : list Z) (mask : list bool) (rhs : list Z)
  : result (list Z) :=
  if decide (length rhs = length (getitem_mask vs mask))
  then inr (fill_mask vs mask rhs)
  else inl (ValueError
    "NumPy boolean array indexing assignment cannot assign input values to the output values where the mask is true").

(** [vs + c] for an array of type [dt] and a scalar [c] that is a Python
    integer or a scalar of the same type: the sum is an array of type [dt]. *)
Definition add_scalar (dt : dtype) (vs : list Z) (c : Z) : list Z :=
  (λ v, wrap dt (v + c)) <$> vs.

(** [a[np.newaxis, :, :]]: a view with a leading axis of length 1.  Two full
    slices need an array of at least two dimensions. *)
Definition newaxis_view (a : ndarray) : result ndarray :=
  if decide (ndim a < 2)%nat
  then inl (IndexError "too many indices for array")
  else inr {| shape := 1%nat :: shape a; data := data a |}.

(** ** xarray.DataArray: named dimensions over an array *)

Record DataArray : Type := MkDataArray { dims : list string; values : ndarray }.

(** [xr.DataArray(values, dims=dims)]: one name per dimension. *)
Definition xr_DataArray (v : ndarray) (ds : list string) : result DataArray :=
  if decide (length ds = ndim v)
  then inr {| dims := ds; values := v |}
  else inl (ValueError "different number of dimensions on data and dims").

(** ** The relabeling loop of [segment] (lines 232 to 237)

    The masks returned by the backend are numpy arrays, one object per tile.
    The loop binds [crop_new = x]: both names denote the same array object, so
    the masked assignment through [crop_new] is seen by [np.max(x)] on the next
    line, and by the [DataArray] that wraps a view of it.

    The masks of one call have one integer type [dt].  The sum at line 235
    is an array of that type.  The counter starts as the Python integer 0 and
    is a numpy scalar of type [dt] from the first [counter += np.max(x)] on
    (numpy 2 gives the sum of a Python integer and a numpy scalar the type of
    the scalar); its additions wrap around as well. *)

Module Relabel.

Abbreviation loc := nat (only parsing).

(** An entry of the Python list [crops]: the array returned by the backend,
    or, once the loop has visited it, the [DataArray] over a view of that
    array. *)
Inductive crop_ref : Type :=
| NumpyRef (l : loc)
| DataArrayRef (l : loc) (ds : list string).

Record loop_state : Type := LoopState {
  heap : gmap nat ndarray;
  counter : Z;
  crops : list crop_ref
}.

Definition deref (h : gmap nat ndarray) (l : loc) : result ndarray :=
  match h !! l with
  | Some a => inr a
  | None => inl (LibraryError "ReferenceError" "dangling array reference")
  end.

(** One iteration, for [(i, x)] of [enumerate(crops)].  The assignment to
    [crops[i]] replaces an entry that the iteration has already passed. *)
Definition loop_body (dt : dtype) (i : nat) (x : loc) (s : loop_state)
  : result loop_state :=
  let crop_new := x in
  (* crop_new[crop_new > 0] = crop_new[crop_new > 0] + counter *)
  a ← deref (heap s) crop_new;
  let rhs := add_scalar dt (getitem_mask (data a) (gt0 (data a))) (counter s) in
  a0 ← deref (heap s) crop_new;
  vs ← setitem_mask (data a0) (gt0 (data a0)) rhs;
  let h1 := <[crop_new := with_data a0 vs]> (heap s) in
  (* counter += np.max(x) *)
  ax ← deref h1 x;
  m ← np_max ax;
  let counter1 := wrap dt (counter s + m) in
  (* crops[i] = xr.DataArray(crop_new[np.newaxis, :, :], dims=["mask", "y", "x"]) *)
  an ← deref h1 crop_new;
  v ← newaxis_view an;
  _ ← xr_DataArray v ["mask"; "y"; "x"];
  mret {| heap := h1; counter := counter1;
          crops := <[i := DataArrayRef crop_new ["mask"; "y"; "x"]]> (crops s) |}.

Fixpoint loop (dt : dtype) (i : nat) (xs : list loc) (s : loop_state)
  : result loop_state :=
  match xs with
  | [] => mret s
  | x :: xs' => s' ← loop_body dt i x s; loop dt (S i) xs' s'
  end.

(** What a reader of [crops[i]] sees after the loop. *)
Definition read_crop (h : gmap nat ndarray) (r : crop_ref) : result DataArray :=
  match r with
  | NumpyRef l =>
      inl (TypeError "crop is a bare numpy array, not a DataArray")
  | DataArrayRef l ds => a ← deref h l; v ← newaxis_view a; xr_DataArray v ds
  end.

(** The loop run on the masks [tiles] of type [dt], each a fresh array
    object: [counter = 0], the loop over [enumerate(crops)], and the content
    of [crops] afterwards together with the final counter. *)
Definition relabel_crops (dt : dtype) (tiles : list ndarray)
  : result (list DataArray * Z) :=
  let xs := seq 0 (length tiles) in
  s ← loop dt 0 xs
        {| heap := map_seq 0 tiles; counter := 0; crops := NumpyRef <$> xs |};
  out ← mapM (read_crop (heap s)) (crops s);
  mret (out, counter s).

Definition mask_dims : list string := ["mask"; "y"; "x"].

(** The same computation without the store: what each iteration does to the
    elements of its tile and to the counter.  [relabel_crops_fold] below shows
    that the loop over the store computes exactly this. *)
Definition offset_wrapped (dt : dtype) (c : Z) (vs : list Z) : list Z :=
  (λ v, if 0 <? v then wrap dt (v + c) else v) <$> vs.

Fixpoint wrapped_fold (dt : dtype) (c : Z) (tiles : list ndarray)
  : result (list DataArray * Z) :=
  match tiles with
  | [] => mret ([], c)
  | a :: rest =>
      let a' := with_data a (offset_wrapped dt c (data a)) in
      m ← np_max a';
      v ← newaxis_view a';
      d ← xr_DataArray v mask_dims;
      r ← wrapped_fold dt (wrap dt (c + m)) rest;
      mret (d :: r.1, r.2)
  end.

(** The two in exact arithmetic: what the loop computes as long as no sum
    leaves the range of the type ([relabel_crops_exact] below). *)
Definition offset_positive (c : Z) (vs : list Z) : list Z :=
  (λ v, if 0 <? v then v + c else v) <$> vs.

Fixpoint relabel_fold (c : Z) (tiles : list ndarray) : result (list DataArray * Z) :=
  match tiles with
  | [] => mret ([], c)
  | a :: rest =>
      let a' := with_data a (offset_positive c (data a)) in
      m ← np_max a';
      v ← newaxis_view a';
      d ← xr_DataArray v mask_dims;
      r ← relabel_fold (c + m) rest;
      mret (d :: r.1, r.2)
  end.

Definition nonneg (a : ndarray) : Prop := Forall (λ v, 0 ≤ v) (data a).

(** A mask with dense local labels: no negative value, and every label from
    1 to the largest one occurs. *)
Definition dense (a : ndarray) : bool :=
  forallb (λ v, 0 <=? v) (data a) &&
  forallb (λ k, bool_decide (k ∈ data a)) (seqZ 1 (foldr Z.max 0 (data a))).

(** The relabeling scheme in the words of the specification (section 4.2,
    step 4): the running counter is added to every positive label of the
    tile, then the counter is increased by the tile's local maximum, taken
    before the offset is applied. *)
Fixpoint running_total_scheme (c : Z) (tiles : list ndarray)
  : result (list ndarray * Z) :=
  match tiles with
  | [] => mret ([], c)
  | a :: rest =>
      m ← np_max a;
      r ← running_total_scheme (c + m) rest;
      mret (with_data a (offset_positive c (data a)) :: r.1, r.2)
  end.

End Relabel.

(** ** Multi-dimensional indexing *)

(** Number of elements of an array of the given shape. *)
Definition size_of (sh : list nat) : nat := foldr Nat.mul 1%nat sh.

(** An array holds one element per index. *)
Definition wf_array (a : ndarray) : Prop := length (data a) = size_of (shape a).

(** [np.unravel_index(p, sh)]: the multi-index of the flat position [p]. *)
Fixpoint unravel (sh : list nat) (p : nat) : list nat :=
  match sh with
  | [] => []
  | _ :: sh' => (p / size_of sh')%nat :: unravel sh' (p `mod` size_of sh')%nat
  end.

(** The elements whose multi-index satisfies [keep], in row-major order. *)
Definition select_data (sh : list nat) (keep : list nat → bool) (vs : list Z)
  : list Z :=
  omap (λ pv, if keep (unravel sh pv.1) then Some pv.2 else None)
       (zip (seq 0 (length vs)) vs).

(** An indexer along one dimension: an integer, or [slice(start, stop)]. *)
Inductive indexer : Type :=
| IntIndex (k : Z)
| Slice (start stop : nat).

(** Position of a dimension name in [dims]. *)
Definition axis_of (ds : list string) (name : string) : option nat :=
  fst <$> list_find (λ d, d = name) ds.

(** [x[{dim: ix}]]: positional selection along the dimension named [dim].  An
    integer drops the dimension (negative integers count from the end), a
    slice keeps it. *)
Definition isel (x : DataArray) (dim : string) (ix : indexer) : result DataArray :=
  match axis_of (dims x) dim with
  | None => raise (ValueError ("Dimensions do not exist: " ++ dim))
  | Some p =>
      let sh := shape (values x) in
      let d := default 0%nat (sh !! p) in
      match ix with
      | IntIndex k =>
          if decide (- Z.of_nat d ≤ k < Z.of_nat d) then
            let k' := Z.to_nat (if k <? 0 then k + Z.of_nat d else k) in
            mret {| dims := delete p (dims x);
                    values := {| shape := delete p sh;
                                 data := select_data sh
                                   (λ idx, bool_decide (idx !! p = Some k'))
                                   (data (values x)) |} |}
          else raise (IndexError "index out of bounds for axis")
      | Slice start stop =>
          mret {| dims := dims x;
                  values := {| shape := <[p := (Nat.min stop d - start)%nat]> sh;
                               data := select_data sh
                                 (λ idx, match idx !! p with
                                         | Some k => bool_decide (start ≤ k < stop)%nat
                                         | None => false
                                         end)
                                 (data (values x)) |} |}
      end
  end.

(** [x.channels.shape[0]]: the length of the dimension named [channels]. *)
Definition channels_shape0 (x : DataArray) : result nat :=
  match axis_of (dims x) "channels" with
  | None => raise (LibraryError "AttributeError"
                     "'DataArray' object has no attribute 'channels'")
  | Some p => mret (default 0%nat (shape (values x) !! p))
  end.

(** ** Segmentation backends (classes [SegmentationModel*]) *)

(** Values of keyword arguments. *)
Inductive kwval : Type :=
| KwNone
| KwBool (b : bool)
| KwNum (q : Q)
| KwStr (s : string).

Definition truthy (v : kwval) : bool :=
  match v with
  | KwNone => false
  | KwBool b => b
  | KwNum q => negb (Qeq_bool q 0)
  | KwStr s => negb (bool_decide (s = ""))
  end.

Definition kw_number (v : kwval) : result Q :=
  match v with
  | KwNum q => mret q
  | KwBool b => mret (if b then 1%Q else 0%Q)
  | _ => raise (TypeError "'>=' not supported between an array and this value")
  end.

(** [model_instance]: [None], the name of a method, or a model object. *)
Inductive model_instance_t : Type :=
| InstanceNone
| InstanceName (s : string)
| InstanceObject (o : nat).

#[global] Instance model_instance_eq_dec : EqDecision model_instance_t.
Proof. solve_decision. Defined.

(** What the embedded files take from [skimage], [scipy] and [tensorflow].
    Every call may raise.  [tf_keras_model_Model] is the value of the
    attribute path [tf.keras.model.Model], a class, given by its instance
    test on objects; evaluating the path may raise as well.  [mask_dtype] is
    the integer type of the label masks that the backends return. *)
Class Externals : Type := {
  mask_dtype : dtype;
  distance_map : Type;
  blob_log : ndarray → gmap string kwval → result ndarray;
  blob_dog : ndarray → gmap string kwval → result ndarray;
  blob_doh : ndarray → gmap string kwval → result ndarray;
  distance_transform_edt : ndarray → result distance_map;
  peak_local_max : distance_map → ndarray → ndarray → result ndarray;
  ndi_label : ndarray → result ndarray;
  watershed : ndarray → ndarray → ndarray → result ndarray;
  tf_keras_model_Model : result (nat → bool);
  object_call : nat → ndarray → gmap string kwval → result ndarray;
  object_str : nat → string
}.

Module Backend.
Section backend.
Context `{ext : Externals}.

Inductive SegmentationModel : Type :=
| SegmentationModelBlob (model : model_instance_t)
| SegmentationModelWatershed (model : model_instance_t)
| SegmentationModelPretrainedTensorflow (model : model_instance_t).

Definition model (self : SegmentationModel) : model_instance_t :=
  match self with
  | SegmentationModelBlob m
  | SegmentationModelWatershed m
  | SegmentationModelPretrainedTensorflow m => m
  end.

(** ["%s" % self.model] *)
Definition str_of_model (m : model_instance_t) : string :=
  match m with
  | InstanceNone => "None"
  | InstanceName s => s
  | InstanceObject o => object_str o
  end.

(** [isinstance(model, tf.keras.model.Model)]; [None] and strings are
    not instances of a model class. *)
Definition isinstance_keras_Model (m : model_instance_t) : result bool :=
  cls ← tf_keras_model_Model;
  mret (match m with
        | InstanceObject o => cls o
        | _ => false
        end).

(** [self.model(arr, **kwargs)] *)
Definition call_model (m : model_instance_t) (arr : ndarray)
    (kwargs : gmap string kwval) : result ndarray :=
  match m with
  | InstanceNone => raise (TypeError "'NoneType' object is not callable")
  | InstanceName _ => raise (TypeError "'str' object is not callable")
  | InstanceObject o => object_call o arr kwargs
  end.

(** [SegmentationModelPretrainedTensorflow.__init__]; the [assert] statement
    is executed (the interpreter runs with [__debug__] true). *)
Definition SegmentationModelPretrainedTensorflow_init (m : model_instance_t)
  : result SegmentationModel :=
  ok ← isinstance_keras_Model m;
  if ok : bool
  then mret (SegmentationModelPretrainedTensorflow m)
  else raise (AssertionError "model should be a tf keras model instance").

(** [SegmentationModelBlob._segment(arr, invert=True, **kwargs)] *)
Definition Blob_segment (self_model : model_instance_t) (arr : ndarray)
    (kw : gmap string kwval) : result ndarray :=
  let invert := default (KwBool true) (kw !! "invert") in
  let kwargs := delete "invert" kw in
  let arr := if truthy invert then with_data arr (Z.opp <$> data arr) else arr in
  if decide (self_model = InstanceName "log") then blob_log arr kwargs
  else if decide (self_model = InstanceName "dog") then blob_dog arr kwargs
  else if decide (self_model = InstanceName "doh") then blob_doh arr kwargs
  else raise (ValueError ("did not recognize self.model " ++ str_of_model self_model)).

(** [SegmentationModelWatershed._segment(arr, thresh=0.5, geq=True, **kwargs)] *)
Definition Watershed_segment (arr : ndarray) (kw : gmap string kwval)
  : result ndarray :=
  let thresh := default (KwNum 0.5%Q) (kw !! "thresh") in
  let geq := default (KwBool true) (kw !! "geq") in
  t ← kw_number thresh;
  let mask : list bool :=
    if truthy geq
    then (λ v, Qle_bool t (inject_Z v)) <$> data arr
    else (λ v, negb (Qle_bool t (inject_Z v))) <$> data arr in
  let one_minus_mask :=
    with_data arr ((λ b : bool, if b then 0 else 1) <$> mask) in
  distance ← distance_transform_edt one_minus_mask;
  local_maxi ← peak_local_max distance
                 {| shape := [5; 5]%nat; data := replicate 25 1 |} one_minus_mask;
  markers ← ndi_label local_maxi;
  watershed (with_data arr ((λ v, 255 - v) <$> data arr)) markers one_minus_mask.

(** [SegmentationModelPretrainedTensorflow._segment(arr, **kwargs)] *)
Definition Tensorflow_segment (self_model : model_instance_t) (arr : ndarray)
    (kw : gmap string kwval) : result ndarray :=
  call_model self_model arr kw.

Definition _segment (self : SegmentationModel) (arr : ndarray)
    (kw : gmap string kwval) : result ndarray :=
  match self with
  | SegmentationModelBlob m => Blob_segment m arr kw
  | SegmentationModelWatershed _ => Watershed_segment arr kw
  | SegmentationModelPretrainedTensorflow m => Tensorflow_segment m arr kw
  end.

(** The call [segmentation_model.segment(arr=..., **model_kwargs)] binds
    [self] and [arr]: a keyword of [model_kwargs] with one of these names
    gives the parameter a second value, and the call raises [TypeError]
    before the body of the method runs. *)
Definition bind_arguments (kw : gmap string kwval) : result unit :=
  if decide (is_Some (kw !! "arr"))
  then raise (TypeError "segment() got multiple values for keyword argument 'arr'")
  else if decide (is_Some (kw !! "self"))
  then raise (TypeError "segment() got multiple values for argument 'self'")
  else mret ().

(** [SegmentationModel.segment(arr, **kwargs)], called as at line 228. *)
Definition segment (self : SegmentationModel) (arr : ndarray)
    (kw : gmap string kwval) : result ndarray :=
  _ ← bind_arguments kw;
  _segment self arr kw.

End backend.
End Backend.

(** ** The image container and the state of a call *)

Record ImageContainer : Type := MkImageContainer {
  img_data : gmap string DataArray;
  img_shape : nat * nat
}.

(** The container interface and the merge helper that [segment.py] consumes:
    [img.crop_equally], [img.crop], [uncrop_img] and [img.add_img].  The first
    three read the container and return new arrays; [add_img] is the one
    operation that changes the container. *)
Class ContainerOps : Type := {
  crop_equally : ImageContainer → option Z → option Z → string →
                 result (list DataArray * list nat * list nat);
  crop : ImageContainer → Z → Z → option Z → option Z → string → result DataArray;
  uncrop_img : list DataArray → list nat → list nat → nat * nat → string →
               result DataArray;
  add_img : ImageContainer → DataArray → string → string → result ImageContainer
}.

(** Calls that leave the embedded file, in the order they are made. *)
Inductive event : Type :=
| EvCropEqually (xs ys : option Z) (img_id : string)
| EvBackend (arr : ndarray)
| EvUncrop (crops : list DataArray)
| EvAddImg (img_id : string)
| EvCrop (x y : Z).

Record world : Type := MkWorld {
  container : ImageContainer;
  trace : list event
}.

(** Computations over the container that may raise. *)
Abbreviation M := (ST world).

Definition get_container : M ImageContainer := λ w, (inr (container w), w).
Definition put_container (c : ImageContainer) : M unit :=
  λ w, (inr (), {| container := c; trace := trace w |}).
Definition emit (ev : event) : M unit :=
  λ w, (inr (), {| container := container w; trace := trace w ++ [ev] |}).

(** The state [w] after the calls [evs]. *)
Definition add_events (w : world) (evs : list event) : world :=
  {| container := container w; trace := trace w ++ evs |}.

(** The arrays handed to the backend, in call order. *)
Definition backend_calls (t : list event) : list ndarray :=
  omap (λ ev, match ev with EvBackend a => Some a | _ => None end) t.

(** A [DataArray] names each dimension of its array, and the array holds one
    element per index. *)
Definition wf_DataArray (x : DataArray) : Prop :=
  length (dims x) = ndim (values x) ∧ wf_array (values x).

(** [str.lower] on ASCII letters. *)
Definition lower_ascii (c : Ascii.ascii) : Ascii.ascii :=
  let n := Ascii.nat_of_ascii c in
  if bool_decide (65 ≤ n ≤ 90)%nat then Ascii.ascii_of_nat (n + 32) else c.

Fixpoint lower (s : string) : string :=
  match s with
  | EmptyString => EmptyString
  | String c s' => String (lower_ascii c) (lower s')
  end.

(** A value given for [channel_idx]. *)
Inductive pyarg : Type :=
| ArgNone
| ArgInt (k : Z)
| ArgStr (s : string).


Section segment.
Context `{ext : Externals} `{ops : ContainerOps}.

(** [img.crop_equally(xs=xs, ys=ys, img_id=img_id)] *)
Definition call_crop_equally (xs ys : option Z) (img_id : string)
  : M (list DataArray * list nat * list nat) :=
  _ ← emit (EvCropEqually xs ys img_id);
  img ← get_container;
  lift (crop_equally img xs ys img_id).

(** [img.shape] *)
Definition get_shape : M (nat * nat) := img ← get_container; mret (img_shape img).

(** [img.add_img(img=d, img_id=img_id, channel_id=channel_id)] *)
Definition call_add_img (d : DataArray) (img_id channel_id : string) : M unit :=
  _ ← emit (EvAddImg img_id);
  img ← get_container;
  img' ← lift (add_img img d img_id channel_id);
  put_container img'.

(** [img.crop(x=x, y=y, xs=xs, ys=ys, img_id=img_id)] *)
Definition call_crop (x y : Z) (xs ys : option Z) (img_id : string) : M DataArray :=
  _ ← emit (EvCrop x y);
  img ← get_container;
  lift (crop img x y xs ys img_id).

(** [segment], lines 217 to 224: the backend for [model_group]. *)
Definition select_model (model_group : string) (model_instance : model_instance_t)
  : result Backend.SegmentationModel :=
  if decide (model_group = "skimage_blob")
  then mret (Backend.SegmentationModelBlob model_instance)
  else if decide (model_group = "watershed")
  then mret (Backend.SegmentationModelWatershed model_instance)
  else if decide (model_group = "tensorflow")
  then Backend.SegmentationModelPretrainedTensorflow_init model_instance
  else raise (ValueError ("did not recognize model instance " ++ model_group)).

(** [segment], line 227. *)
Definition channel_slice_of (channel_idx : pyarg) (crops : list DataArray)
  : result indexer :=
  match channel_idx with
  | ArgInt k => mret (IntIndex k)
  | _ =>
      match crops with
      | [] => raise (IndexError "list index out of range")
      | c0 :: _ => n ← channels_shape0 c0; mret (Slice 0 n)
      end
  end.

(** The argument of the backend for one tile:
    [x[{"channels": channel_slice}].values]. *)
Definition backend_input (channel_slice : indexer) (x : DataArray) : result ndarray :=
  values <$> isel x "channels" channel_slice.

(** [segment], line 228, for one tile [x]:
    [segmentation_model.segment(arr=x[{"channels": channel_slice}].values,
    **model_kwargs)]. *)
Definition tile_step (channel_slice : indexer) (sm : Backend.SegmentationModel)
    (kw : gmap string kwval) (x : DataArray) : M ndarray :=
  arr ← lift (backend_input channel_slice x);
  _ ← emit (EvBackend arr);
  lift (Backend.segment sm arr kw).

(** [segment], lines 232 to 238: relabel the masks and merge them. *)
Definition relabel_and_merge (masks : list ndarray) (xcoord ycoord : list nat)
    (sh : nat * nat) (channel_id : string) : M DataArray :=
  r ← lift (Relabel.relabel_crops mask_dtype masks);
  _ ← emit (EvUncrop r.1);
  lift (uncrop_img r.1 xcoord ycoord sh channel_id).

Definition segment (img_id model_group : string) (model_instance : model_instance_t)
    (model_kwargs : gmap string kwval) (channel_idx : pyarg)
    (xs ys : option Z) (key_added : option string) : M unit :=
  let channel_id := "mask" in
  segmentation_model ← lift (select_model model_group model_instance);
  r ← call_crop_equally xs ys img_id;
  let '(crops, xcoord, ycoord) := r in
  channel_slice ← lift (channel_slice_of channel_idx crops);
  crops ← mapM (tile_step channel_slice segmentation_model model_kwargs) crops;
  sh ← get_shape;
  img_segmented ← relabel_and_merge crops xcoord ycoord sh channel_id;
  let img_id := match key_added with
                | None => "segmented_" ++ lower model_group
                | Some k => k
                end in
  call_add_img img_segmented img_id channel_id.

(** *** [segment_crops] *)

(** [np.unique(a)]: the distinct elements, ascending. *)
Definition np_unique (a : ndarray) : list Z :=
  merge_sort Z.le (remove_dups (data a)).

(** [np.sort(list(set(np.unique(a)) - {0}))] *)
Definition nonzero_labels (a : ndarray) : list Z :=
  merge_sort Z.le (elements ((list_to_set (np_unique a) : gset Z) ∖ {[0]})).

(** Flat positions at which a boolean array is true. *)
Definition true_positions (cond : list bool) : list nat :=
  omap (λ pb : nat * bool, if pb.2 then Some pb.1 else None)
       (zip (seq 0 (length cond)) cond).

(** [np.where(cond)]: one index array per dimension. *)
Definition np_where (sh : list nat) (cond : list bool) : list (list nat) :=
  (λ k, (λ p, default 0%nat (unravel sh p !! k)) <$> true_positions cond)
    <$> seq 0 (length sh).

Definition tuple_get {A} (t : list A) (k : nat) : result A :=
  match t !! k with
  | Some v => mret v
  | None => raise (IndexError "tuple index out of range")
  end.

(** A Python float: a rational, or [nan]. *)
Inductive pyfloat : Type :=
| Finite (q : Q)
| NaN.

Definition sum_nat (l : list nat) : nat := foldr Nat.add 0%nat l.

(** [np.mean] of an index array; the mean of no elements is [nan].  As long
    as the sum of the indices stays below 2^53, the sum and the count are
    exact in double precision and the rounded quotient has the integer part of
    the exact one, which is what [python_int] reads. *)
Definition np_mean (l : list nat) : pyfloat :=
  match l with
  | [] => NaN
  | _ => Finite (Z.of_nat (sum_nat l) # Pos.of_nat (length l))
  end.

(** [int(f)]: truncation toward zero. *)
Definition python_int (f : pyfloat) : result Z :=
  match f with
  | Finite q => mret (Z.quot (Qnum q) (Z.pos (Qden q)))
  | NaN => raise (ValueError "cannot convert float NaN to integer")
  end.

(** [img.data[key]] *)
Definition lookup_data (img : ImageContainer) (key : string) : result DataArray :=
  match img_data img !! key with
  | Some d => mret d
  | None => raise (KeyError key)
  end.

(** The pair computed for the label [i] at lines 271 to 274. *)
Definition segment_centre (img : ImageContainer) (segmented_img_id : string) (i : Z)
  : result (pyfloat * pyfloat) :=
  l0 ← lookup_data img segmented_img_id;
  w0 ← tuple_get (np_where (shape (values l0))
                    ((λ v, bool_decide (v = i)) <$> data (values l0))) 0;
  l1 ← lookup_data img segmented_img_id;
  w1 ← tuple_get (np_where (shape (values l1))
                    ((λ v, bool_decide (v = i)) <$> data (values l1))) 1;
  mret (np_mean w0, np_mean w1).

Definition segment_centres (img : ImageContainer) (segmented_img_id : string)
  : result (list (pyfloat * pyfloat)) :=
  l ← lookup_data img segmented_img_id;
  mapM (segment_centre img segmented_img_id) (nonzero_labels (values l)).

(** One element of the comprehension at line 277:
    [img.crop(x=int(xi), y=int(yi), xs=xs, ys=ys, img_id=img_id)]. *)
Definition crop_step (xs ys : option Z) (img_id : string) (c : pyfloat * pyfloat)
  : M DataArray :=
  x ← lift (python_int c.1);
  y ← lift (python_int c.2);
  call_crop x y xs ys img_id.

Definition segment_crops (img_id segmented_img_id : string) (xs ys : option Z)
  : M (list DataArray) :=
  img ← get_container;
  centres ← lift (segment_centres img segmented_img_id);
  mapM (crop_step xs ys img_id) centres.

(** The value of [crop_step] as a function of the container. *)
Definition crop_at (img : ImageContainer) (xs ys : option Z) (img_id : string)
    (c : pyfloat * pyfloat) : result DataArray :=
  x ← python_int c.1;
  y ← python_int c.2;
  crop img x y xs ys img_id.

End segment.

(** *** Centroids *)

(** Flat positions of the pixels that carry the label [i]. *)
Definition positions_of (a : ndarray) (i : Z) : list nat :=
  true_positions ((λ v, bool_decide (v = i)) <$> data a).

(** The mean of a list of indices, rounded down. *)
Definition floor_mean (l : list nat) : Z :=
  Z.of_nat (sum_nat l) `div` Z.of_nat (length l).

(** In a two-dimensional array with rows of length [W], the pixel at flat
    position [p] has row index [p / W] and column index [p mod W]. *)
Definition floor_centroid (a : ndarray) (W : nat) (i : Z) : Z * Z :=
  (floor_mean ((λ p, p / W)%nat <$> positions_of a i),
   floor_mean ((λ p, p `mod` W)%nat <$> positions_of a i)).

(** Rounding to the nearest integer. *)
Definition round_nearest (q : Q) : Z := Qfloor (q + (1 # 2)).

Definition mean (l : list nat) : Q := Z.of_nat (sum_nat l) # Pos.of_nat (length l).

(** The centre in the words of the specification (section 4.3): the mean row
    index and the mean column index of the pixels that carry the label, each
    rounded to the nearest integer.  Rows and columns are the last two
    dimensions, of lengths [H] and [W]. *)
Definition rounded_centroid (H W : nat) (a : ndarray) (i : Z) : Z * Z :=
  (round_nearest (mean ((λ p, (p / W) `mod` H)%nat <$> positions_of a i)),
   round_nearest (mean ((λ p, p `mod` W)%nat <$> positions_of a i))).

(** The crop requests in a trace. *)
Definition crop_requests (t : list event) : list (Z * Z) :=
  omap (λ ev, match ev with EvCrop x y => Some (x, y) | _ => None end) t.

(** ** The container operations, as the specification describes them

    [squidpy/image/object.py] and [squidpy/image/crop.py] are not among the
    embedded files.  The definitions of this module follow the specification
    and give one instance of [ContainerOps]. *)

Module SpecOps.

(** Modelled from the spec: a crop (section 3), the sub-rectangle
    [y0 ≤ y < y0 + h], [x0 ≤ x < x0 + w] of an image with dimensions
    (channel, y, x), clipped to the image. *)
Definition window (d : DataArray) (x0 y0 w h : nat) : DataArray :=
  match shape (values d) with
  | [c; H; W] =>
      {| dims := dims d;
         values := {| shape := [c; Nat.min h (H - y0); Nat.min w (W - x0)];
                      data := select_data [c; H; W]
                        (λ idx, match idx with
                                | [_; y; x] =>
                                    bool_decide (y0 ≤ y < y0 + h ∧ x0 ≤ x < x0 + w)%nat
                                | _ => false
                                end)
                        (data (values d)) |} |}
  | _ => d
  end.

(** Modelled from the spec: the origins [0, step, 2 step, ...] below [n] of
    the tiles of a grid. *)
Definition origins (n step : nat) : list nat :=
  match step with
  | O => [0%nat]
  | S _ => (λ k, k * step)%nat <$> seq 0 ((n + step - 1) / step)
  end.

(** Modelled from the spec: [ImageContainer.crop_equally].  Section 4.2
    step 1: the image is partitioned into a grid of equally-sized tiles, each
    with its (x, y) origin; without tile dimensions there is a single
    whole-image tile. *)
Definition crop_equally_spec (img : ImageContainer) (xs ys : option Z)
    (img_id : string) : result (list DataArray * list nat * list nat) :=
  match img_data img !! img_id with
  | None => raise (KeyError img_id)
  | Some d =>
      let '(H, W) := img_shape img in
      let w := from_option Z.to_nat W xs in
      let h := from_option Z.to_nat H ys in
      let grid := y0 ← origins H h; x0 ← origins W w; [(x0, y0)] in
      mret ((λ o : nat * nat, window d o.1 o.2 w h) <$> grid, fst <$> grid, snd <$> grid)
  end.

(** Modelled from the spec: [ImageContainer.crop].  Section 4.3: a tile of
    the image centred at the given point, of the given width and height. *)
Definition crop_spec (img : ImageContainer) (x y : Z) (xs ys : option Z)
    (img_id : string) : result DataArray :=
  match img_data img !! img_id with
  | None => raise (KeyError img_id)
  | Some d =>
      let '(H, W) := img_shape img in
      let w := from_option Z.to_nat W xs in
      let h := from_option Z.to_nat H ys in
      mret (window d (Z.to_nat x - w / 2) (Z.to_nat y - h / 2) w h)
  end.

(** Modelled from the spec: one tile placed into the canvas (rows of
    length [W]) at its origin [(x0, y0)]. *)
Definition paste (W : nat) (tile : DataArray) (x0 y0 : nat) (canvas : list Z)
  : list Z :=
  match shape (values tile) with
  | [_; h; w] =>
      imap (λ q v,
              let y := (q / W)%nat in
              let x := (q `mod` W)%nat in
              if bool_decide (y0 ≤ y < y0 + h ∧ x0 ≤ x < x0 + w)%nat
              then default v (data (values tile) !! ((y - y0) * w + (x - x0))%nat)
              else v) canvas
  | _ => canvas
  end.

(** Modelled from the spec: [uncrop_img].  Section 4.2 step 5: each
    relabeled tile is placed into a blank canvas sized to the whole source
    image at its recorded origin offset; tiles are assumed not to overlap. *)
Definition uncrop_img_spec (crops : list DataArray) (x y : list nat)
    (sh : nat * nat) (channel_id : string) : result DataArray :=
  let '(H, W) := sh in
  mret {| dims := [channel_id; "y"; "x"];
          values := {| shape := [1; H; W]%nat;
                       data := foldl (λ cv t, paste W t.1.1 t.1.2 t.2 cv)
                                 (replicate (H * W) 0)
                                 (zip (zip crops x) y) |} |}.

(** Modelled from the spec: [ImageContainer.add_img].  Section 4.2 step 6:
    the array is stored in the container under the given key. *)
Definition add_img_spec (img : ImageContainer) (d : DataArray)
    (img_id channel_id : string) : result ImageContainer :=
  mret {| img_data := <[img_id := d]> (img_data img); img_shape := img_shape img |}.

Definition spec_ops : ContainerOps := {|
  crop_equally := crop_equally_spec;
  crop := crop_spec;
  uncrop_img := uncrop_img_spec;
  add_img := add_img_spec
|}.

End SpecOps.

(** ** [extract] ([squidpy/pl/_utils.py])

    [AnnData] objects are mutable and passed by reference: they live in a
    store, and [adata.copy()] allocates a new object with the same content. *)

Module Extract.

Abbreviation loc := nat (only parsing).

(** An entry of [adata.obsm]: a [pandas.DataFrame] with named columns, or an
    array. *)
Inductive obsm_entry : Type :=
| ObsmDataFrame (columns : list (string * list Q))
| ObsmArray (sh : list nat) (vals : list Q).

(** [obs] is a data frame: its columns in order; [obsm] is a mapping. *)
Record AnnData : Type := MkAnnData {
  obs : list (string * list Q);
  obsm : gmap string obsm_entry
}.

Record state : Type := MkState {
  objs : gmap nat AnnData;
  log : list string
}.

(** A string, or a list of strings. *)
Inductive str_or_list : Type :=
| OneStr (s : string)
| StrList (l : list string).

Definition deref (adata : loc) : ST state AnnData := λ σ,
  match objs σ !! adata with
  | Some a => (inr a, σ)
  | None => (inl (LibraryError "ReferenceError" "dangling AnnData reference"), σ)
  end.

(** [logg.warning(msg)] *)
Definition warning (msg : string) : ST state unit := λ σ,
  (inr (), {| objs := objs σ; log := log σ ++ [msg] |}).

(** [adata.copy()]: a new object, equal in content. *)
Definition alloc (a : AnnData) : ST state loc := λ σ,
  let l := fresh (dom (objs σ)) in
  (inr l, {| objs := <[l := a]> (objs σ); log := log σ |}).

Definition copy (adata : loc) : ST state loc :=
  a ← deref adata;
  alloc a.

(** [df[key] = col] on a data frame: an existing column is replaced in
    place, a new one is appended. *)
Fixpoint set_column (df : list (string * list Q)) (key : string) (col : list Q)
  : list (string * list Q) :=
  match df with
  | [] => [(key, col)]
  | (k, c) :: df' =>
      if decide (k = key) then (k, col) :: df' else (k, c) :: set_column df' key col
  end.

(** [adata.obs[key] = col] *)
Definition store (adata : loc) (a : AnnData) : ST state unit := λ σ,
  (inr (), {| objs := <[adata := a]> (objs σ); log := log σ |}).

Definition set_obs (adata : loc) (key : string) (col : list Q) : ST state unit :=
  a ← deref adata;
  store adata {| obs := set_column (obs a) key col; obsm := obsm a |}.

(** The inner function [_warn_if_exists_obs]. *)
Definition _warn_if_exists_obs (adata : loc) (obs_key : string) : ST state unit :=
  a ← deref adata;
  if bool_decide (obs_key ∈ (fst <$> obs a))
  then warning (obs_key ++ " in adata.obs will be overwritten by extract.")
  else mret ().

(** Lines 98 to 116: the list of prefixes, one per key. *)
Definition prefix_list (obsm_key : list string) (prefix : option str_or_list)
  : result (list string) :=
  match prefix with
  | Some p =>
      let prefix := match p with OneStr s => [s] | StrList l => l end in
      prefix ←
        (if decide (length obsm_key ≠ length prefix) then
           match prefix with
           | [p0] => mret ((λ _, p0) <$> obsm_key)
           | _ => raise (ValueError
                    ("length of prefix " ++ pretty (length prefix) ++
                     " does not fit length of obsm_key " ++
                     pretty (length obsm_key)))
           end
         else mret prefix);
      mret ((λ p, p ++ "_") <$> prefix)
  | None => mret ((λ _, "") <$> obsm_key)
  end.

(** [obsm.shape[1]] *)
Definition shape1 (sh : list nat) : result nat :=
  match sh !! 1%nat with
  | Some m => mret m
  | None => raise (IndexError "tuple index out of range")
  end.

(** [obsm[:, j]] as a column of [obs]: one value per row of a
    two-dimensional array. *)
Definition array_column (sh : list nat) (vals : list Q) (j : nat)
  : result (list Q) :=
  match sh with
  | [n; m] => mret (omap (λ r, vals !! (r * m + j)%nat) (seq 0 n))
  | _ => raise (ValueError "Expected a 1D array, got an array with more dimensions")
  end.

(** [obsm.loc[:, col]] as a column of [obs], for [col] among the columns of
    the data frame [obsm]: when another column has the same name the
    selection is a data frame of several columns, and assigning it to one
    column of [obs] raises. *)
Definition loc_column (columns : list (string * list Q)) (col : string * list Q)
  : result (list Q) :=
  if decide (length (filter (λ c : string * list Q, c.1 = col.1) columns) = 1%nat)
  then mret col.2
  else raise (ValueError "Cannot set a DataFrame with multiple columns to a single column").

(** The body of the loop over [enumerate(obsm_key)], lines 121 to 133. *)
Definition copy_columns (adata tmp_adata : loc) (prefix : list string)
    (i : nat) (cur_obsm_key : string) : ST state unit :=
  a ← deref adata;
  obsm ← lift (match obsm a !! cur_obsm_key with
               | Some e => mret e
               | None => raise (KeyError cur_obsm_key)
               end);
  match obsm with
  | ObsmDataFrame columns =>
      _ ← mapM (λ col : string * list Q,
                  p ← lift (match prefix !! i with
                            | Some p => mret p
                            | None => raise (IndexError "list index out of range")
                            end);
                  let obs_key := p ++ col.1 in
                  _ ← _warn_if_exists_obs tmp_adata obs_key;
                  c ← lift (loc_column columns col);
                  set_obs tmp_adata obs_key c) columns;
      mret ()
  | ObsmArray sh vals =>
      m ← lift (shape1 sh);
      _ ← mapM (λ j : nat,
                  p ← lift (match prefix !! i with
                            | Some p => mret p
                            | None => raise (IndexError "list index out of range")
                            end);
                  let obs_key := p ++ pretty j in
                  _ ← _warn_if_exists_obs tmp_adata obs_key;
                  c ← lift (array_column sh vals j);
                  set_obs tmp_adata obs_key c) (seq 0 m);
      mret ()
  end.

Definition extract (adata : loc) (obsm_key : str_or_list)
    (prefix : option str_or_list) : ST state loc :=
  let obsm_key := match obsm_key with OneStr s => [s] | StrList l => l end in
  prefix ← lift (prefix_list obsm_key prefix);
  tmp_adata ← copy adata;
  _ ← mapM (λ ik : nat * string, copy_columns adata tmp_adata prefix ik.1 ik.2)
           (imap pair obsm_key);
  mret tmp_adata.

(** Every object other than [tmp] is as in [σ0]. *)
Definition frame (σ0 : state) (tmp : loc) (σ : state) : Prop :=
  ∀ l, l ≠ tmp → objs σ !! l = objs σ0 !! l.

(** The object [tmp] exists and its [obsm] is [om]. *)
Definition keeps_obsm (tmp : loc) (om : gmap string obsm_entry) (σ : state) : Prop :=
  ∃ a, objs σ !! tmp = Some a ∧ obsm a = om.

End Extract.

(** ** Concrete inputs

    Small inputs on which the definitions are evaluated. *)

Module Examples.

(** A two-dimensional mask with the given rows' elements in order. *)
Definition tile (h w : nat) (vs : list Z) : ndarray := {| shape := [h; w]; data := vs |}.

(** The [DataArray] that the relabeling loop leaves for a mask. *)
Definition mask_array (h w : nat) (vs : list Z) : DataArray :=
  {| dims := ["mask"; "y"; "x"];
     values := {| shape := [1%nat; h; w]; data := vs |} |}.

(** Three tiles with local labels 1..2, 1 and 1. *)
Definition three_tiles : list ndarray :=
  [tile 1 2 [1; 2]; tile 1 1 [1]; tile 1 1 [1]].

(** The two masks of the scenario of section 8, item 5. *)
Definition scenario_tile1 : ndarray := tile 10 10 ([1; 1; 2; 2] ++ replicate 96 0).
Definition scenario_tile2 : ndarray := tile 10 10 (replicate 50 0 ++ replicate 50 1).

(** Stand-ins for the external libraries: the detectors return their input,
    object 0 is a model that returns its input, object 1 is a model whose
    call raises; other objects are not models. *)
Definition demo_externals : Externals := {|
  mask_dtype := int32;
  distance_map := ndarray;
  blob_log := λ arr _, mret arr;
  blob_dog := λ arr _, mret arr;
  blob_doh := λ arr _, mret arr;
  distance_transform_edt := λ arr, mret arr;
  peak_local_max := λ _ _ labels, mret labels;
  ndi_label := λ arr, mret arr;
  watershed := λ _ markers _, mret markers;
  tf_keras_model_Model := mret (λ o, bool_decide (o < 2)%nat);
  object_call := λ o arr _,
    if decide (o = 0%nat) then mret arr
    else raise (LibraryError "InvalidArgumentError" "incompatible input shape");
  object_str := λ _, "<object>"
|}.

(** An image of one channel, 2 rows and 4 columns. *)
Definition small_image : DataArray :=
  {| dims := ["channels"; "y"; "x"];
     values := {| shape := [1; 2; 4]%nat; data := [0; 1; 0; 0; 0; 0; 1; 0] |} |}.

Definition small_world : world :=
  {| container := {| img_data := {["image" := small_image]};
                     img_shape := (2, 4)%nat |};
     trace := [] |}.

(** A label map with the label 1 on the pixels (0, 0), (1, 0) and (1, 1), as
    a two-dimensional array and with a leading [mask] dimension. *)
Definition label_map_2d : DataArray :=
  {| dims := ["y"; "x"];
     values := {| shape := [2; 2]%nat; data := [1; 0; 1; 1] |} |}.

Definition label_map_3d : DataArray :=
  {| dims := ["mask"; "y"; "x"];
     values := {| shape := [1; 2; 2]%nat; data := [1; 0; 1; 1] |} |}.

Definition labelled_world (l : DataArray) : world :=
  {| container := {| img_data := {["image" := small_image; "seg" := l]};
                     img_shape := (2, 4)%nat |};
     trace := [] |}.

(** An [AnnData] object with two [obs] columns and two [obsm] entries, a data
    frame and a 2 by 2 array, alone in the store. *)
Definition adata0 : Extract.AnnData :=
  {| Extract.obs := [("n_counts", [1%Q; 2%Q]); ("feat_0", [0%Q; 0%Q])];
     Extract.obsm :=
       {["img_features" := Extract.ObsmDataFrame [("area", [3%Q; 4%Q]); ("0", [5%Q; 6%Q])];
         "spatial" := Extract.ObsmArray [2; 2]%nat [7%Q; 8%Q; 9%Q; 10%Q]]} |}.

Definition store0 : Extract.state :=
  {| Extract.objs := {[0%nat := adata0]}; Extract.log := [] |}.

Definition empty_world : world :=
  {| container := {| img_data := ∅; img_shape := (10, 20)%nat |}; trace := [] |}.

End Examples.

(** * Summaries of the loops

    What the loops of [segment] and of [extract] compute, in closed form; the
    properties relate them to the code. *)

(** The counter of the relabeling loop after a mask with maximum [m], from
    the counter [c] before it. *)
Definition counter_step (c m : Z) : Z := if 0 <? m then 2 * c + m else c + m.

(** The [DataArray] that the relabeling loop leaves for the mask [a] when
    the counter is [c]. *)
Definition relabeled (a : ndarray) (c : Z) : DataArray :=
  {| dims := ["mask"; "y"; "x"];
     values := {| shape := 1%nat :: shape a;
                  data := Relabel.offset_positive c (data a) |} |}.

(** The number of local labels of all tiles, from the maxima of the masks. *)
Definition total (ms : list Z) : Z := foldr Z.add 0 ms.

(** The maxima of the tiles that have a segment. *)
Definition with_segments (ms : list Z) : list Z := filter (λ m, 0 < m) ms.

(** [segment], line 239: the key of the new image. *)
Definition output_key (model_group : string) (key_added : option string) : string :=
  match key_added with
  | None => "segmented_" +:+ lower model_group
  | Some k => k
  end.

(** Keyword arguments that the call of line 228 can pass on: a keyword named
    [arr] or [self] clashes with the arguments of
    [SegmentationModel.segment]. *)
Definition passable (kw : gmap string kwval) : Prop :=
  kw !! "arr" = None ∧ kw !! "self" = None.

(** Channel [k] of a tile whose leading dimension is [channels]: the block
    of its elements that belongs to the channel, as an array without that
    dimension.  A negative [k] counts from the last channel. *)
Definition channel_block (k : Z) (x : DataArray) : ndarray :=
  match shape (values x) with
  | c :: rest =>
      {| shape := rest;
         data := take (size_of rest)
                   (drop (Z.to_nat (if k <? 0 then k + Z.of_nat c else k)
                          * size_of rest) (data (values x))) |}
  | [] => values x
  end.

(** What the specification says the backend receives for a tile (section
    4.2, step 2): the one channel for an integer [channel_idx], the whole
    array of the tile otherwise. *)
Definition selected (channel_idx : pyarg) (x : DataArray) : ndarray :=
  match channel_idx with
  | ArgInt k => channel_block k x
  | _ => values x
  end.

Section pipeline.
Context `{ext : Externals} `{ops : ContainerOps}.

(** One call of the backend on the array [arr]. *)
Definition call_backend (sm : Backend.SegmentationModel) (kw : gmap string kwval)
    (arr : ndarray) : M ndarray :=
  _ ← emit (EvBackend arr);
  lift (Backend.segment sm arr kw).

(** [segment] after the list comprehension: lines 232 to 240. *)
Definition segment_tail (masks : list ndarray) (xcoord ycoord : list nat)
    (key : string) : M unit :=
  sh ← get_shape;
  img_segmented ← relabel_and_merge masks xcoord ycoord sh "mask";
  call_add_img img_segmented key "mask".

End pipeline.

Module ExtractWrites.
Import Extract.

(** The message of [_warn_if_exists_obs]. *)
Definition overwrite_warning (key : string) : string :=
  key +:+ " in adata.obs will be overwritten by extract.".

(** The columns that one entry of [obsm] gives, with their names in [obs],
    in the order of the inner loops of lines 124 to 133. *)
Definition writes_of (pre : string) (e : obsm_entry)
  : result (list (string * list Q)) :=
  match e with
  | ObsmDataFrame columns =>
      mret ((λ col : string * list Q, (pre +:+ col.1, col.2)) <$> columns)
  | ObsmArray sh vals =>
      m ← shape1 sh;
      mapM (λ j : nat, c ← array_column sh vals j; mret (pre +:+ pretty j, c))
           (seq 0 m)
  end.

(** [df[key]] on a data frame, [None] for a missing column. *)
Fixpoint get_column (df : list (string * list Q)) (key : string) : option (list Q) :=
  match df with
  | [] => None
  | (k, c) :: df' => if decide (k = key) then Some c else get_column df' key
  end.

(** A sequence of writes on a data frame, with the warnings they log. *)
Fixpoint run_writes (df : list (string * list Q)) (lg : list string)
    (ws : list (string * list Q)) : list (string * list Q) * list string :=
  match ws with
  | [] => (df, lg)
  | (k, c) :: ws' =>
      run_writes (set_column df k c)
        (if bool_decide (k ∈ (fst <$> df))
         then (lg ++ [overwrite_warning k])%list else lg) ws'
  end.

(** The column last written under [key], if any. *)
Definition last_write (key : string) (ws : list (string * list Q)) : option (list Q) :=
  snd <$> last (filter (λ kc : string * list Q, kc.1 = key) ws).

(** The store after the writes [ws] on the object [tmp], which held [at_]. *)
Definition after_writes (tmp : nat) (at_ : AnnData) (σ : state)
    (ws : list (string * list Q)) : state :=
  {| objs := <[tmp := {| obs := (run_writes (obs at_) (log σ) ws).1;
                         obsm := obsm at_ |}]> (objs σ);
     log := (run_writes (obs at_) (log σ) ws).2 |}.

(** An entry whose columns [obsm.loc[:, col]] selects one at a time: the
    column names of a data frame are distinct. *)
Definition distinct_columns (e : obsm_entry) : Prop :=
  match e with
  | ObsmDataFrame columns => NoDup (fst <$> columns)
  | ObsmArray _ _ => True
  end.

(** The entries of the keys [keys], read with the prefixes [pres], give the
    columns [wss], key by key. *)
Definition reads (a : AnnData) (keys pres : list string)
    (wss : list (list (string * list Q))) : Prop :=
  Forall2 (λ (kp : string * string) ws,
             ∃ e, obsm a !! kp.1 = Some e ∧ distinct_columns e
                  ∧ writes_of kp.2 e = inr ws)
    (zip keys pres) wss.

(** [extract], lines 98 and 99: the keys as a list. *)
Definition key_list (k : str_or_list) : list string :=
  match k with OneStr s => [s] | StrList l => l end.

End ExtractWrites.

Module MoreExamples.


(** A label map as [segment] stores it, with the leading dimension [mask]
    before 2 rows and 4 columns: one segment, the pixel in row 1, column 3. *)
Definition stored_label_map : DataArray :=
  {| dims := ["mask"; "y"; "x"];
     values := {| shape := [1; 2; 4]%nat; data := [0; 0; 0; 0; 0; 0; 0; 1] |} |}.

(** A one-dimensional label map with the label 1 on two pixels. *)
Definition label_map_1d : DataArray :=
  {| dims := ["x"]; values := {| shape := [3]%nat; data := [0; 1; 1] |} |}.

(** TensorFlow as released: the Keras model class is [tf.keras.Model] (also
    [tf.keras.models.Model]) and the module [tf.keras] has no attribute
    [model], so evaluating the path [tf.keras.model.Model] raises
    [AttributeError].  Object 0 is a model: calling it returns its input. *)
Definition tensorflow_released : Externals := {|
  mask_dtype := int32;
  distance_map := ndarray;
  blob_log := λ arr _, mret arr;
  blob_dog := λ arr _, mret arr;
  blob_doh := λ arr _, mret arr;
  distance_transform_edt := λ arr, mret arr;
  peak_local_max := λ _ _ labels, mret labels;
  ndi_label := λ arr, mret arr;
  watershed := λ _ markers _, mret markers;
  tf_keras_model_Model :=
    raise (LibraryError "AttributeError"
             "module 'tensorflow.keras' has no attribute 'model'");
  object_call := λ _ arr _, mret arr;
  object_str := λ _, "<keras.Model>"
|}.

(** Two masks of type [uint8] with dense local labels: 1 to 255, and 1, 2. *)
Definition uint8_tiles : list ndarray :=
  [Examples.tile 1 255 (seqZ 1 255); Examples.tile 1 2 [1; 2]].

(** Thirty-three masks of type [int32] with the local labels 1 and 2. *)
Definition int32_tiles : list ndarray := replicate 33 (Examples.tile 1 2 [1; 2]).

(** The columns that [extract] writes for the two entries of
    [Examples.adata0], with the prefixes [p1] and [p2]. *)
Definition writes0 (p1 p2 : string) : list (list (string * list Q)) :=
  [[(p1 +:+ "area", [3%Q; 4%Q]); (p1 +:+ "0", [5%Q; 6%Q])];
   [(p2 +:+ "0", [7%Q; 9%Q]); (p2 +:+ "1", [8%Q; 10%Q])]].

End MoreExamples.

(** * Properties *)

Local Open Scope list_scope.

(** Case analysis on the next fallible step of a computation in [H]; the
    branch where the step raises is closed by [done]. *)
Ltac destruct_result H :=
  match type of H with
  | context [mbind _ ?m] =>
      let E := fresh "E" in destruct m as [?|?] eqn:E; [done|]; cbn in H
  | context [match ?m with inl _ => _ | inr _ => _ end] =>
      let E := fresh "E" in destruct m as [?|?] eqn:E; [done|]; cbn in H
  end.

(** One step of a loop in the state monad. *)
Lemma mapM_ST_cons {S A B} (f : A → ST S B) x l (s : S) :
  mapM f (x :: l) s
  = match f x s with
    | (inl e, s') => (inl e, s')
    | (inr y, s') =>
        match mapM f l s' with
        | (inl e, s'') => (inl e, s'')
        | (inr ys, s'') => (inr (y :: ys), s'')
        end
    end.
Proof. reflexivity. Qed.

(** ** The relabeling loop *)

Module RelabelProofs.
Import Relabel.

Lemma masked_add_fill dt vs c :
  fill_mask vs (gt0 vs) (add_scalar dt (getitem_mask vs (gt0 vs)) c)
  = offset_wrapped dt c vs.
Proof.
  unfold gt0, add_scalar, offset_wrapped.
  induction vs as [|v vs IH]; [done|].
  cbn. destruct (0 <? v); cbn; by rewrite IH.
Qed.

Lemma masked_add_spec dt vs c :
  setitem_mask vs (gt0 vs) (add_scalar dt (getitem_mask vs (gt0 vs)) c)
  = inr (offset_wrapped dt c vs).
Proof.
  unfold setitem_mask, add_scalar. rewrite length_fmap.
  rewrite decide_True by done. f_equal. apply masked_add_fill.
Qed.

Lemma loop_body_spec dt i x s a :
  heap s !! x = Some a →
  loop_body dt i x s =
    (let a' := with_data a (offset_wrapped dt (counter s) (data a)) in
     m ← np_max a';
     v ← newaxis_view a';
     _ ← xr_DataArray v mask_dims;
     mret {| heap := <[x := a']> (heap s); counter := wrap dt (counter s + m);
             crops := <[i := DataArrayRef x mask_dims]> (crops s) |}).
Proof.
  intros Hx. unfold loop_body, deref. rewrite Hx. cbn.
  rewrite masked_add_spec. cbn. rewrite lookup_insert_eq. done.
Qed.

Lemma mapM_Forall2_inr {A B} (f : A → result B) xs out :
  Forall2 (λ x d, f x = inr d) xs out → mapM f xs = inr out.
Proof.
  induction 1 as [|x d xs out Hx _ IH]; [done|].
  cbn. rewrite Hx. cbn. rewrite IH. done.
Qed.

Lemma loop_spec dt xs : ∀ i s tiles,
  NoDup xs →
  Forall2 (λ x a, heap s !! x = Some a) xs tiles →
  (i + length xs ≤ length (crops s))%nat →
  match wrapped_fold dt (counter s) tiles with
  | inl e => loop dt i xs s = inl e
  | inr (out, c) =>
      ∃ s', loop dt i xs s = inr s' ∧ counter s' = c ∧
        Forall2 (λ x d, read_crop (heap s') (DataArrayRef x mask_dims) = inr d) xs out ∧
        (∀ j x, xs !! j = Some x →
           crops s' !! (i + j)%nat = Some (DataArrayRef x mask_dims)) ∧
        (∀ k, (k < i)%nat → crops s' !! k = crops s !! k) ∧
        length (crops s') = length (crops s) ∧
        (∀ y, y ∉ xs → heap s' !! y = heap s !! y)
  end.
Proof.
  induction xs as [|x xs IH]; intros i s tiles Hnd Hall Hlen.
  - apply Forall2_nil_inv_l in Hall as ->. cbn.
    exists s. by split_and!.
  - apply Forall2_cons_inv_l in Hall as (a & tiles' & Ha & Hall & ->).
    apply NoDup_cons in Hnd as [Hx Hnd].
    cbn [wrapped_fold loop]. rewrite (loop_body_spec _ _ _ _ _ Ha). cbn zeta.
    destruct (np_max _) as [e|m] eqn:Hm; [done|]. cbn [mbind result_bind].
    destruct (newaxis_view _) as [e|v] eqn:Hv; [done|]. cbn [mbind result_bind].
    destruct (xr_DataArray _ _) as [e|d] eqn:Hd; [done|]. cbn [mbind result_bind mret result_ret].
    set (s1 := {| heap := _; counter := _; crops := _ |}).
    specialize (IH (S i) s1 tiles' Hnd).
    assert (Hall1 : Forall2 (λ x0 a0, heap s1 !! x0 = Some a0) xs tiles').
    { apply Forall2_same_length_lookup.
      apply Forall2_same_length_lookup in Hall as [Hsl Hk]. split; [done|].
      intros j y b Hy Hb. cbn. rewrite lookup_insert_ne; [by eapply Hk|].
      intros ->. apply Hx. by eapply list_elem_of_lookup_2. }
    specialize (IH Hall1).
    assert (Hlen1 : (S i + length xs ≤ length (crops s1))%nat).
    { cbn. rewrite length_insert. cbn in Hlen. lia. }
    specialize (IH Hlen1). change (counter s1) with (wrap dt (counter s + m)) in IH.
    destruct (wrapped_fold dt (wrap dt (counter s + m)) tiles') as [e|[out c]]; [done|].
    destruct IH as (s' & Hloop & Hc & Hout & Hcrops & Hpre & Hl & Hheap).
    exists s'. cbn. split_and!; try done.
    + constructor; [|done]. cbn. unfold deref.
      rewrite (Hheap x Hx). cbn. rewrite lookup_insert_eq. cbn.
      rewrite Hv. cbn. done.
    + intros [|j] y Hj; cbn in Hj.
      * injection Hj as <-. rewrite Nat.add_0_r, (Hpre i) by lia. cbn.
        apply list_lookup_insert_eq. cbn in Hlen. lia.
      * replace (i + S j)%nat with (S i + j)%nat by lia. by apply Hcrops.
    + intros k Hk. rewrite Hpre by lia. cbn. apply list_lookup_insert_ne. lia.
    + rewrite Hl. cbn. apply length_insert.
    + intros y Hy. apply not_elem_of_cons in Hy as [Hyx Hy].
      rewrite Hheap by done. cbn. by apply lookup_insert_ne.
Qed.

Theorem relabel_crops_fold dt tiles :
  relabel_crops dt tiles = wrapped_fold dt 0 tiles.
Proof.
  unfold relabel_crops.
  set (s0 := {| heap := _; counter := _; crops := _ |}).
  pose proof (loop_spec dt (seq 0 (length tiles)) 0 s0 tiles) as H.
  assert (Hall : Forall2 (λ x a, heap s0 !! x = Some a) (seq 0 (length tiles)) tiles).
  { apply Forall2_same_length_lookup. split; [by rewrite length_seq|].
    intros i x a Hx Ha. apply lookup_seq in Hx as [-> _]. cbn.
    by rewrite lookup_map_seq_0. }
  specialize (H (NoDup_seq _ _) Hall).
  assert (Hlen : (0 + length (seq 0 (length tiles)) ≤ length (crops s0))%nat).
  { cbn. by rewrite length_fmap. }
  specialize (H Hlen). change (counter s0) with 0 in H.
  destruct (wrapped_fold dt 0 tiles) as [e|[out c]].
  - rewrite H. done.
  - destruct H as (s' & -> & Hc & Hout & Hcrops & _ & Hl & _). cbn.
    assert (Hcr : crops s' = (λ x, DataArrayRef x mask_dims) <$> seq 0 (length tiles)).
    { apply list_eq. intros j. rewrite list_lookup_fmap.
      destruct (seq 0 (length tiles) !! j) as [x|] eqn:Hj; cbn.
      - by apply (Hcrops j x).
      - apply lookup_ge_None. apply lookup_ge_None in Hj. rewrite Hl. cbn.
        by rewrite length_fmap. }
    rewrite Hcr.
    rewrite (mapM_Forall2_inr _ _ out).
    + cbn. by rewrite Hc.
    + by apply Forall2_fmap_l.
Qed.

Lemma np_max_inv a m :
  np_max a = inr m → m ∈ data a ∧ ∀ v, v ∈ data a → v ≤ m.
Proof.
  unfold np_max. destruct (data a) as [|v vs]; [done|].
  intros [= <-]. induction vs as [|u vs [IHin IHle]]; cbn.
  - split; [left|]. intros w ->%list_elem_of_singleton. lia.
  - split.
    + destruct (Z.max_spec u (foldr Z.max v vs)) as [[_ ->]|[_ ->]].
      * apply elem_of_cons in IHin as [->|Hin]; [left|]. do 2 right. done.
      * right; left.
    + intros w [->|[->|Hw]%elem_of_cons]%elem_of_cons.
      * specialize (IHle v ltac:(left)). lia.
      * lia.
      * specialize (IHle w ltac:(by right)). lia.
Qed.

Lemma np_max_is_inr a : data a ≠ [] → ∃ m, np_max a = inr m.
Proof. unfold np_max. destruct (data a); [done|eauto]. Qed.

Lemma elem_of_offset_positive c vs v :
  v ∈ offset_positive c vs ↔ ∃ u, u ∈ vs ∧ v = if 0 <? u then u + c else u.
Proof.
  unfold offset_positive. rewrite list_elem_of_fmap.
  split; intros (u & H1 & H2); eauto.
Qed.

Lemma dense_nonneg a : dense a = true → nonneg a.
Proof.
  unfold dense, nonneg. intros [H1 _]%andb_prop.
  apply Forall_forall. intros v Hv.
  rewrite forallb_forall in H1. apply Z.leb_le, H1, list_elem_of_In, Hv.
Qed.

Lemma relabel_fold_head_bound a tiles c out d c' :
  0 ≤ c → nonneg a →
  relabel_fold c (a :: tiles) = inr (d :: out, c') →
  ∃ m, 0 ≤ m ∧ relabel_fold (c + m) tiles = inr (out, c') ∧
       ∀ v, v ∈ data (values d) → v ≠ 0 → c < v ≤ c + m.
Proof.
  intros Hc Ha Hrun. cbn in Hrun.
  destruct (np_max _) as [|m] eqn:Hm; [done|]. cbn in Hrun.
  destruct (newaxis_view _) as [|v] eqn:Hv; [done|]. cbn in Hrun.
  destruct (xr_DataArray _ _) as [|d0] eqn:Hd; [done|]. cbn in Hrun.
  destruct (relabel_fold _ _) as [|[out' c'']] eqn:Hrest; [done|].
  cbn in Hrun. injection Hrun as <- <- <-.
  apply np_max_inv in Hm as [Hmin Hmle]. cbn in Hmin, Hmle.
  unfold nonneg in Ha. rewrite Forall_forall in Ha.
  assert (Hm0 : 0 ≤ m).
  { apply elem_of_offset_positive in Hmin as (u & Hu & ->).
    specialize (Ha u Hu). destruct (0 <? u); lia. }
  exists m. split_and!; [done|done|].
  intros w Hw Hw0.
  unfold xr_DataArray in Hd. case_decide; [|done]. injection Hd as <-.
  unfold newaxis_view in Hv. case_decide; [done|]. injection Hv as <-.
  cbn in Hw. specialize (Hmle w Hw).
  apply elem_of_offset_positive in Hw as (u & Hu & ->).
  specialize (Ha u Hu).
  destruct (0 <? u) eqn:Hu0; [apply Z.ltb_lt in Hu0|apply Z.ltb_ge in Hu0]; lia.
Qed.

(** Labels written for a tile lie strictly above the counter at its entry and
    at most at the counter at the end. *)
Lemma relabel_fold_bounds tiles : ∀ c out c',
  0 ≤ c → Forall nonneg tiles →
  relabel_fold c tiles = inr (out, c') →
  c ≤ c' ∧ Forall (λ d, ∀ v, v ∈ data (values d) → v ≠ 0 → c < v ≤ c') out.
Proof.
  induction tiles as [|a tiles IH]; intros c out c' Hc Hnn Hrun.
  - injection Hrun as <- <-. split; [lia|constructor].
  - apply Forall_cons in Hnn as [Ha Hnn].
    assert (∃ d out', out = d :: out') as (d & out' & ->).
    { cbn in Hrun. repeat (destruct_result Hrun). injection Hrun as <- <-. eauto. }
    destruct (relabel_fold_head_bound _ _ _ _ _ _ Hc Ha Hrun) as (m & Hm & Hrest & Hd).
    destruct (IH (c + m) out' c' ltac:(lia) Hnn Hrest) as [Hle Hall].
    split; [lia|]. constructor.
    + intros w Hw Hw0. specialize (Hd w Hw Hw0). lia.
    + eapply Forall_impl; [exact Hall|]. cbn. intros d' Hd' w Hw Hw0.
      specialize (Hd' w Hw Hw0). lia.
Qed.

Lemma relabel_fold_disjoint tiles : ∀ c out c' i j di dj v,
  0 ≤ c → Forall nonneg tiles →
  relabel_fold c tiles = inr (out, c') →
  i ≠ j → out !! i = Some di → out !! j = Some dj →
  v ≠ 0 → v ∈ data (values di) → v ∈ data (values dj) → False.
Proof.
  assert (Hlt : ∀ tiles c out c' i j di dj v,
    0 ≤ c → Forall nonneg tiles → relabel_fold c tiles = inr (out, c') →
    (i < j)%nat → out !! i = Some di → out !! j = Some dj →
    v ≠ 0 → v ∈ data (values di) → v ∈ data (values dj) → False).
  { clear. induction tiles as [|a tiles IH];
      intros c out c' i j di dj v Hc Hnn Hrun Hij Hi Hj Hv Hvi Hvj.
    - injection Hrun as <- <-. done.
    - apply Forall_cons in Hnn as [Ha Hnn].
      destruct out as [|d out']; [done|].
      destruct (relabel_fold_head_bound _ _ _ _ _ _ Hc Ha Hrun) as (m & Hm & Hrest & Hd).
      destruct j as [|j]; [lia|]. cbn in Hj.
      destruct i as [|i]; cbn in Hi.
      + injection Hi as <-.
        destruct (relabel_fold_bounds tiles (c + m) out' c' ltac:(lia) Hnn Hrest)
          as [_ Hall].
        rewrite Forall_forall in Hall.
        specialize (Hall dj ltac:(by eapply list_elem_of_lookup_2) v Hvj Hv).
        specialize (Hd v Hvi Hv). lia.
      + eapply (IH (c + m) out' c' i j); eauto with lia. }
  intros c out c' i j di dj v Hc Hnn Hrun Hij Hi Hj Hv Hvi Hvj.
  destruct (decide (i < j)%nat).
  - eapply (Hlt tiles c out c' i j); eauto.
  - eapply (Hlt tiles c out c' j i); eauto with lia.
Qed.

Lemma relabel_fold_total tiles : ∀ c,
  Forall (λ a, ndim a = 2%nat ∧ data a ≠ []) tiles →
  ∃ out c', relabel_fold c tiles = inr (out, c') ∧ length out = length tiles.
Proof.
  induction tiles as [|a tiles IH]; intros c Hall.
  - by exists [], c.
  - apply Forall_cons in Hall as [[Hnd Hne] Hall].
    cbn [relabel_fold].
    destruct (np_max_is_inr (with_data a (offset_positive c (data a)))) as [m ->].
    { cbn. unfold offset_positive. destruct (data a); done. }
    cbn. unfold newaxis_view. rewrite decide_False by (cbn; unfold ndim in *; cbn; lia).
    cbn. unfold xr_DataArray. rewrite decide_True by (unfold ndim in *; cbn; lia).
    cbn. destruct (IH (c + m) Hall) as (out & c' & -> & Hlen).
    cbn. do 2 eexists. split; [done|]. cbn. by rewrite Hlen.
Qed.

(** The mechanism behind the counter: [np.max(x)] reads the array after the
    masked assignment went through the alias [crop_new], so for a tile with a
    positive label it returns the local maximum plus the counter. *)
Lemma np_max_after_offset a c m :
  0 ≤ c → np_max a = inr m → 0 < m →
  np_max (with_data a (offset_positive c (data a))) = inr (m + c).
Proof.
  intros Hc Hm Hpos. pose proof (np_max_inv _ _ Hm) as [Hin Hle].
  destruct (np_max_is_inr (with_data a (offset_positive c (data a)))) as [m' Hm'].
  { cbn. unfold offset_positive. intros Hnil%fmap_nil_inv.
    rewrite Hnil in Hin. by apply elem_of_nil in Hin. }
  rewrite Hm'. f_equal.
  apply np_max_inv in Hm' as [Hin' Hle']. cbn in Hin', Hle'.
  apply elem_of_offset_positive in Hin' as (u & Hu & ->).
  specialize (Hle' (m + c)).
  assert (m + c ∈ offset_positive c (data a)) as Hmc.
  { apply elem_of_offset_positive. exists m. split; [done|].
    by rewrite (proj2 (Z.ltb_lt 0 m) Hpos). }
  specialize (Hle' Hmc). specialize (Hle u Hu).
  destruct (0 <? u) eqn:Hu0; [apply Z.ltb_lt in Hu0|apply Z.ltb_ge in Hu0]; lia.
Qed.

(** *** Wrap-around and exact arithmetic *)

Lemma max_value_ge dt : 127 ≤ max_value dt.
Proof. by destruct dt. Qed.

Lemma min_value_le dt : min_value dt ≤ 0.
Proof. by destruct dt. Qed.

Lemma wrap_in_range dt z : min_value dt ≤ z ≤ max_value dt → wrap dt z = z.
Proof.
  unfold wrap. intros Hz.
  assert (max_value dt - min_value dt + 1 = 2 ^ bits dt) by (by destruct dt).
  rewrite Z.mod_small; lia.
Qed.

Lemma offset_wrapped_exact dt c vs :
  Forall (λ v, 0 < v → 0 ≤ v + c ≤ max_value dt) vs →
  offset_wrapped dt c vs = offset_positive c vs.
Proof.
  unfold offset_wrapped, offset_positive. intros Hvs.
  apply list_fmap_ext. intros i v Hv. rewrite Forall_forall in Hvs.
  destruct (Z.ltb_spec 0 v) as [Hpos|]; [|done].
  apply wrap_in_range. pose proof (min_value_le dt).
  specialize (Hvs v ltac:(by eapply list_elem_of_lookup_2) Hpos). lia.
Qed.

(** As long as the counter of the run in exact arithmetic stays in the range
    of the type, no sum wraps around and the loop computes that run. *)
Lemma wrapped_fold_exact dt tiles : ∀ c out c',
  0 ≤ c → Forall nonneg tiles →
  relabel_fold c tiles = inr (out, c') → c' ≤ max_value dt →
  wrapped_fold dt c tiles = inr (out, c').
Proof.
  induction tiles as [|a tiles IH]; intros c out c' Hc Hnn Hrun Hmax; [done|].
  apply Forall_cons in Hnn as [Ha Hnn].
  assert (∃ d out', out = d :: out') as (d & out' & ->).
  { cbn in Hrun. repeat (destruct_result Hrun). injection Hrun as <- <-. eauto. }
  destruct (relabel_fold_head_bound _ _ _ _ _ _ Hc Ha Hrun) as (m0 & Hm0 & Hrest0 & Hd).
  destruct (relabel_fold_bounds tiles (c + m0) out' c' ltac:(lia) Hnn Hrest0)
    as [Hle _].
  cbn [relabel_fold] in Hrun. cbn [wrapped_fold].
  rewrite (offset_wrapped_exact dt c (data a)).
  - destruct (np_max _) as [|m] eqn:Hm; [done|]. cbn [mbind result_bind] in Hrun |- *.
    destruct (newaxis_view _) as [|v] eqn:Hv; [done|].
    cbn [mbind result_bind] in Hrun |- *.
    destruct (xr_DataArray _ _) as [|d0] eqn:Hd0; [done|].
    cbn [mbind result_bind] in Hrun |- *.
    destruct (relabel_fold (c + m) tiles) as [|[out'' c'']] eqn:Hrest; [done|].
    cbn in Hrun. injection Hrun as <- <- <-.
    assert (Hm' : 0 ≤ m).
    { apply np_max_inv in Hm as [Hin _]. cbn in Hin.
      apply elem_of_offset_positive in Hin as (u & Hu & ->).
      unfold nonneg in Ha. rewrite Forall_forall in Ha. specialize (Ha u Hu).
      destruct (0 <? u); lia. }
    destruct (relabel_fold_bounds tiles (c + m) out'' c'' ltac:(lia) Hnn Hrest)
      as [Hle' _].
    pose proof (min_value_le dt).
    rewrite wrap_in_range by lia.
    by rewrite (IH (c + m) out'' c'' ltac:(lia) Hnn Hrest Hmax).
  - apply Forall_forall. intros v Hv Hpos.
    assert (v + c ∈ data (values d)) as Hin.
    { cbn in Hrun. repeat (destruct_result Hrun). injection Hrun as <- _ _.
      unfold xr_DataArray in E1. case_decide; [|done]. injection E1 as <-.
      unfold newaxis_view in E0. case_decide; [done|]. injection E0 as <-.
      cbn. apply elem_of_offset_positive. exists v. split; [done|].
      by rewrite (proj2 (Z.ltb_lt 0 v) Hpos). }
    specialize (Hd (v + c) Hin ltac:(lia)). lia.
Qed.

(** C1 (the code departs from the claim).  On the three tiles with local
    labels 1..2, 1 and 1 the loop of [segment] leaves the labels 1..2, 3 and 6
    and the counter 11, whatever the integer type of the masks: after the
    second tile the counter is 5, not 3, because it was increased by the
    maximum of the already offset tile.  The scheme of the claim, which adds
    the local maximum taken before the offset, gives the labels 1..2, 3 and 4
    and the counter 4. *)
Theorem relabel_counter_failing_input (dt : dtype) :
  relabel_crops dt Examples.three_tiles
    = inr ([Examples.mask_array 1 2 [1; 2]; Examples.mask_array 1 1 [3];
            Examples.mask_array 1 1 [6]], 11)
  ∧ running_total_scheme 0 Examples.three_tiles
    = inr ([Examples.tile 1 2 [1; 2]; Examples.tile 1 1 [3];
            Examples.tile 1 1 [4]], 4).
Proof. split; [destruct dt|]; vm_compute; reflexivity. Qed.

(** C2 (the code departs from the claim).  The sums of the loop are
    fixed-width and wrap around, so dense local labels do not keep the
    relabeled tiles apart.  Two masks of type [uint8], the first with the
    labels 1 to 255 and the second with the labels 1 and 2: the second tile
    gets the labels 0 and 1, so its first segment is turned into background
    and its second segment shares the label 1 with a segment of the first
    tile; the counter ends at 0.  Thirty-three masks of type [int32] with the
    labels 1 and 2 each: the counter doubles with every tile and leaves the
    range at the 31st, and the last two tiles share the label -2. *)
Theorem relabel_labels_collide :
  Forall (λ a, dense a = true) MoreExamples.uint8_tiles
  ∧ relabel_crops uint8 MoreExamples.uint8_tiles
    = inr ([Examples.mask_array 1 255 (seqZ 1 255); Examples.mask_array 1 2 [0; 1]], 0)
  ∧ Forall (λ a, dense a = true) MoreExamples.int32_tiles
  ∧ ∃ out c, relabel_crops int32 MoreExamples.int32_tiles = inr (out, c)
             ∧ out !! 31%nat = Some (Examples.mask_array 1 2 [-2; -1])
             ∧ out !! 32%nat = Some (Examples.mask_array 1 2 [-3; -2]).
Proof.
  split_and!.
  - repeat constructor.
  - vm_compute. reflexivity.
  - repeat constructor.
  - eexists _, _. split_and!; vm_compute; reflexivity.
Qed.

End RelabelProofs.

(** ** Relabel and merge on the scenario of two tiles *)

Module MergeProofs.
Import Relabel RelabelProofs.

Lemma offset_positive_0 vs : offset_positive 0 vs = vs.
Proof.
  unfold offset_positive. induction vs as [|v vs IH]; [done|].
  cbn. rewrite IH. destruct (0 <? v); f_equal; lia.
Qed.

Lemma np_max_of_set a (X : gset Z) m :
  list_to_set (data a) = X → m ∈ X → (∀ v, v ∈ X → v ≤ m) → np_max a = inr m.
Proof.
  intros HX Hm Hle.
  destruct (np_max_is_inr a) as [m' Hm'].
  { intros Hnil. rewrite Hnil in HX. cbn in HX. set_solver. }
  rewrite Hm'. f_equal. apply np_max_inv in Hm' as [Hin Hmax].
  assert (m' ∈ X) by (rewrite <- HX; by apply elem_of_list_to_set).
  assert (m ∈ data a) by (apply (elem_of_list_to_set (C:=gset Z)); by rewrite HX).
  specialize (Hle m' ltac:(done)). specialize (Hmax m ltac:(done)). lia.
Qed.

Lemma divmod_rc (W r c : nat) :
  (c < W)%nat → ((r * W + c) / W = r)%nat ∧ ((r * W + c) `mod` W = c)%nat.
Proof.
  intros Hc. split.
  - symmetry. apply (Nat.div_unique _ _ _ c); lia.
  - symmetry. apply (Nat.mod_unique _ _ r); lia.
Qed.

Lemma paste_lookup W tile x0 y0 cv q c h w :
  shape (values tile) = [c; h; w] →
  SpecOps.paste W tile x0 y0 cv !! q =
    (λ v, if bool_decide (y0 ≤ q / W < y0 + h ∧ x0 ≤ q `mod` W < x0 + w)%nat
          then default v (data (values tile)
                          !! ((q / W - y0) * w + (q `mod` W - x0))%nat)
          else v) <$> cv !! q.
Proof. intros Hsh. unfold SpecOps.paste. rewrite Hsh. apply list_lookup_imap. Qed.

Lemma second_tile_labels (vs : list Z) :
  list_to_set vs = ({[0; 1]} : gset Z) →
  list_to_set ((λ v, if decide (v = 1) then 3 else v) <$> vs) = ({[0; 3]} : gset Z).
Proof.
  intros Hl. apply set_eq. intros v. rewrite elem_of_list_to_set, list_elem_of_fmap.
  split.
  - intros (u & -> & Hu). apply (elem_of_list_to_set (C:=gset Z)) in Hu.
    rewrite Hl in Hu. assert (u = 0 ∨ u = 1) as [-> | ->] by set_solver;
      cbn; set_solver.
  - intros Hv. assert (v = 0 ∨ v = 3) as [-> | ->] by set_solver.
    + exists 0. split; [done|]. apply (elem_of_list_to_set (C:=gset Z)).
      rewrite Hl. set_solver.
    + exists 1. split; [done|]. apply (elem_of_list_to_set (C:=gset Z)).
      rewrite Hl. set_solver.
Qed.

Lemma nonneg_of_set a (X : gset Z) :
  list_to_set (data a) = X → (∀ v, v ∈ X → 0 ≤ v) → nonneg a.
Proof.
  intros HX Hpos. apply Forall_forall. intros v Hv. apply Hpos.
  rewrite <- HX. by apply elem_of_list_to_set.
Qed.

Lemma relabel_two_tiles dt (t1 t2 : ndarray) :
  shape t1 = [10; 10]%nat → shape t2 = [10; 10]%nat →
  list_to_set (data t1) = ({[0; 1; 2]} : gset Z) →
  list_to_set (data t2) = ({[0; 1]} : gset Z) →
  relabel_crops dt [t1; t2] =
    inr ([Examples.mask_array 10 10 (data t1);
          Examples.mask_array 10 10
            ((λ v, if decide (v = 1) then 3 else v) <$> data t2)], 5).
Proof.
  intros Hs1 Hs2 Hl1 Hl2. rewrite relabel_crops_fold.
  apply wrapped_fold_exact; [lia| | |pose proof (max_value_ge dt); lia].
  { repeat constructor.
    - apply (nonneg_of_set t1 _ Hl1). set_solver by lia.
    - apply (nonneg_of_set t2 _ Hl2). set_solver by lia. }
  assert (Hoff : offset_positive 2 (data t2)
                 = (λ v, if decide (v = 1) then 3 else v) <$> data t2).
  { unfold offset_positive. apply list_fmap_ext. intros i v Hv.
    assert (v ∈ ({[0; 1]} : gset Z)) as Hin.
    { rewrite <- Hl2. apply elem_of_list_to_set. by eapply list_elem_of_lookup_2. }
    assert (v = 0 ∨ v = 1) as [-> | ->] by set_solver; done. }
  cbn [relabel_fold]. rewrite offset_positive_0.
  replace (with_data t1 (data t1)) with t1 by (by destruct t1).
  rewrite (np_max_of_set t1 {[0; 1; 2]} 2 Hl1) by set_solver by lia.
  cbn [mbind result_bind mret result_ret fst snd].
  unfold newaxis_view, xr_DataArray, ndim. rewrite Hs1.
  change (0 + 2) with 2. rewrite Hoff. cbn [shape with_data]. rewrite Hs2.
  rewrite (np_max_of_set _ {[0; 3]} 3).
  - done.
  - by apply second_tile_labels.
  - set_solver.
  - set_solver by lia.
Qed.

Lemma merged_lookup (v1 v2 : list Z) r c :
  length v1 = 100%nat → length v2 = 100%nat → (r < 10)%nat → (c < 20)%nat →
  foldl (λ cv (t : DataArray * nat * nat), SpecOps.paste 20 t.1.1 t.1.2 t.2 cv)
        (replicate (10 * 20) 0)
        (zip (zip [Examples.mask_array 10 10 v1; Examples.mask_array 10 10 v2]
                  [0; 10]%nat) [0; 0]%nat)
    !! (r * 20 + c)%nat
  = if decide (c < 10)%nat then v1 !! (r * 10 + c)%nat
    else v2 !! (r * 10 + (c - 10))%nat.
Proof.
  intros Hl1 Hl2 Hr Hc. cbn [zip zip_with foldl fst snd].
  erewrite !paste_lookup by reflexivity.
  destruct (divmod_rc 20 r c Hc) as [-> ->].
  rewrite lookup_replicate_2 by lia. cbn [fmap option_fmap option_map].
  cbn [Examples.mask_array values data].
  destruct (decide (c < 10)%nat) as [Hc10|Hc10].
  - rewrite (bool_decide_eq_true_2 (0 ≤ r < 0 + 10 ∧ 0 ≤ c < 0 + 10)%nat) by lia.
    rewrite (bool_decide_eq_false_2 (0 ≤ r < 0 + 10 ∧ 10 ≤ c < 10 + 10)%nat) by lia.
    rewrite !Nat.sub_0_r.
    destruct (lookup_lt_is_Some_2 v1 (r * 10 + c)%nat ltac:(lia)) as [x ->]. done.
  - rewrite (bool_decide_eq_false_2 (0 ≤ r < 0 + 10 ∧ 0 ≤ c < 0 + 10)%nat) by lia.
    rewrite (bool_decide_eq_true_2 (0 ≤ r < 0 + 10 ∧ 10 ≤ c < 10 + 10)%nat) by lia.
    rewrite !Nat.sub_0_r.
    destruct (lookup_lt_is_Some_2 v2 (r * 10 + (c - 10))%nat ltac:(lia)) as [x ->].
    done.
Qed.

Lemma merged_length (crops : list (DataArray * nat * nat)) : ∀ cv,
  length (foldl (λ cv (t : DataArray * nat * nat), SpecOps.paste 20 t.1.1 t.1.2 t.2 cv)
            cv crops) = length cv.
Proof.
  induction crops as [|t crops IH]; intros cv; [done|].
  cbn. rewrite IH. unfold SpecOps.paste.
  repeat case_match; try done. apply length_imap.
Qed.

Lemma merged_elements (v1 v2 : list Z) (v : Z) :
  length v1 = 100%nat → length v2 = 100%nat →
  v ∈ foldl (λ cv (t : DataArray * nat * nat), SpecOps.paste 20 t.1.1 t.1.2 t.2 cv)
        (replicate (10 * 20) 0)
        (zip (zip [Examples.mask_array 10 10 v1; Examples.mask_array 10 10 v2]
                  [0; 10]%nat) [0; 0]%nat)
  ↔ v ∈ v1 ∨ v ∈ v2.
Proof.
  intros Hl1 Hl2. split.
  - intros (q & Hq)%list_elem_of_lookup_1.
    pose proof (lookup_lt_Some _ _ _ Hq) as Hlt.
    rewrite merged_length, length_replicate in Hlt.
    rewrite (Nat.div_mod_eq q 20), (Nat.mul_comm 20) in Hq.
    rewrite merged_lookup in Hq; [|done|done| |].
    + case_decide; [left|right]; by eapply list_elem_of_lookup_2.
    + apply Nat.Div0.div_lt_upper_bound. lia.
    + apply Nat.mod_upper_bound. lia.
  - intros [(j & Hj)%list_elem_of_lookup_1 | (j & Hj)%list_elem_of_lookup_1];
      pose proof (lookup_lt_Some _ _ _ Hj) as Hlt;
      assert (j / 10 < 10)%nat by (apply Nat.Div0.div_lt_upper_bound; lia);
      assert (j `mod` 10 < 10)%nat by (apply Nat.mod_upper_bound; lia);
      pose proof (Nat.div_mod_eq j 10) as Hdm.
    + apply (list_elem_of_lookup_2 _ ((j / 10) * 20 + j `mod` 10)%nat).
      rewrite merged_lookup by (done || lia).
      rewrite decide_True by lia. rewrite <- Hj. f_equal. lia.
    + apply (list_elem_of_lookup_2 _ ((j / 10) * 20 + (10 + j `mod` 10))%nat).
      rewrite merged_lookup by (done || lia).
      rewrite decide_False by lia. rewrite <- Hj. f_equal. lia.
Qed.

(** C3.  A 20 by 10 image in two 10 by 10 tiles at x offsets 0 and 10, the
    first mask with the labels 0, 1, 2 and the second with 0, 1: the first
    tile keeps its labels 1 and 2, label 1 of the second tile becomes 3, and
    the merged mask holds exactly the labels 0, 1, 2, 3, each tile's labels
    at the tile's offset.  The merge is [uncrop_img] as the specification
    describes it. *)
Theorem segment_two_tiles_scenario `{ext : Externals} (t1 t2 : ndarray) (w : world) :
  shape t1 = [10; 10]%nat → shape t2 = [10; 10]%nat →
  wf_array t1 → wf_array t2 →
  list_to_set (data t1) = ({[0; 1; 2]} : gset Z) →
  list_to_set (data t2) = ({[0; 1]} : gset Z) →
  let d1 := Examples.mask_array 10 10 (data t1) in
  let d2 := Examples.mask_array 10 10
              ((λ v, if decide (v = 1) then 3 else v) <$> data t2) in
  relabel_crops mask_dtype [t1; t2] = inr ([d1; d2], 5)
  ∧ list_to_set (data (values d1)) ∖ {[0]} = ({[1; 2]} : gset Z)
  ∧ list_to_set (data (values d2)) ∖ {[0]} = ({[3]} : gset Z)
  ∧ ∃ merged,
      relabel_and_merge (ops := SpecOps.spec_ops) [t1; t2] [0; 10]%nat [0; 0]%nat
        (10, 20)%nat "mask" w
      = (inr merged,
         {| container := container w; trace := trace w ++ [EvUncrop [d1; d2]] |})
      ∧ shape (values merged) = [1; 10; 20]%nat
      ∧ list_to_set (data (values merged)) = ({[0; 1; 2; 3]} : gset Z)
      ∧ ∀ r c, (r < 10)%nat → (c < 10)%nat →
          data (values merged) !! (r * 20 + c)%nat
            = data (values d1) !! (r * 10 + c)%nat
          ∧ data (values merged) !! (r * 20 + (10 + c))%nat
            = data (values d2) !! (r * 10 + c)%nat.
Proof.
  intros Hs1 Hs2 Hw1 Hw2 Hl1 Hl2 d1 d2. subst d1 d2.
  pose proof (relabel_two_tiles mask_dtype t1 t2 Hs1 Hs2 Hl1 Hl2) as Hrel.
  pose proof (second_tile_labels _ Hl2) as Hl2'.
  assert (Hlen1 : length (data t1) = 100%nat).
  { unfold wf_array in Hw1. by rewrite Hw1, Hs1. }
  assert (Hlen2 : length ((λ v, if decide (v = 1) then 3 else v) <$> data t2) = 100%nat).
  { rewrite length_fmap. unfold wf_array in Hw2. by rewrite Hw2, Hs2. }
  split_and!; [done| | |].
  - cbn. rewrite Hl1. set_solver.
  - cbn. rewrite Hl2'. set_solver.
  - eexists. split_and!.
    + unfold relabel_and_merge. rewrite Hrel. reflexivity.
    + reflexivity.
    + cbn [values data fst]. apply set_eq. intros v.
      rewrite elem_of_list_to_set.
      rewrite (merged_elements _ _ v Hlen1 Hlen2).
      rewrite <- !(elem_of_list_to_set (C:=gset Z)), Hl1, Hl2'. set_solver.
    + intros r c Hr Hc. cbn [values data fst]. split.
      * rewrite (merged_lookup _ _ r c Hlen1 Hlen2) by lia.
        by rewrite decide_True by lia.
      * rewrite (merged_lookup _ _ r (10 + c) Hlen1 Hlen2) by lia.
        rewrite decide_False by lia. f_equal. lia.
Qed.

Lemma segment_two_tiles_scenario_witness :
  (shape Examples.scenario_tile1 = [10; 10]%nat
   ∧ shape Examples.scenario_tile2 = [10; 10]%nat
   ∧ wf_array Examples.scenario_tile1 ∧ wf_array Examples.scenario_tile2
   ∧ list_to_set (data Examples.scenario_tile1) = ({[0; 1; 2]} : gset Z)
   ∧ list_to_set (data Examples.scenario_tile2) = ({[0; 1]} : gset Z))
  ∧ relabel_crops int32 [Examples.scenario_tile1; Examples.scenario_tile2]
    = inr ([Examples.mask_array 10 10 (data Examples.scenario_tile1);
            Examples.mask_array 10 10
              ((λ v, if decide (v = 1) then 3 else v)
                 <$> data Examples.scenario_tile2)], 5).
Proof.
  assert (H1 : shape Examples.scenario_tile1 = [10; 10]%nat) by reflexivity.
  assert (H2 : shape Examples.scenario_tile2 = [10; 10]%nat) by reflexivity.
  assert (H3 : wf_array Examples.scenario_tile1) by reflexivity.
  assert (H4 : wf_array Examples.scenario_tile2) by reflexivity.
  assert (H5 : list_to_set (data Examples.scenario_tile1) = ({[0; 1; 2]} : gset Z))
    by (vm_compute; reflexivity).
  assert (H6 : list_to_set (data Examples.scenario_tile2) = ({[0; 1]} : gset Z))
    by (vm_compute; reflexivity).
  split; [by repeat split|].
  exact (proj1 (segment_two_tiles_scenario (ext := Examples.demo_externals) _ _
                  Examples.empty_world H1 H2 H3 H4 H5 H6)).
Defined.

End MergeProofs.

(** ** Dispatch, failure and channel selection in [segment] *)

Module SegmentProofs.

Lemma unravel_lookup_lt sh : ∀ p ax d,
  (p < size_of sh)%nat → sh !! ax = Some d →
  ∃ k, unravel sh p !! ax = Some k ∧ (k < d)%nat.
Proof.
  induction sh as [|d0 sh IH]; intros p ax d Hp Hax; [done|].
  cbn [size_of foldr] in Hp. fold (size_of sh) in Hp.
  assert (0 < size_of sh)%nat by nia.
  destruct ax as [|ax]; cbn in Hax |- *.
  - injection Hax as <-. eexists. split; [done|].
    apply Nat.Div0.div_lt_upper_bound. lia.
  - apply IH; [|done]. apply Nat.mod_upper_bound. lia.
Qed.

(** Selection over positions starting at [a]. *)
Lemma select_positions_app {A} (f : nat * A → option A) a (v1 v2 : list A) :
  omap f (zip (seq a (length (v1 ++ v2))) (v1 ++ v2))
  = omap f (zip (seq a (length v1)) v1)
    ++ omap f (zip (seq (a + length v1) (length v2)) v2).
Proof.
  rewrite length_app, seq_app.
  rewrite (zip_with_app pair (seq a (length v1)) _ v1 v2) by (by rewrite length_seq).
  apply omap_app.
Qed.

Lemma select_positions_all (keep : nat → bool) (vs : list Z) : ∀ a,
  (∀ p, (a ≤ p < a + length vs)%nat → keep p = true) →
  omap (λ pv : nat * Z, if keep pv.1 then Some pv.2 else None)
       (zip (seq a (length vs)) vs) = vs.
Proof.
  induction vs as [|v vs IH]; intros a Hk; [done|].
  cbn. rewrite Hk by (cbn; lia). cbn. f_equal. apply IH.
  intros p Hp. apply Hk. cbn. lia.
Qed.

Lemma select_positions_none (keep : nat → bool) (vs : list Z) : ∀ a,
  (∀ p, (a ≤ p < a + length vs)%nat → keep p = false) →
  omap (λ pv : nat * Z, if keep pv.1 then Some pv.2 else None)
       (zip (seq a (length vs)) vs) = [].
Proof.
  induction vs as [|v vs IH]; intros a Hk; [done|].
  cbn. rewrite Hk by (cbn; lia). cbn. apply IH.
  intros p Hp. apply Hk. cbn. lia.
Qed.

Lemma select_data_all sh keep vs :
  (∀ p, (p < length vs)%nat → keep (unravel sh p) = true) →
  select_data sh keep vs = vs.
Proof.
  intros Hk. unfold select_data.
  apply (select_positions_all (λ p, keep (unravel sh p)) vs 0%nat).
  intros p Hp. apply Hk. lia.
Qed.

(** The positions [k * n .. k * n + n) of an array are its [k]-th block. *)
Lemma select_data_block sh keep vs (k n : nat) :
  (k * n + n ≤ length vs)%nat →
  (∀ p, (p < length vs)%nat →
        keep (unravel sh p) = bool_decide (k * n ≤ p < k * n + n)%nat) →
  select_data sh keep vs = take n (drop (k * n) vs).
Proof.
  intros Hlen Hk. unfold select_data.
  rewrite <- (take_drop (k * n) vs) at 1 2.
  rewrite (select_positions_app
             (λ pv : nat * Z, if keep (unravel sh pv.1) then Some pv.2 else None)).
  rewrite (select_positions_none (λ p, keep (unravel sh p))).
  2:{ intros p Hp. rewrite length_take in Hp. rewrite Hk by lia.
      apply bool_decide_eq_false_2. lia. }
  cbn [app]. rewrite length_take, Nat.min_l by lia.
  rewrite <- (take_drop n (drop (k * n) vs)) at 1 2.
  rewrite (select_positions_app
             (λ pv : nat * Z, if keep (unravel sh pv.1) then Some pv.2 else None)).
  rewrite (select_positions_all (λ p, keep (unravel sh p))).
  2:{ intros p Hp. rewrite length_take, length_drop in Hp. rewrite Hk by lia.
      apply bool_decide_eq_true_2. lia. }
  rewrite (select_positions_none (λ p, keep (unravel sh p))).
  2:{ intros p Hp. rewrite length_take, !length_drop in Hp. rewrite Hk by lia.
      apply bool_decide_eq_false_2. lia. }
  by rewrite app_nil_r.
Qed.

Lemma axis_of_lt ds name p : axis_of ds name = Some p → (p < length ds)%nat.
Proof.
  unfold axis_of. destruct (list_find _ ds) as [[i d]|] eqn:Hf; [|done].
  intros [= <-]. apply list_find_Some in Hf as (Hi & _). by eapply lookup_lt_Some.
Qed.

(** [slice(0, n)] over a dimension of length at most [n] selects everything. *)
Lemma backend_input_slice_all x n p d :
  wf_DataArray x →
  axis_of (dims x) "channels" = Some p →
  shape (values x) !! p = Some d → (d ≤ n)%nat →
  backend_input (Slice 0 n) x = inr (values x).
Proof.
  intros [Hdims Hwf] Hax Hd Hn. unfold backend_input, isel. rewrite Hax, Hd.
  cbn. f_equal. destruct (values x) as [sh vs] eqn:Hv. cbn in *. f_equal.
  - rewrite Nat.min_r, Nat.sub_0_r by done. by apply list_insert_id.
  - apply (select_data_all sh
             (λ idx, match idx !! p with
                     | Some k => bool_decide (0 ≤ k < n)%nat
                     | None => false
                     end)).
    intros q Hq. unfold wf_array in Hwf. cbn [data shape] in Hwf.
    destruct (unravel_lookup_lt sh q p d ltac:(lia) Hd) as (k & -> & Hk).
    apply bool_decide_eq_true_2. lia.
Qed.

Lemma axis_of_head name ds : axis_of (name :: ds) name = Some 0%nat.
Proof. unfold axis_of. cbn. by rewrite decide_True. Qed.

(** An integer index on the leading dimension selects one block. *)
Lemma backend_input_int_plane x (k : Z) (c : nat) (rest : list nat) ds :
  dims x = "channels" :: ds →
  shape (values x) = c :: rest → wf_array (values x) →
  - Z.of_nat c ≤ k < Z.of_nat c →
  backend_input (IntIndex k) x
  = inr {| shape := rest;
           data := take (size_of rest)
                     (drop (Z.to_nat (if k <? 0 then k + Z.of_nat c else k) * size_of rest)
                           (data (values x))) |}.
Proof.
  intros Hdims Hsh Hwf Hk. unfold backend_input, isel.
  rewrite Hdims, axis_of_head, Hsh.
  cbn [lookup list_lookup default from_option id].
  rewrite decide_True by done. cbn. f_equal. f_equal.
  set (k' := Z.to_nat (if k <? 0 then k + Z.of_nat c else k)).
  assert (k' < c)%nat by (subst k'; destruct (k <? 0) eqn:E; lia).
  unfold wf_array in Hwf. rewrite Hsh in Hwf. cbn [size_of foldr] in Hwf.
  fold (size_of rest) in Hwf.
  apply (select_data_block (c :: rest)
           (λ idx, bool_decide (idx !! 0%nat = Some k'))); [nia|].
  intros q Hq. cbn.
  assert (0 < size_of rest)%nat by nia.
  apply bool_decide_ext. split.
  - intros [= <-]. split.
    + rewrite Nat.mul_comm. apply Nat.Div0.mul_div_le.
    + pose proof (Nat.div_mod_eq q (size_of rest)).
      pose proof (Nat.mod_upper_bound q (size_of rest)). lia.
  - intros [H1 H2]. f_equal. symmetry.
    apply (Nat.div_unique _ _ _ (q - k' * size_of rest)); lia.
Qed.

Section dispatch.
Context `{ext : Externals} `{ops : ContainerOps}.

Lemma add_events_nil w : add_events w [] = w.
Proof. destruct w. unfold add_events. cbn. by rewrite app_nil_r. Qed.

Lemma add_events_app w e1 e2 :
  add_events (add_events w e1) e2 = add_events w (e1 ++ e2).
Proof. unfold add_events. cbn. by rewrite app_assoc. Qed.

Lemma tile_step_ok sl sm kw x arr m w :
  backend_input sl x = inr arr → Backend.segment sm arr kw = inr m →
  tile_step sl sm kw x w = (inr m, add_events w [EvBackend arr]).
Proof.
  intros Ha Hm. unfold tile_step, mbind, ST_bind, lift, emit. by rewrite Ha, Hm.
Qed.

Lemma tile_step_backend_raises sl sm kw x arr e w :
  backend_input sl x = inr arr → Backend.segment sm arr kw = inl e →
  tile_step sl sm kw x w = (inl e, add_events w [EvBackend arr]).
Proof.
  intros Ha Hm. unfold tile_step, mbind, ST_bind, lift, emit. by rewrite Ha, Hm.
Qed.

Lemma mapM_tiles_ok sl sm kw pre arrs masks : ∀ w,
  Forall2 (λ y a, backend_input sl y = inr a) pre arrs →
  Forall2 (λ a m, Backend.segment sm a kw = inr m) arrs masks →
  mapM (tile_step sl sm kw) pre w = (inr masks, add_events w (EvBackend <$> arrs)).
Proof.
  intros w Hin. revert masks w.
  induction Hin as [|y a pre arrs Hy _ IH]; intros masks w Hseg.
  - apply Forall2_nil_inv_l in Hseg as ->. cbn. by rewrite add_events_nil.
  - apply Forall2_cons_inv_l in Hseg as (m & masks' & Hm & Hseg & ->).
    cbn [mapM]. unfold mbind at 1, ST_bind at 1.
    rewrite (tile_step_ok _ _ _ _ _ _ _ Hy Hm).
    unfold mbind at 1, ST_bind at 1. rewrite (IH _ _ Hseg).
    cbn. by rewrite add_events_app.
Qed.

Lemma mapM_tiles_backend_raises sl sm kw pre arrs masks x arr e post w :
  Forall2 (λ y a, backend_input sl y = inr a) pre arrs →
  Forall2 (λ a m, Backend.segment sm a kw = inr m) arrs masks →
  backend_input sl x = inr arr → Backend.segment sm arr kw = inl e →
  mapM (tile_step sl sm kw) (pre ++ x :: post) w
  = (inl e, add_events w ((EvBackend <$> arrs) ++ [EvBackend arr])).
Proof.
  intros Hin. revert masks w.
  induction Hin as [|y a pre arrs Hy _ IH]; intros masks w Hseg Hx He.
  - apply Forall2_nil_inv_l in Hseg as ->. cbn [app mapM fmap list_fmap].
    unfold mbind at 1, ST_bind at 1.
    by rewrite (tile_step_backend_raises _ _ _ _ _ _ _ Hx He).
  - apply Forall2_cons_inv_l in Hseg as (m & masks' & Hm & Hseg & ->).
    cbn [app mapM]. unfold mbind at 1, ST_bind at 1.
    rewrite (tile_step_ok _ _ _ _ _ _ _ Hy Hm).
    unfold mbind at 1, ST_bind at 1. rewrite (IH _ _ Hseg Hx He).
    by rewrite add_events_app.
Qed.

(** C5.  A [model_group] other than [skimage_blob], [watershed] and
    [tensorflow] makes [segment] raise [ValueError] (the configuration error
    of the specification) in the state it was called in: the container is
    untouched and no call was made, neither [crop_equally] nor a backend. *)
Theorem segment_unknown_model_group img_id model_group model_instance model_kwargs
    channel_idx xs ys key_added (w : world) :
  model_group ≠ "skimage_blob" → model_group ≠ "watershed" →
  model_group ≠ "tensorflow" →
  segment img_id model_group model_instance model_kwargs channel_idx xs ys key_added w
  = (inl (ValueError ("did not recognize model instance " +:+ model_group)), w).
Proof.
  intros H1 H2 H3. unfold segment, select_model.
  rewrite !decide_False by done. reflexivity.
Qed.

(** C4.  When the backend raises [e] on a tile (the tiles before it having
    been segmented), [segment] raises that same [e]; the calls made are
    [crop_equally] and the backend calls up to the failing one, so no later
    tile is processed and nothing is merged or added, and the container is
    the one [segment] was called with. *)
Theorem segment_backend_failure img_id model_group model_instance model_kwargs
    channel_idx xs ys key_added (w : world)
    sm crops xcoord ycoord sl pre arrs masks x arr post e :
  select_model model_group model_instance = inr sm →
  crop_equally (container w) xs ys img_id = inr (crops, xcoord, ycoord) →
  channel_slice_of channel_idx crops = inr sl →
  crops = pre ++ x :: post →
  Forall2 (λ y a, backend_input sl y = inr a) pre arrs →
  Forall2 (λ a m, Backend.segment sm a model_kwargs = inr m) arrs masks →
  backend_input sl x = inr arr →
  Backend.segment sm arr model_kwargs = inl e →
  segment img_id model_group model_instance model_kwargs channel_idx xs ys key_added w
  = (inl e,
     {| container := container w;
        trace := trace w ++ EvCropEqually xs ys img_id
                   :: (EvBackend <$> arrs) ++ [EvBackend arr] |}).
Proof.
  intros Hsm Hcrop Hsl -> Hpre Hmasks Hx He.
  unfold segment. unfold mbind at 1, ST_bind at 1, lift at 1. rewrite Hsm.
  unfold mbind at 1, ST_bind at 1, call_crop_equally.
  unfold mbind at 1, ST_bind at 1, emit at 1.
  unfold mbind at 1, ST_bind at 1, get_container at 1. cbn [container].
  unfold lift at 1. rewrite Hcrop.
  unfold mbind at 1, ST_bind at 1, lift at 1. rewrite Hsl.
  unfold mbind at 1, ST_bind at 1.
  erewrite mapM_tiles_backend_raises by eauto.
  unfold add_events. cbn. by rewrite <- app_assoc.
Qed.

Lemma mapM_tiles_calls sl sm kw crops : ∀ w,
  ∃ arrs,
    (mapM (tile_step sl sm kw) crops w).2 = add_events w (EvBackend <$> arrs)
    ∧ (length arrs ≤ length crops)%nat
    ∧ ∀ i arr x, arrs !! i = Some arr → crops !! i = Some x →
        backend_input sl x = inr arr.
Proof.
  induction crops as [|x crops IH]; intros w.
  - exists []. cbn. rewrite add_events_nil. split_and!; [done|done|].
    intros i arr x Hi. by rewrite lookup_nil in Hi.
  - cbn [mapM]. unfold mbind at 1, ST_bind at 1.
    destruct (backend_input sl x) as [e|arr] eqn:Hx.
    + exists []. unfold tile_step, mbind, ST_bind, lift. rewrite Hx. cbn.
      rewrite add_events_nil. split_and!; [done|lia|].
      intros i a y Hi. by rewrite lookup_nil in Hi.
    + destruct (Backend.segment sm arr kw) as [e|m] eqn:Hm.
      * rewrite (tile_step_backend_raises _ _ _ _ _ _ _ Hx Hm).
        exists [arr]. cbn. split_and!; [done|lia|].
        intros [|i] a y Hi Hy; cbn in Hi, Hy; [by simplify_eq|done].
      * rewrite (tile_step_ok _ _ _ _ _ _ _ Hx Hm).
        destruct (IH (add_events w [EvBackend arr])) as (arrs & Htr & Hlen & Hall).
        exists (arr :: arrs). split_and!.
        -- unfold mbind at 1, ST_bind at 1.
           destruct (mapM (tile_step sl sm kw) crops (add_events w [EvBackend arr]))
             as [[e|ms] w'] eqn:Hrun; cbn in Htr |- *;
             rewrite Htr, add_events_app; done.
        -- cbn. lia.
        -- intros [|i] a y Hi Hy; cbn in Hi, Hy; [by simplify_eq|]. by eapply Hall.
Qed.


Lemma backend_calls_app t1 t2 :
  backend_calls (t1 ++ t2) = backend_calls t1 ++ backend_calls t2.
Proof. apply omap_app. Qed.

Lemma backend_calls_EvBackend arrs : backend_calls (EvBackend <$> arrs) = arrs.
Proof.
  induction arrs as [|a arrs IH]; [done|].
  unfold backend_calls in *. cbn. by rewrite IH.
Qed.

(** Nothing after the list comprehension calls the backend. *)
Lemma segment_tail_no_backend_call masks xcoord ycoord model_group key_added w :
  backend_calls (trace
    ((sh ← get_shape;
      img_segmented ← relabel_and_merge masks xcoord ycoord sh "mask";
      call_add_img img_segmented
        match key_added with
        | Some k => k
        | None => "segmented_" +:+ lower model_group
        end "mask") w).2)
  = backend_calls (trace w).
Proof.
  unfold get_shape, relabel_and_merge, call_add_img, get_container, put_container,
    emit, lift, mbind, ST_bind, mret, ST_ret.
  destruct (Relabel.relabel_crops mask_dtype masks) as [e|r]; [done|].
  cbn. destruct (uncrop_img _ _ _ _ _) as [e|d]; cbn.
  - rewrite backend_calls_app. cbn. by rewrite app_nil_r.
  - destruct (add_img _ _ _ _) as [e|c]; cbn;
      rewrite <- app_assoc, backend_calls_app; cbn; by rewrite app_nil_r.
Qed.

Lemma segment_backend_calls img_id model_group model_instance model_kwargs
    channel_idx xs ys key_added (w : world) crops xcoord ycoord :
  crop_equally (container w) xs ys img_id = inr (crops, xcoord, ycoord) →
  ∃ arrs,
    backend_calls (trace (segment img_id model_group model_instance model_kwargs
                            channel_idx xs ys key_added w).2)
    = backend_calls (trace w) ++ arrs
    ∧ (length arrs ≤ length crops)%nat
    ∧ ∀ i arr x, arrs !! i = Some arr → crops !! i = Some x →
        ∃ sl, channel_slice_of channel_idx crops = inr sl
              ∧ backend_input sl x = inr arr.
Proof.
  intros Hcrop.
  unfold segment. unfold mbind at 1, ST_bind at 1, lift at 1.
  destruct (select_model model_group model_instance) as [e|sm].
  { exists []. cbn. rewrite app_nil_r. split_and!; [done|lia|]. by intros i arr x Hi. }
  unfold mbind at 1, ST_bind at 1, call_crop_equally.
  unfold mbind at 1, ST_bind at 1, emit at 1.
  unfold mbind at 1, ST_bind at 1, get_container at 1. cbn [container].
  unfold lift at 1. rewrite Hcrop.
  unfold mbind at 1, ST_bind at 1, lift at 1.
  destruct (channel_slice_of channel_idx crops) as [e|sl] eqn:Hsl.
  { exists []. cbn. rewrite backend_calls_app. cbn. split_and!; [done|lia|].
    by intros i arr x Hi. }
  unfold mbind at 1, ST_bind at 1.
  set (w1 := {| container := container w;
                trace := trace w ++ [EvCropEqually xs ys img_id] |}).
  destruct (mapM_tiles_calls sl sm model_kwargs crops w1) as (arrs & Htr & Hlen & Hall).
  exists arrs. split_and!; [|done|by eauto].
  destruct (mapM (tile_step sl sm model_kwargs) crops w1) as [[e|masks] w2] eqn:Hrun;
    cbn [snd] in Htr; subst w2.
  - cbn. rewrite !backend_calls_app, backend_calls_EvBackend. cbn.
    by rewrite app_nil_r.
  - rewrite segment_tail_no_backend_call. cbn.
    rewrite !backend_calls_app, backend_calls_EvBackend. cbn. by rewrite app_nil_r.
Qed.

Lemma backend_input_slice_uniform crops x c0 rest n arr :
  crops = c0 :: rest → channels_shape0 c0 = inr n → x ∈ crops →
  Forall (λ y, wf_DataArray y ∧ channels_shape0 y = channels_shape0 x) crops →
  backend_input (Slice 0 n) x = inr arr → arr = values x.
Proof.
  intros -> Hn Hx Hall Hin. rewrite Forall_forall in Hall.
  destruct (Hall c0 ltac:(left)) as [_ Hc0].
  destruct (Hall x Hx) as [[Hdims Hwf] _].
  rewrite Hn in Hc0. unfold channels_shape0 in Hc0.
  destruct (axis_of (dims x) "channels") as [p|] eqn:Hax; [|done].
  injection Hc0 as Hc0.
  pose proof (axis_of_lt _ _ _ Hax) as Hp. rewrite Hdims in Hp.
  destruct (lookup_lt_is_Some_2 (shape (values x)) p Hp) as [d Hd].
  rewrite Hd in Hc0. cbn in Hc0. subst d.
  rewrite (backend_input_slice_all x n p n) in Hin by done. by injection Hin.
Qed.

Lemma pretrained_init_path_raises (m : model_instance_t) e :
  tf_keras_model_Model = inl e →
  Backend.SegmentationModelPretrainedTensorflow_init m = inl e.
Proof.
  intros He. unfold Backend.SegmentationModelPretrainedTensorflow_init,
    Backend.isinstance_keras_Model. by rewrite He.
Qed.

End dispatch.

Lemma segment_unknown_model_group_witness :
  ("nonexistent" ≠ "skimage_blob" ∧ "nonexistent" ≠ "watershed"
   ∧ "nonexistent" ≠ "tensorflow")
  ∧ segment (ext := Examples.demo_externals) (ops := SpecOps.spec_ops)
      "image" "nonexistent" InstanceNone ∅ ArgNone None None None Examples.small_world
    = (inl (ValueError "did not recognize model instance nonexistent"),
       Examples.small_world).
Proof.
  assert (H1 : "nonexistent" ≠ "skimage_blob") by done.
  assert (H2 : "nonexistent" ≠ "watershed") by done.
  assert (H3 : "nonexistent" ≠ "tensorflow") by done.
  split; [done|].
  exact (segment_unknown_model_group (ext := Examples.demo_externals)
           (ops := SpecOps.spec_ops) "image" "nonexistent" InstanceNone ∅ ArgNone
           None None None Examples.small_world H1 H2 H3).
Defined.

Lemma segment_backend_failure_witness :
  segment (ext := Examples.demo_externals) (ops := SpecOps.spec_ops)
    "image" "tensorflow" (InstanceObject 1) ∅ (ArgInt 0) (Some 2) (Some 2) None
    Examples.small_world
  = (inl (LibraryError "InvalidArgumentError" "incompatible input shape"),
     {| container := container Examples.small_world;
        trace := [EvCropEqually (Some 2) (Some 2) "image";
                  EvBackend {| shape := [2; 2]%nat; data := [0; 1; 0; 0] |}] |}).
Proof.
  apply (segment_backend_failure (ext := Examples.demo_externals)
           (ops := SpecOps.spec_ops) "image" "tensorflow" (InstanceObject 1) ∅
           (ArgInt 0) (Some 2) (Some 2) None Examples.small_world
           (Backend.SegmentationModelPretrainedTensorflow (InstanceObject 1))
           [SpecOps.window Examples.small_image 0 0 2 2;
            SpecOps.window Examples.small_image 2 0 2 2]
           [0; 2]%nat [0; 0]%nat (IntIndex 0)
           [] [] [] (SpecOps.window Examples.small_image 0 0 2 2)
           {| shape := [2; 2]%nat; data := [0; 1; 0; 0] |}
           [SpecOps.window Examples.small_image 2 0 2 2]).
  - reflexivity.
  - vm_compute. reflexivity.
  - reflexivity.
  - reflexivity.
  - constructor.
  - constructor.
  - vm_compute. reflexivity.
  - reflexivity.
Defined.

(** C7 (the code departs from the claim).  With TensorFlow as released
    the path [tf.keras.model.Model] of line 150 does not exist, so the
    constructor raises [AttributeError] for every handle, also for a model
    that the library calls, and [segment] raises it before any other call:
    the assertion that the claim describes is never reached and no
    pretrained backend is ever constructed. *)
Theorem pretrained_model_failing_input :
  (∀ arr kw,
     object_call (Externals := MoreExamples.tensorflow_released) 0%nat arr kw = inr arr)
  ∧ (∀ m,
       Backend.SegmentationModelPretrainedTensorflow_init
         (ext := MoreExamples.tensorflow_released) m
       = inl (LibraryError "AttributeError"
                "module 'tensorflow.keras' has no attribute 'model'"))
  ∧ ∀ (ops : ContainerOps) img_id kw channel_idx xs ys key_added (w : world),
      segment (ext := MoreExamples.tensorflow_released) img_id "tensorflow"
        (InstanceObject 0) kw channel_idx xs ys key_added w
      = (inl (LibraryError "AttributeError"
                "module 'tensorflow.keras' has no attribute 'model'"), w).
Proof.
  split_and!.
  - done.
  - intros m. by apply pretrained_init_path_raises.
  - intros. unfold segment, select_model.
    by rewrite (pretrained_init_path_raises (ext := MoreExamples.tensorflow_released)
                  (InstanceObject 0) _ eq_refl).
Qed.

End SegmentProofs.

(** ** [segment_crops] *)

Module CropProofs.

Lemma elem_of_nonzero_labels a v :
  v ∈ nonzero_labels a ↔ v ≠ 0 ∧ v ∈ data a.
Proof.
  unfold nonzero_labels, np_unique.
  rewrite merge_sort_Permutation, elem_of_elements, elem_of_difference.
  rewrite elem_of_list_to_set, merge_sort_Permutation, elem_of_remove_dups.
  rewrite elem_of_singleton. tauto.
Qed.

Lemma nonzero_labels_NoDup a : NoDup (nonzero_labels a).
Proof.
  unfold nonzero_labels. rewrite merge_sort_Permutation. apply NoDup_elements.
Qed.

Lemma StronglySorted_le_NoDup_lt (l : list Z) :
  StronglySorted Z.le l → NoDup l → StronglySorted Z.lt l.
Proof.
  induction 1 as [|x l Hs IH Hall]; intros Hnd; constructor.
  - apply IH. by apply NoDup_cons in Hnd as [_ ?].
  - apply NoDup_cons in Hnd as [Hx _].
    rewrite Forall_forall in Hall |- *. intros y Hy.
    specialize (Hall y Hy). assert (x ≠ y) by (by intros ->). lia.
Qed.

Lemma nonzero_labels_ascending a : StronglySorted Z.lt (nonzero_labels a).
Proof.
  apply StronglySorted_le_NoDup_lt; [|apply nonzero_labels_NoDup].
  unfold nonzero_labels. apply (StronglySorted_merge_sort Z.le).
Qed.

Lemma nonzero_labels_nil a : Forall (λ v, v = 0) (data a) → nonzero_labels a = [].
Proof.
  intros Hall. destruct (nonzero_labels a) as [|v l] eqn:Hl; [done|].
  assert (v ∈ nonzero_labels a) as [Hv0 Hv]%elem_of_nonzero_labels
    by (rewrite Hl; left).
  rewrite Forall_forall in Hall. by specialize (Hall v Hv).
Qed.

(** Positions: selection over positions starting at [a]. *)
Lemma elem_of_true_positions_from (cond : list bool) : ∀ a p,
  p ∈ omap (λ pb : nat * bool, if pb.2 then Some pb.1 else None)
           (zip (seq a (length cond)) cond)
  ↔ (a ≤ p)%nat ∧ cond !! (p - a)%nat = Some true.
Proof.
  induction cond as [|b cond IH]; intros a p.
  - cbn. rewrite elem_of_nil. split; [done|]. by intros [_ ?].
  - assert (Hrest : p ∈ omap (λ pb : nat * bool, if pb.2 then Some pb.1 else None)
                          (zip (seq (S a) (length cond)) cond)
                    ↔ (S a ≤ p)%nat ∧ (b :: cond) !! (p - a)%nat = Some true).
    { rewrite IH. split; intros [Hle Hp]; (split; [done|]).
      - by replace (p - a)%nat with (S (p - S a)) by lia.
      - by replace (p - a)%nat with (S (p - S a)) in Hp by lia. }
    destruct b; cbn.
    + rewrite elem_of_cons, Hrest. split.
      * intros [-> | [Hle Hp]].
        -- by rewrite Nat.sub_diag.
        -- split; [lia|done].
      * intros [Hle Hp]. destruct (decide (p = a)) as [->|Hne]; [by left|].
        right. split; [lia|done].
    + rewrite Hrest. split.
      * intros [Hle Hp]. split; [lia|done].
      * intros [Hle Hp]. destruct (decide (p = a)) as [->|Hne].
        -- by rewrite Nat.sub_diag in Hp.
        -- split; [lia|done].
Qed.

Lemma elem_of_positions_of a i p :
  p ∈ positions_of a i ↔ data a !! p = Some i.
Proof.
  unfold positions_of, true_positions.
  rewrite elem_of_true_positions_from, Nat.sub_0_r, list_lookup_fmap.
  split.
  - intros [_ Hp]. destruct (data a !! p) as [v|]; [|done].
    cbn in Hp. injection Hp as Hp. by apply bool_decide_eq_true_1 in Hp as ->.
  - intros ->. split; [lia|]. cbn. by rewrite bool_decide_eq_true_2.
Qed.

Lemma positions_of_nonempty a i : i ∈ data a → positions_of a i ≠ [].
Proof.
  intros (p & Hp)%list_elem_of_lookup_1 Hnil.
  apply elem_of_positions_of in Hp. rewrite Hnil in Hp. by apply elem_of_nil in Hp.
Qed.

(** [int(np.mean(l))] is the mean rounded down. *)
Lemma python_int_np_mean l :
  l ≠ [] → python_int (np_mean l) = inr (floor_mean l).
Proof.
  intros Hl. unfold np_mean, floor_mean. destruct l as [|n l]; [done|].
  cbn [python_int Qnum Qden mret result_ret]. f_equal.
  rewrite Z.quot_div_nonneg by lia. f_equal.
  rewrite <- positive_nat_Z, Nat2Pos.id by done. done.
Qed.

Section crops.
Context `{ops : ContainerOps}.

Lemma np_where_2d (H W : nat) cond :
  np_where [H; W] cond
  = [(λ p, p / W)%nat <$> true_positions cond;
     (λ p, p `mod` W)%nat <$> true_positions cond].
Proof.
  unfold np_where. cbn [length seq fmap list_fmap].
  f_equal; [|f_equal]; apply list_fmap_ext; intros _ p _;
    cbn [unravel size_of foldr lookup list_lookup default from_option id];
    by rewrite ?Nat.mul_1_r, ?Nat.div_1_r.
Qed.

Lemma segment_centre_2d img key l (H W : nat) i :
  img_data img !! key = Some l → shape (values l) = [H; W] →
  segment_centre img key i
  = inr (np_mean ((λ p, p / W)%nat <$> positions_of (values l) i),
         np_mean ((λ p, p `mod` W)%nat <$> positions_of (values l) i)).
Proof.
  intros Hl Hsh. unfold segment_centre, lookup_data. rewrite Hl. cbn.
  rewrite Hsh, np_where_2d. reflexivity.
Qed.

Lemma crop_at_centre_2d img xs ys img_id l W i :
  i ∈ data (values l) →
  crop_at img xs ys img_id
    (np_mean ((λ p, p / W)%nat <$> positions_of (values l) i),
     np_mean ((λ p, p `mod` W)%nat <$> positions_of (values l) i))
  = crop img (floor_centroid (values l) W i).1 (floor_centroid (values l) W i).2
      xs ys img_id.
Proof.
  intros Hi. unfold crop_at. cbn [fst snd].
  pose proof (positions_of_nonempty _ _ Hi) as Hne.
  rewrite !python_int_np_mean by (by intros ?%fmap_nil_inv). reflexivity.
Qed.

Lemma crop_step_run xs ys img_id c (w : world) :
  (crop_step xs ys img_id c w).1 = crop_at (container w) xs ys img_id c
  ∧ container (crop_step xs ys img_id c w).2 = container w.
Proof.
  unfold crop_step, crop_at, call_crop, get_container, emit, lift, mbind, ST_bind,
    result_bind.
  destruct (python_int c.1); [done|]. destruct (python_int c.2); [done|]. done.
Qed.

Lemma mapM_crop_steps xs ys img_id cs : ∀ w : world,
  (mapM (crop_step xs ys img_id) cs w).1 = mapM (crop_at (container w) xs ys img_id) cs
  ∧ container (mapM (crop_step xs ys img_id) cs w).2 = container w.
Proof.
  induction cs as [|c cs IH]; intros w; [done|].
  destruct (crop_step_run xs ys img_id c w) as [H1 H2].
  change (mapM (crop_step xs ys img_id) (c :: cs) w)
    with (match crop_step xs ys img_id c w with
          | (inl e, w') => (inl e, w')
          | (inr d, w') =>
              match mapM (crop_step xs ys img_id) cs w' with
              | (inl e, w'') => (inl e, w'')
              | (inr ds, w'') => (inr (d :: ds), w'')
              end
          end).
  change (mapM (crop_at (container w) xs ys img_id) (c :: cs))
    with (match crop_at (container w) xs ys img_id c with
          | inl e => inl e
          | inr d =>
              match mapM (crop_at (container w) xs ys img_id) cs with
              | inl e => inl e
              | inr ds => inr (d :: ds)
              end
          end).
  destruct (crop_step xs ys img_id c w) as [[e|d] w1]; cbn [fst snd] in H1, H2;
    rewrite <- H1; [done|].
  destruct (IH w1) as [H3 H4]. rewrite H2 in H3, H4.
  destruct (mapM (crop_step xs ys img_id) cs w1) as [[e|ds] w2];
    cbn [fst snd] in H3, H4; rewrite <- H3; done.
Qed.

Lemma segment_crops_unfold img_id key xs ys (w : world) :
  segment_crops img_id key xs ys w
  = match segment_centres (container w) key with
    | inl e => (inl e, w)
    | inr cs => mapM (crop_step xs ys img_id) cs w
    end.
Proof. reflexivity. Qed.

(** The value of [segment_crops] is a function of the container, which it
    leaves as it is. *)
Lemma segment_crops_run img_id key xs ys (w : world) :
  (segment_crops img_id key xs ys w).1
  = (centres ← segment_centres (container w) key;
     mapM (crop_at (container w) xs ys img_id) centres)
  ∧ container (segment_crops img_id key xs ys w).2 = container w.
Proof.
  rewrite segment_crops_unfold.
  destruct (segment_centres (container w) key) as [e|cs]; [done|].
  cbn [mbind result_bind]. apply mapM_crop_steps.
Qed.

Lemma mapM_result_ext {A B} (f g : A → result B) l :
  (∀ x, x ∈ l → f x = g x) → mapM f l = mapM g l.
Proof.
  induction l as [|x l IH]; intros Hfg; [done|].
  cbn. rewrite (Hfg x) by left. destruct (g x); [done|].
  cbn. rewrite IH; [done|]. intros y Hy. apply Hfg. by right.
Qed.

Lemma mapM_inr_fmap {A B} (f : A → B) (l : list A) :
  mapM (λ x, inr (f x) : result B) l = inr (f <$> l).
Proof. induction l as [|x l IH]; [done|]. cbn. by rewrite IH. Qed.

Lemma mapM_fmap_result {A B C} (f : A → B) (g : B → result C) (l : list A) :
  mapM g (f <$> l) = mapM (λ x, g (f x)) l.
Proof. induction l as [|x l IH]; [done|]. cbn. by rewrite IH. Qed.

(** C6 (the code departs from the claim).  [np.where(...)[0]] and [[1]] are
    the index arrays of the first two dimensions.  On a label map as
    [segment] stores it these are the [mask] dimension and the rows: for the
    segment on the pixel in row 1, column 3 the crop is requested at
    [x = 0], [y = 1], whatever the container does with the request, while
    the centroid of the segment is row 1, column 3. *)
Theorem segment_crops_failing_input :
  crop_requests
    (trace (segment_crops "image" "seg" (Some 1) (Some 1)
              (Examples.labelled_world MoreExamples.stored_label_map)).2)
  = [(0, 1)]
  ∧ rounded_centroid 2 4 (values MoreExamples.stored_label_map)
      <$> nonzero_labels (values MoreExamples.stored_label_map)
    = [(1, 3)].
Proof.
  split; [|vm_compute; reflexivity].
  rewrite segment_crops_unfold.
  assert (segment_centres (container (Examples.labelled_world
                                        MoreExamples.stored_label_map)) "seg"
          = inr [(Finite (0 # 1), Finite (1 # 1))]) as -> by (vm_compute; reflexivity).
  rewrite mapM_ST_cons.
  unfold crop_step, call_crop, get_container, emit, lift, mbind, ST_bind. cbn.
  by destruct (crop _ _ _ _ _ _).
Qed.

(** C9.  [segment_crops] leaves the container as it is, and a second run
    on the state left by the first returns the same crops, or raises the same
    exception. *)
Theorem segment_crops_twice img_id key xs ys (w : world) :
  let run1 := segment_crops img_id key xs ys w in
  container run1.2 = container w
  ∧ (segment_crops img_id key xs ys run1.2).1 = run1.1.
Proof.
  cbn zeta.
  destruct (segment_crops_run img_id key xs ys w) as [H1 H2].
  destruct (segment_crops_run img_id key xs ys (segment_crops img_id key xs ys w).2)
    as [H3 _].
  split; [done|]. rewrite H3, H1, H2. done.
Qed.

End crops.

(** [int] truncates.  The label 1 lies on the pixels (0, 0), (1, 0) and
    (1, 1): its mean row index is 2/3 and its mean column index 1/3, which
    round to (1, 0), while [segment_crops] requests the crop at (0, 0); so it
    does whether the label map is two-dimensional or has a leading [mask]
    dimension. *)
Lemma segment_crops_truncates :
  crop_requests (trace (segment_crops (ops := SpecOps.spec_ops) "image" "seg"
                          (Some 1) (Some 1)
                          (Examples.labelled_world Examples.label_map_2d)).2)
  ≠ rounded_centroid 2 2 (values Examples.label_map_2d)
      <$> nonzero_labels (values Examples.label_map_2d)
  ∧ crop_requests (trace (segment_crops (ops := SpecOps.spec_ops) "image" "seg"
                            (Some 1) (Some 1)
                            (Examples.labelled_world Examples.label_map_3d)).2)
    ≠ rounded_centroid 2 2 (values Examples.label_map_3d)
        <$> nonzero_labels (values Examples.label_map_3d).
Proof. split; vm_compute; intros [=]. Qed.

Lemma segment_crops_twice_witness :
  container (segment_crops (ops := SpecOps.spec_ops) "image" "seg" (Some 1) (Some 1)
               (Examples.labelled_world Examples.label_map_2d)).2
  = container (Examples.labelled_world Examples.label_map_2d)
  ∧ (segment_crops (ops := SpecOps.spec_ops) "image" "seg" (Some 1) (Some 1)
       (segment_crops (ops := SpecOps.spec_ops) "image" "seg" (Some 1) (Some 1)
          (Examples.labelled_world Examples.label_map_2d)).2).1
    = (segment_crops (ops := SpecOps.spec_ops) "image" "seg" (Some 1) (Some 1)
         (Examples.labelled_world Examples.label_map_2d)).1.
Proof.
  exact (segment_crops_twice (ops := SpecOps.spec_ops) "image" "seg" (Some 1) (Some 1)
           (Examples.labelled_world Examples.label_map_2d)).
Defined.

End CropProofs.

(** ** [extract] *)

Module ExtractProofs.
Import Extract.

Section frame.
Context {S : Type} (P : S → Prop).

Lemma preserves_bind {A B} (m : ST S A) (f : A → ST S B) :
  preserves P m → (∀ a, preserves P (f a)) → preserves P (m ≫= f).
Proof.
  intros Hm Hf s Hs. unfold mbind, ST_bind. specialize (Hm s Hs).
  destruct (m s) as [[e|a] s']; [done|]. by apply Hf.
Qed.

Lemma preserves_ret {A} (a : A) : preserves P (mret a).
Proof. by intros s Hs. Qed.

Lemma preserves_lift {A} (r : result A) : preserves P (lift r).
Proof. by intros s Hs. Qed.

Lemma preserves_mapM {A B} (f : A → ST S B) l :
  (∀ x, preserves P (f x)) → preserves P (mapM f l).
Proof.
  intros Hf. induction l as [|x l IH]; [apply preserves_ret|].
  cbn [mapM]. apply preserves_bind; [done|]. intros b.
  apply preserves_bind; [done|]. intros bs. apply preserves_ret.
Qed.

End frame.

Section extract_frame.
Context (σ0 : state) (tmp : nat).

#[local] Abbreviation frame := (Extract.frame σ0 tmp).

Lemma preserves_deref l : preserves frame (deref l).
Proof. intros σ Hσ. unfold deref. by destruct (objs σ !! l). Qed.

Lemma preserves_warning msg : preserves frame (warning msg).
Proof. by intros σ Hσ. Qed.

Lemma preserves_store a : preserves frame (store tmp a).
Proof. intros σ Hσ l Hl. cbn. rewrite lookup_insert_ne by done. by apply Hσ. Qed.

Lemma preserves_set_obs key col : preserves frame (set_obs tmp key col).
Proof.
  apply preserves_bind; [apply preserves_deref|]. intros a. apply preserves_store.
Qed.

Lemma preserves_warn_if_exists_obs key :
  preserves frame (_warn_if_exists_obs tmp key).
Proof.
  apply preserves_bind; [apply preserves_deref|]. intros a.
  case_bool_decide; [apply preserves_warning|apply preserves_ret].
Qed.

Lemma preserves_copy_columns adata prefix i key :
  preserves frame (copy_columns adata tmp prefix i key).
Proof.
  apply preserves_bind; [apply preserves_deref|]. intros a.
  apply preserves_bind; [apply preserves_lift|]. intros [columns|sh vals].
  - apply preserves_bind; [|intros; apply preserves_ret].
    apply preserves_mapM. intros col.
    apply preserves_bind; [apply preserves_lift|]. intros p.
    apply preserves_bind; [apply preserves_warn_if_exists_obs|]. intros _.
    apply preserves_bind; [apply preserves_lift|]. intros c.
    apply preserves_set_obs.
  - apply preserves_bind; [apply preserves_lift|]. intros m.
    apply preserves_bind; [|intros; apply preserves_ret].
    apply preserves_mapM. intros j.
    apply preserves_bind; [apply preserves_lift|]. intros p.
    apply preserves_bind; [apply preserves_warn_if_exists_obs|]. intros _.
    apply preserves_bind; [apply preserves_lift|]. intros c.
    apply preserves_set_obs.
Qed.

End extract_frame.

(** In the copy, only [obs] is written. *)
Section extract_obsm.
Context (tmp : nat) (om : gmap string obsm_entry).

#[local] Abbreviation keeps_obsm := (Extract.keeps_obsm tmp om).

Lemma keeps_deref l : preserves keeps_obsm (deref l).
Proof. intros σ Hσ. unfold deref. by destruct (objs σ !! l). Qed.

Lemma keeps_set_obs key col : preserves keeps_obsm (set_obs tmp key col).
Proof.
  intros σ (a & Ha & Hom). unfold set_obs, deref, store, mbind, ST_bind.
  rewrite Ha. cbn. eexists. split; [apply lookup_insert_eq|done].
Qed.

Lemma keeps_warn_if_exists_obs key :
  preserves keeps_obsm (_warn_if_exists_obs tmp key).
Proof.
  apply preserves_bind; [apply keeps_deref|]. intros a.
  case_bool_decide; [by intros σ Hσ|apply preserves_ret].
Qed.

Lemma keeps_copy_columns adata prefix i key :
  preserves keeps_obsm (copy_columns adata tmp prefix i key).
Proof.
  apply preserves_bind; [apply keeps_deref|]. intros a.
  apply preserves_bind; [apply preserves_lift|]. intros [columns|sh vals].
  - apply preserves_bind; [|intros; apply preserves_ret].
    apply preserves_mapM. intros col.
    apply preserves_bind; [apply preserves_lift|]. intros p.
    apply preserves_bind; [apply keeps_warn_if_exists_obs|]. intros _.
    apply preserves_bind; [apply preserves_lift|]. intros c.
    apply keeps_set_obs.
  - apply preserves_bind; [apply preserves_lift|]. intros m.
    apply preserves_bind; [|intros; apply preserves_ret].
    apply preserves_mapM. intros j.
    apply preserves_bind; [apply preserves_lift|]. intros p.
    apply preserves_bind; [apply keeps_warn_if_exists_obs|]. intros _.
    apply preserves_bind; [apply preserves_lift|]. intros c.
    apply keeps_set_obs.
Qed.

End extract_obsm.

Lemma fresh_not_allocated (σ : state) l :
  is_Some (objs σ !! l) → l ≠ fresh (dom (objs σ)).
Proof.
  intros Hl ->. apply elem_of_dom in Hl. by apply is_fresh in Hl.
Qed.

Lemma extract_unfold adata obsm_key prefix σ :
  extract adata obsm_key prefix σ
  = let keys := match obsm_key with OneStr s => [s] | StrList l => l end in
    match prefix_list keys prefix with
    | inl e => (inl e, σ)
    | inr pre =>
        match objs σ !! adata with
        | None => (inl (LibraryError "ReferenceError" "dangling AnnData reference"), σ)
        | Some a =>
            let tmp := fresh (dom (objs σ)) in
            let σ1 := {| objs := <[tmp := a]> (objs σ); log := log σ |} in
            match mapM (λ ik : nat * string, copy_columns adata tmp pre ik.1 ik.2)
                       (imap pair keys) σ1 with
            | (inl e, σ') => (inl e, σ')
            | (inr _, σ') => (inr tmp, σ')
            end
        end
    end.
Proof.
  unfold extract, copy, deref, alloc, lift, mbind, ST_bind. cbn zeta.
  destruct (prefix_list _ prefix); [done|].
  destruct (objs σ !! adata); done.
Qed.

(** C10.  [extract] leaves the object it is given, and every other object
    that existed at the call, as it was, whether it returns or raises; the
    object it returns is a new one, with the [obsm] of the input. *)
Theorem extract_leaves_input adata obsm_key prefix (σ : state) :
  let run := extract adata obsm_key prefix σ in
  objs run.2 !! adata = objs σ !! adata
  ∧ (∀ l, is_Some (objs σ !! l) → objs run.2 !! l = objs σ !! l)
  ∧ ∀ tmp_adata, run.1 = inr tmp_adata →
      tmp_adata ≠ adata ∧ objs σ !! tmp_adata = None
      ∧ ∃ a a', objs σ !! adata = Some a ∧ objs run.2 !! tmp_adata = Some a'
                ∧ obsm a' = obsm a.
Proof.
  cbn zeta. rewrite extract_unfold. cbn zeta.
  destruct (prefix_list _ prefix) as [e|pre]; [by split_and!|].
  destruct (objs σ !! adata) as [a|] eqn:Ha; [|by split_and!].
  set (tmp := fresh (dom (objs σ))).
  set (σ1 := {| objs := <[tmp := a]> (objs σ); log := log σ |}).
  set (keys := match obsm_key with OneStr s => [s] | StrList l => l end).
  assert (Hfresh : objs σ !! tmp = None).
  { apply not_elem_of_dom. apply is_fresh. }
  assert (Hframe : frame σ tmp
            (mapM (λ ik : nat * string, copy_columns adata tmp pre ik.1 ik.2)
                  (imap pair keys) σ1).2).
  { apply (preserves_mapM (frame σ tmp)).
    - intros ik. apply preserves_copy_columns.
    - intros l Hl. cbn. by rewrite lookup_insert_ne. }
  assert (Hobsm : keeps_obsm tmp (obsm a)
            (mapM (λ ik : nat * string, copy_columns adata tmp pre ik.1 ik.2)
                  (imap pair keys) σ1).2).
  { apply (preserves_mapM (keeps_obsm tmp (obsm a))).
    - intros ik. apply keeps_copy_columns.
    - exists a. cbn. by rewrite lookup_insert_eq. }
  assert (Hne : ∀ l, is_Some (objs σ !! l) → l ≠ tmp).
  { intros l Hl ->. rewrite Hfresh in Hl. by destruct Hl. }
  destruct (mapM (λ ik : nat * string, copy_columns adata tmp pre ik.1 ik.2)
              (imap pair keys) σ1) as [[e|u] σ'] eqn:Hrun;
    cbn [fst snd] in Hframe, Hobsm |- *.
  - split_and!; [rewrite <- Ha; apply Hframe, Hne; by rewrite Ha| |done].
    intros l Hl. by apply Hframe, Hne.
  - split_and!; [rewrite <- Ha; apply Hframe, Hne; by rewrite Ha| |].
    + intros l Hl. by apply Hframe, Hne.
    + intros ? [= <-]. split_and!; [|done|].
      * intros Heq. apply (Hne adata); [by rewrite Ha|done].
      * destruct Hobsm as (a' & Ha' & Hom). eauto.
Qed.

Lemma extract_leaves_input_witness :
  (extract 0%nat (StrList ["img_features"; "spatial"]) (Some (OneStr "feat"))
     Examples.store0).1 = inr 1%nat
  ∧ objs (extract 0%nat (StrList ["img_features"; "spatial"]) (Some (OneStr "feat"))
            Examples.store0).2 !! 0%nat
    = Some Examples.adata0
  ∧ 1%nat ≠ 0%nat ∧ objs Examples.store0 !! 1%nat = None.
Proof.
  assert (Hrun : (extract 0%nat (StrList ["img_features"; "spatial"])
                    (Some (OneStr "feat")) Examples.store0).1 = inr 1%nat)
    by (vm_compute; reflexivity).
  pose proof (extract_leaves_input 0%nat (StrList ["img_features"; "spatial"])
                (Some (OneStr "feat")) Examples.store0) as (H0 & _ & Hnew).
  destruct (Hnew 1%nat Hrun) as (Hne & Hfresh & _).
  split; [exact Hrun|]. split; [exact H0|]. split; [exact Hne|exact Hfresh].
Defined.

End ExtractProofs.

(** ** The relabeling loop, tile by tile *)

Module RelabelLaws.
Import Relabel RelabelProofs MergeProofs.

Lemma offset_positive_nonpositive c vs :
  Forall (λ v, v ≤ 0) vs → offset_positive c vs = vs.
Proof.
  unfold offset_positive. induction 1 as [|v vs Hv _ IH]; [done|].
  cbn. rewrite IH. by rewrite (proj2 (Z.ltb_ge 0 v) Hv).
Qed.

Lemma length_offset_positive c vs : length (offset_positive c vs) = length vs.
Proof. unfold offset_positive. apply length_fmap. Qed.

(** The maximum read after the masked assignment, in terms of the maximum
    of the mask as the backend returned it. *)
Lemma np_max_offset_step a c m' :
  0 ≤ c → np_max (with_data a (offset_positive c (data a))) = inr m' →
  ∃ m, np_max a = inr m ∧ c + m' = counter_step c m.
Proof.
  intros Hc Hm'.
  destruct (np_max_is_inr a) as [m Hm].
  { intros Hnil. unfold np_max in Hm'. cbn in Hm'. by rewrite Hnil in Hm'. }
  exists m. split; [done|]. unfold counter_step.
  destruct (0 <? m) eqn:Hpos.
  - apply Z.ltb_lt in Hpos. rewrite (np_max_after_offset a c m Hc Hm Hpos) in Hm'.
    injection Hm' as <-. lia.
  - apply Z.ltb_ge in Hpos. pose proof (np_max_inv _ _ Hm) as [_ Hle].
    rewrite offset_positive_nonpositive in Hm'.
    + replace (with_data a (data a)) with a in Hm' by (by destruct a).
      rewrite Hm in Hm'. by injection Hm' as <-.
    + apply Forall_forall. intros v Hv. specialize (Hle v Hv). lia.
Qed.

Lemma np_max_nonneg a m : nonneg a → np_max a = inr m → 0 ≤ m.
Proof.
  intros Ha [Hin _]%np_max_inv. unfold nonneg in Ha.
  rewrite Forall_forall in Ha. by apply Ha.
Qed.

Lemma counter_step_nonneg c m : 0 ≤ c → 0 ≤ m → 0 ≤ counter_step c m.
Proof. unfold counter_step. destruct (0 <? m); lia. Qed.

Lemma foldl_counter_step_nonneg ms : ∀ c,
  0 ≤ c → Forall (λ m, 0 ≤ m) ms → 0 ≤ foldl counter_step c ms.
Proof.
  induction ms as [|m ms IH]; intros c Hc Hms; [done|].
  apply Forall_cons in Hms as [Hm Hms]. cbn. apply IH; [|done].
  by apply counter_step_nonneg.
Qed.

(** What the loop computes, tile by tile: tile [i] gets the counter reached
    after the tiles before it, and the counter follows [counter_step]. *)
Lemma relabel_fold_law tiles : ∀ c out c',
  0 ≤ c → Forall nonneg tiles →
  relabel_fold c tiles = inr (out, c') →
  ∃ ms, Forall2 (λ a m, np_max a = inr m) tiles ms
        ∧ Forall (λ m, 0 ≤ m) ms
        ∧ c' = foldl counter_step c ms
        ∧ length out = length tiles
        ∧ ∀ i a d, tiles !! i = Some a → out !! i = Some d →
            d = relabeled a (foldl counter_step c (take i ms)).
Proof.
  induction tiles as [|a tiles IH]; intros c out c' Hc Hnn Hrun.
  - injection Hrun as <- <-. exists []. by split_and!.
  - apply Forall_cons in Hnn as [Ha Hnn]. cbn [relabel_fold] in Hrun.
    destruct (np_max (with_data a _)) as [|m'] eqn:Hm'; [done|].
    cbn [mbind result_bind] in Hrun.
    destruct (newaxis_view _) as [|v] eqn:Hv; [done|].
    cbn [mbind result_bind] in Hrun.
    destruct (xr_DataArray _ _) as [|d0] eqn:Hd; [done|].
    cbn [mbind result_bind] in Hrun.
    destruct (relabel_fold _ tiles) as [|[out' c'']] eqn:Hrest; [done|].
    cbn in Hrun. injection Hrun as <- <-.
    destruct (np_max_offset_step a c m' Hc Hm') as (m & Hm & Hstep).
    pose proof (np_max_nonneg a m Ha Hm) as Hm0.
    rewrite Hstep in Hrest.
    destruct (IH _ _ _ (counter_step_nonneg c m Hc Hm0) Hnn Hrest)
      as (ms & Hms & Hpos & Hc' & Hlen & Hout).
    exists (m :: ms). split_and!.
    + by constructor.
    + by constructor.
    + done.
    + cbn. by rewrite Hlen.
    + intros [|i] b d Hb Hdi; cbn in Hb, Hdi.
      * injection Hb as <-. injection Hdi as <-. cbn [take foldl].
        unfold xr_DataArray in Hd. case_decide; [|done]. injection Hd as <-.
        unfold newaxis_view in Hv. case_decide; [done|]. by injection Hv as <-.
      * cbn [take foldl]. by apply Hout.
Qed.

Lemma relabel_fold_inr_shape tiles : ∀ c r,
  relabel_fold c tiles = inr r → Forall (λ a, ndim a = 2%nat ∧ data a ≠ []) tiles.
Proof.
  induction tiles as [|a tiles IH]; intros c r Hrun; [constructor|].
  cbn [relabel_fold] in Hrun.
  destruct (np_max (with_data a _)) as [|m'] eqn:Hm'; [done|].
  cbn [mbind result_bind] in Hrun.
  destruct (newaxis_view _) as [|v] eqn:Hv; [done|].
  cbn [mbind result_bind] in Hrun.
  destruct (xr_DataArray _ _) as [|d0] eqn:Hd; [done|].
  cbn [mbind result_bind] in Hrun.
  destruct (relabel_fold _ tiles) as [|r'] eqn:Hrest; [done|].
  constructor; [|by eapply IH]. split.
  - unfold newaxis_view in Hv. case_decide; [done|]. injection Hv as <-.
    unfold xr_DataArray, ndim in Hd. case_decide as Hlen; [|done].
    cbn in Hlen. unfold ndim. lia.
  - intros Hnil. unfold np_max in Hm'. cbn in Hm'. by rewrite Hnil in Hm'.
Qed.

Lemma wrapped_fold_inr_shape dt tiles : ∀ c r,
  wrapped_fold dt c tiles = inr r → Forall (λ a, ndim a = 2%nat ∧ data a ≠ []) tiles.
Proof.
  induction tiles as [|a tiles IH]; intros c r Hrun; [constructor|].
  cbn [wrapped_fold] in Hrun.
  destruct (np_max (with_data a _)) as [|m'] eqn:Hm'; [done|].
  cbn [mbind result_bind] in Hrun.
  destruct (newaxis_view _) as [|v] eqn:Hv; [done|].
  cbn [mbind result_bind] in Hrun.
  destruct (xr_DataArray _ _) as [|d0] eqn:Hd; [done|].
  cbn [mbind result_bind] in Hrun.
  destruct (wrapped_fold _ _ tiles) as [|r'] eqn:Hrest; [done|].
  constructor; [|by eapply IH]. split.
  - unfold newaxis_view in Hv. case_decide; [done|]. injection Hv as <-.
    unfold xr_DataArray, ndim in Hd. case_decide as Hlen; [|done].
    cbn in Hlen. unfold ndim. lia.
  - intros Hnil. unfold np_max in Hm'. cbn in Hm'. by rewrite Hnil in Hm'.
Qed.

Lemma wrapped_fold_total dt tiles : ∀ c,
  Forall (λ a, ndim a = 2%nat ∧ data a ≠ []) tiles →
  ∃ r, wrapped_fold dt c tiles = inr r.
Proof.
  induction tiles as [|a tiles IH]; intros c Hall.
  - by eexists.
  - apply Forall_cons in Hall as [[Hnd Hne] Hall].
    cbn [wrapped_fold].
    destruct (np_max_is_inr (with_data a (offset_wrapped dt c (data a)))) as [m ->].
    { cbn. unfold offset_wrapped. destruct (data a); done. }
    cbn. unfold newaxis_view. rewrite decide_False by (cbn; unfold ndim in *; cbn; lia).
    cbn. unfold xr_DataArray. rewrite decide_True by (unfold ndim in *; cbn; lia).
    cbn. destruct (IH (wrap dt (c + m)) Hall) as (r & ->). cbn. by eexists.
Qed.

(** X1.  The loop of [segment] returns exactly when every mask is a non-empty
    two-dimensional array. *)
Theorem relabel_returns_iff (dt : dtype) (tiles : list ndarray) :
  (∃ r, relabel_crops dt tiles = inr r)
  ↔ Forall (λ a, ndim a = 2%nat ∧ data a ≠ []) tiles.
Proof.
  rewrite relabel_crops_fold. split.
  - intros [r Hr]. by eapply wrapped_fold_inr_shape.
  - intros Hall. by apply wrapped_fold_total.
Qed.

Lemma np_max_functional tiles (ms ms' : list Z) :
  Forall2 (λ a m, np_max a = inr m) tiles ms →
  Forall2 (λ a m, np_max a = inr m) tiles ms' → ms = ms'.
Proof.
  intros H. revert ms'. induction H as [|a m tiles ms Ha _ IH]; intros ms' H'.
  - by apply Forall2_nil_inv_l in H' as ->.
  - apply Forall2_cons_inv_l in H' as (m' & ms'' & Ha' & H' & ->).
    rewrite Ha in Ha'. injection Ha' as <-. f_equal. by apply IH.
Qed.

(** While the counter that the code computes in exact arithmetic,
    [foldl counter_step 0 ms] for masks with the maxima [ms], stays in the
    range of the type, the loop is the run in exact arithmetic. *)
Lemma relabel_crops_exact dt tiles ms out c :
  Forall nonneg tiles →
  Forall2 (λ a m, np_max a = inr m) tiles ms →
  foldl counter_step 0 ms ≤ max_value dt →
  relabel_crops dt tiles = inr (out, c) →
  relabel_fold 0 tiles = inr (out, c).
Proof.
  intros Hnn Hms Hmax Hrun. rewrite relabel_crops_fold in Hrun.
  pose proof (wrapped_fold_inr_shape _ _ _ _ Hrun) as Hshape.
  destruct (relabel_fold_total tiles 0 Hshape) as (out' & c' & Hexact & _).
  destruct (relabel_fold_law tiles 0 out' c' ltac:(lia) Hnn Hexact)
    as (ms' & Hms' & _ & Hc' & _ & _).
  rewrite (np_max_functional _ _ _ Hms' Hms) in Hc'.
  rewrite (wrapped_fold_exact dt tiles 0 out' c') in Hrun by (done || lia).
  by rewrite <- Hrun.
Qed.

Lemma lookup_offset_positive c vs p :
  offset_positive c vs !! p = (λ v, if 0 <? v then v + c else v) <$> vs !! p.
Proof. unfold offset_positive. apply list_lookup_fmap. Qed.

(** X2.  While the counter stays in the range of the masks' type,
    relabeling changes the numbers of the segments of a tile and nothing
    else: shape and background are kept, and two pixels carry the same label
    afterwards exactly when they did before. *)
Theorem relabel_keeps_segments dt (tiles : list ndarray) ms out c :
  Forall nonneg tiles →
  Forall2 (λ a m, np_max a = inr m) tiles ms →
  foldl counter_step 0 ms ≤ max_value dt →
  relabel_crops dt tiles = inr (out, c) →
  Forall2 (λ a d,
    dims d = ["mask"; "y"; "x"]
    ∧ shape (values d) = 1%nat :: shape a
    ∧ length (data (values d)) = length (data a)
    ∧ ∀ p q vp vq vp' vq',
        data a !! p = Some vp → data a !! q = Some vq →
        data (values d) !! p = Some vp' → data (values d) !! q = Some vq' →
        (vp' = 0 ↔ vp = 0) ∧ (vp' = vq' ↔ vp = vq)) tiles out.
Proof.
  intros Hnn Hmax Hfit Hrun.
  apply (relabel_crops_exact dt tiles ms out c Hnn Hmax Hfit) in Hrun.
  clear Hmax Hfit ms.
  destruct (relabel_fold_law tiles 0 out c ltac:(lia) Hnn Hrun)
    as (ms & Hms & Hpos & _ & Hlen & Hout).
  apply Forall2_same_length_lookup. split; [done|].
  intros i a d Ha Hd. rewrite (Hout i a d Ha Hd).
  assert (Hci : 0 ≤ foldl counter_step 0 (take i ms)).
  { apply foldl_counter_step_nonneg; [lia|]. by apply Forall_take. }
  set (ci := foldl counter_step 0 (take i ms)) in *.
  cbn [relabeled dims values shape data]. split_and!; [done|done| |].
  - apply length_offset_positive.
  - intros p q vp vq vp' vq' Hp Hq Hp' Hq'.
    rewrite lookup_offset_positive, Hp in Hp'. rewrite lookup_offset_positive, Hq in Hq'.
    cbn in Hp', Hq'. injection Hp' as <-. injection Hq' as <-.
    rewrite Forall_forall in Hnn.
    pose proof (Hnn a ltac:(by eapply list_elem_of_lookup_2)) as Hna.
    unfold nonneg in Hna. rewrite Forall_forall in Hna.
    pose proof (Hna vp ltac:(by eapply list_elem_of_lookup_2)).
    pose proof (Hna vq ltac:(by eapply list_elem_of_lookup_2)).
    destruct (0 <? vp) eqn:E1; destruct (0 <? vq) eqn:E2;
      try apply Z.ltb_lt in E1; try apply Z.ltb_ge in E1;
      try apply Z.ltb_lt in E2; try apply Z.ltb_ge in E2; lia.
Qed.

Lemma relabel_fold_increase tiles : ∀ c out c' i j di dj vi vj,
  0 ≤ c → Forall nonneg tiles →
  relabel_fold c tiles = inr (out, c') →
  (i < j)%nat → out !! i = Some di → out !! j = Some dj →
  vi ∈ data (values di) → vj ∈ data (values dj) → vj ≠ 0 → vi < vj.
Proof.
  induction tiles as [|a tiles IH];
    intros c out c' i j di dj vi vj Hc Hnn Hrun Hij Hi Hj Hvi Hvj Hvj0.
  - injection Hrun as <- <-. done.
  - apply Forall_cons in Hnn as [Ha Hnn].
    destruct out as [|d out']; [done|].
    destruct (relabel_fold_head_bound _ _ _ _ _ _ Hc Ha Hrun) as (m & Hm & Hrest & Hd).
    destruct j as [|j]; [lia|]. cbn in Hj.
    destruct i as [|i]; cbn in Hi.
    + injection Hi as <-.
      destruct (relabel_fold_bounds tiles (c + m) out' c' ltac:(lia) Hnn Hrest)
        as [_ Hall].
      rewrite Forall_forall in Hall.
      specialize (Hall dj ltac:(by eapply list_elem_of_lookup_2) vj Hvj Hvj0).
      destruct (decide (vi = 0)) as [->|Hvi0]; [lia|].
      specialize (Hd vi Hvi Hvi0). lia.
    + eapply (IH (c + m) out' c' i j); eauto with lia.
Qed.

(** X3.  While the counter stays in the range of the masks' type, the first
    tile keeps its labels, and every nonzero label of a later tile is larger
    than every label of an earlier tile. *)
Theorem relabel_labels_increase dt (tiles : list ndarray) ms out c :
  Forall nonneg tiles →
  Forall2 (λ a m, np_max a = inr m) tiles ms →
  foldl counter_step 0 ms ≤ max_value dt →
  relabel_crops dt tiles = inr (out, c) →
  (∀ a d, tiles !! 0%nat = Some a → out !! 0%nat = Some d →
          data (values d) = data a)
  ∧ ∀ i j di dj vi vj,
      (i < j)%nat → out !! i = Some di → out !! j = Some dj →
      vi ∈ data (values di) → vj ∈ data (values dj) → vj ≠ 0 → vi < vj.
Proof.
  intros Hnn Hmax Hfit Hrun.
  apply (relabel_crops_exact dt tiles ms out c Hnn Hmax Hfit) in Hrun.
  clear Hmax Hfit ms. split.
  - destruct (relabel_fold_law tiles 0 out c ltac:(lia) Hnn Hrun)
      as (ms & _ & _ & _ & _ & Hout).
    intros a d Ha Hd. rewrite (Hout 0%nat a d Ha Hd). cbn.
    apply offset_positive_0.
  - intros i j di dj vi vj. by apply (relabel_fold_increase tiles 0 out c).
Qed.

(** X4.  The counter of the loop as the code computes it, while it stays in
    the range of the masks' type: a tile with local maximum [m > 0] takes the
    counter from [c] to [2 c + m], because the maximum is read after the
    offset; a tile without segment leaves it. *)
Theorem relabel_counter_law dt (tiles : list ndarray) ms out c :
  Forall nonneg tiles →
  Forall2 (λ a m, np_max a = inr m) tiles ms →
  foldl counter_step 0 ms ≤ max_value dt →
  relabel_crops dt tiles = inr (out, c) →
  c = foldl counter_step 0 ms.
Proof.
  intros Hnn Hmax Hfit Hrun.
  apply (relabel_crops_exact dt tiles ms out c Hnn Hmax Hfit) in Hrun.
  destruct (relabel_fold_law tiles 0 out c ltac:(lia) Hnn Hrun)
    as (ms' & Hms & _ & Hc & _ & _).
  by rewrite (np_max_functional _ _ _ Hmax Hms).
Qed.

Lemma foldl_counter_step_ones ms : ∀ c,
  Forall (λ m, m = 1) ms →
  foldl counter_step c ms = 2 ^ Z.of_nat (length ms) * (c + 1) - 1.
Proof.
  induction ms as [|m ms IH]; intros c Hms.
  - cbn. lia.
  - apply Forall_cons in Hms as [-> Hms]. cbn [foldl length].
    rewrite IH by done. unfold counter_step. cbn.
    rewrite Nat2Z.inj_succ, Z.pow_succ_r by lia. lia.
Qed.

(** X5.  Tiles with a single segment each, as many as the masks' type has
    room for: the segment of tile [i] gets the label [2 ^ i], and the counter
    ends at [2 ^ n - 1] for [n] tiles. *)
Theorem relabel_single_segments dt (tiles : list ndarray) out c :
  Forall (λ a, nonneg a ∧ np_max a = inr 1) tiles →
  2 ^ Z.of_nat (length tiles) - 1 ≤ max_value dt →
  relabel_crops dt tiles = inr (out, c) →
  c = 2 ^ Z.of_nat (length tiles) - 1
  ∧ ∀ i d v, out !! i = Some d → v ∈ data (values d) → v ≠ 0 →
             v = 2 ^ Z.of_nat i.
Proof.
  intros Hall Hfit Hrun.
  assert (Hnn : Forall nonneg tiles).
  { eapply Forall_impl; [exact Hall|]. by intros a [? _]. }
  assert (Hones0 : Forall2 (λ a m, np_max a = inr m) tiles
                     (replicate (length tiles) 1)).
  { clear -Hall. induction Hall as [|a tiles [_ Ha] _ IH]; constructor; done. }
  apply (relabel_crops_exact dt tiles _ out c Hnn Hones0) in Hrun.
  2:{ rewrite foldl_counter_step_ones by apply Forall_replicate, eq_refl.
      rewrite length_replicate. lia. }
  destruct (relabel_fold_law tiles 0 out c ltac:(lia) Hnn Hrun)
    as (ms & Hms & _ & Hc & Hlen & Hout).
  assert (Hones : Forall (λ m, m = 1) ms).
  { apply Forall_forall. intros m (i & Hi)%list_elem_of_lookup_1.
    destruct (Forall2_lookup_r _ _ _ _ _ Hms Hi) as (a & Ha & Hmax).
    rewrite Forall_forall in Hall.
    destruct (Hall a ltac:(by eapply list_elem_of_lookup_2)) as [_ Hone].
    rewrite Hone in Hmax. by injection Hmax. }
  split.
  - rewrite Hc, foldl_counter_step_ones by done.
    rewrite <- (Forall2_length _ _ _ Hms). lia.
  - intros i d v Hd Hv Hv0.
    destruct (lookup_lt_is_Some_2 tiles i) as [a Ha].
    { rewrite <- Hlen. by eapply lookup_lt_Some. }
    rewrite (Hout i a d Ha Hd) in Hv. cbn in Hv.
    rewrite foldl_counter_step_ones in Hv by (by apply Forall_take).
    rewrite length_take, Nat.min_l in Hv.
    2:{ rewrite <- (Forall2_length _ _ _ Hms). apply Nat.lt_le_incl.
        by eapply lookup_lt_Some. }
    apply elem_of_offset_positive in Hv as (u & Hu & ->).
    rewrite Forall_forall in Hall.
    destruct (Hall a ltac:(by eapply list_elem_of_lookup_2)) as [Hna Hone].
    apply np_max_inv in Hone as [_ Hle]. specialize (Hle u Hu).
    unfold nonneg in Hna. rewrite Forall_forall in Hna. specialize (Hna u Hu).
    destruct (0 <? u) eqn:E; [apply Z.ltb_lt in E|apply Z.ltb_ge in E]; lia.
Qed.

Lemma foldl_counter_step_total ms : ∀ c,
  0 ≤ c → Forall (λ m, 0 ≤ m) ms →
  c + total ms ≤ foldl counter_step c ms
  ∧ (foldl counter_step c ms = c + total ms
     ↔ (length (with_segments ms) + (if (0 <? c)%Z then 1 else 0) ≤ 1)%nat).
Proof.
  induction ms as [|m ms IH]; intros c Hc Hms.
  - cbn. split; [lia|]. destruct (0 <? c); cbn; split; intros; lia.
  - apply Forall_cons in Hms as [Hm Hms]. cbn [foldl total foldr].
    fold (total ms).
    destruct (IH (counter_step c m) (counter_step_nonneg c m Hc Hm) Hms)
      as [Hle Hiff].
    unfold with_segments in *. rewrite filter_cons.
    unfold counter_step in *.
    destruct (Z.ltb_spec 0 m) as [Hpos|Hzero].
    + rewrite decide_True by done. cbn [length].
      destruct (Z.ltb_spec 0 (2 * c + m)) as [_|?]; [|lia].
      split; [lia|]. destruct (Z.ltb_spec 0 c) as [Hc1|Hc0].
      * split; [intros; lia|intros; lia].
      * split; [intros; lia|]. intros Hlen. assert (c = 0) as -> by lia.
        cbn in Hiff |- *. apply proj2 in Hiff. rewrite Hiff by lia. lia.
    + rewrite decide_False by lia. assert (m = 0) as -> by lia.
      rewrite Z.add_0_r in *. split; [lia|]. rewrite Hiff. cbn. reflexivity.
Qed.

(** X21.  While the counter stays in the range of the masks' type, it is at
    least the number of local labels of all tiles, and equal to it exactly
    when at most one tile has a segment. *)
Theorem relabel_counter_total dt (tiles : list ndarray) ms out c :
  Forall nonneg tiles →
  Forall2 (λ a m, np_max a = inr m) tiles ms →
  foldl counter_step 0 ms ≤ max_value dt →
  relabel_crops dt tiles = inr (out, c) →
  total ms ≤ c
  ∧ (c = total ms ↔ (length (with_segments ms) ≤ 1)%nat).
Proof.
  intros Hnn Hmax Hfit Hrun.
  apply (relabel_crops_exact dt tiles ms out c Hnn Hmax Hfit) in Hrun.
  destruct (relabel_fold_law tiles 0 out c ltac:(lia) Hnn Hrun)
    as (ms' & Hms & Hpos & Hc & _ & _).
  rewrite (np_max_functional _ _ _ Hms Hmax) in Hpos, Hc. clear Hms ms'.
  destruct (foldl_counter_step_total ms 0 ltac:(lia) Hpos) as [Hle Hiff].
  rewrite <- Hc in Hle, Hiff. cbn in Hiff. rewrite Nat.add_0_r in Hiff.
  split; [lia|]. rewrite <- Hiff. split; intros; lia.
Qed.

Lemma three_tiles_fit :
  Forall nonneg Examples.three_tiles
  ∧ Forall2 (λ a m, np_max a = inr m) Examples.three_tiles [2; 1; 1]
  ∧ foldl counter_step 0 [2; 1; 1] ≤ max_value int32
  ∧ relabel_crops int32 Examples.three_tiles
    = inr ([Examples.mask_array 1 2 [1; 2]; Examples.mask_array 1 1 [3];
            Examples.mask_array 1 1 [6]], 11).
Proof.
  split_and!.
  - repeat constructor; lia.
  - repeat constructor.
  - vm_compute. discriminate.
  - vm_compute. reflexivity.
Defined.

Lemma relabel_keeps_segments_witness :
  (Forall nonneg Examples.three_tiles
   ∧ Forall2 (λ a m, np_max a = inr m) Examples.three_tiles [2; 1; 1]
   ∧ foldl counter_step 0 [2; 1; 1] ≤ max_value int32
   ∧ relabel_crops int32 Examples.three_tiles
     = inr ([Examples.mask_array 1 2 [1; 2]; Examples.mask_array 1 1 [3];
             Examples.mask_array 1 1 [6]], 11))
  ∧ Forall2 (λ a d,
      dims d = ["mask"; "y"; "x"]
      ∧ shape (values d) = 1%nat :: shape a
      ∧ length (data (values d)) = length (data a)
      ∧ ∀ p q vp vq vp' vq',
          data a !! p = Some vp → data a !! q = Some vq →
          data (values d) !! p = Some vp' → data (values d) !! q = Some vq' →
          (vp' = 0 ↔ vp = 0) ∧ (vp' = vq' ↔ vp = vq))
      Examples.three_tiles
      [Examples.mask_array 1 2 [1; 2]; Examples.mask_array 1 1 [3];
       Examples.mask_array 1 1 [6]].
Proof.
  split; [exact three_tiles_fit|].
  destruct three_tiles_fit as (H1 & H2 & H3 & H4).
  exact (relabel_keeps_segments int32 Examples.three_tiles _ _ _ H1 H2 H3 H4).
Defined.

Lemma relabel_labels_increase_witness :
  (Forall nonneg Examples.three_tiles
   ∧ Forall2 (λ a m, np_max a = inr m) Examples.three_tiles [2; 1; 1]
   ∧ foldl counter_step 0 [2; 1; 1] ≤ max_value int32
   ∧ relabel_crops int32 Examples.three_tiles
     = inr ([Examples.mask_array 1 2 [1; 2]; Examples.mask_array 1 1 [3];
             Examples.mask_array 1 1 [6]], 11))
  ∧ ∀ i j di dj vi vj,
      (i < j)%nat →
      [Examples.mask_array 1 2 [1; 2]; Examples.mask_array 1 1 [3];
       Examples.mask_array 1 1 [6]] !! i = Some di →
      [Examples.mask_array 1 2 [1; 2]; Examples.mask_array 1 1 [3];
       Examples.mask_array 1 1 [6]] !! j = Some dj →
      vi ∈ data (values di) → vj ∈ data (values dj) → vj ≠ 0 → vi < vj.
Proof.
  split; [exact three_tiles_fit|].
  destruct three_tiles_fit as (H1 & H2 & H3 & H4).
  exact (proj2 (relabel_labels_increase int32 Examples.three_tiles _ _ _ H1 H2 H3 H4)).
Defined.

Lemma relabel_counter_law_witness :
  (Forall nonneg Examples.three_tiles
   ∧ Forall2 (λ a m, np_max a = inr m) Examples.three_tiles [2; 1; 1]
   ∧ foldl counter_step 0 [2; 1; 1] ≤ max_value int32
   ∧ relabel_crops int32 Examples.three_tiles
     = inr ([Examples.mask_array 1 2 [1; 2]; Examples.mask_array 1 1 [3];
             Examples.mask_array 1 1 [6]], 11))
  ∧ 11 = foldl counter_step 0 [2; 1; 1].
Proof.
  split; [exact three_tiles_fit|].
  destruct three_tiles_fit as (H1 & H2 & H3 & H4).
  exact (relabel_counter_law int32 Examples.three_tiles _ _ _ H1 H2 H3 H4).
Defined.

Lemma relabel_single_segments_witness :
  Forall (λ a, nonneg a ∧ np_max a = inr 1)
    [Examples.tile 1 2 [0; 1]; Examples.tile 1 1 [1]; Examples.tile 2 1 [1; 0]]
  ∧ 2 ^ Z.of_nat 3 - 1 ≤ max_value uint8
  ∧ relabel_crops uint8
      [Examples.tile 1 2 [0; 1]; Examples.tile 1 1 [1]; Examples.tile 2 1 [1; 0]]
    = inr ([Examples.mask_array 1 2 [0; 1]; Examples.mask_array 1 1 [2];
            Examples.mask_array 2 1 [4; 0]], 7)
  ∧ 7 = 2 ^ Z.of_nat 3 - 1
  ∧ ∀ i d v,
      [Examples.mask_array 1 2 [0; 1]; Examples.mask_array 1 1 [2];
       Examples.mask_array 2 1 [4; 0]] !! i = Some d →
      v ∈ data (values d) → v ≠ 0 → v = 2 ^ Z.of_nat i.
Proof.
  assert (H1 : Forall (λ a, nonneg a ∧ np_max a = inr 1)
                 [Examples.tile 1 2 [0; 1]; Examples.tile 1 1 [1];
                  Examples.tile 2 1 [1; 0]]).
  { repeat constructor; lia. }
  assert (H2 : 2 ^ Z.of_nat 3 - 1 ≤ max_value uint8) by (vm_compute; discriminate).
  assert (H3 : relabel_crops uint8
                 [Examples.tile 1 2 [0; 1]; Examples.tile 1 1 [1];
                  Examples.tile 2 1 [1; 0]]
               = inr ([Examples.mask_array 1 2 [0; 1]; Examples.mask_array 1 1 [2];
                       Examples.mask_array 2 1 [4; 0]], 7))
    by (vm_compute; reflexivity).
  split; [exact H1|]. split; [exact H2|]. split; [exact H3|].
  exact (relabel_single_segments uint8 _ _ _ H1 H2 H3).
Defined.

Lemma relabel_counter_total_witness :
  (Forall nonneg Examples.three_tiles
   ∧ Forall2 (λ a m, np_max a = inr m) Examples.three_tiles [2; 1; 1]
   ∧ foldl counter_step 0 [2; 1; 1] ≤ max_value int32
   ∧ relabel_crops int32 Examples.three_tiles
     = inr ([Examples.mask_array 1 2 [1; 2]; Examples.mask_array 1 1 [3];
             Examples.mask_array 1 1 [6]], 11))
  ∧ total [2; 1; 1] ≤ 11
  ∧ (11 = total [2; 1; 1] ↔ (length (with_segments [2; 1; 1]%Z) ≤ 1)%nat).
Proof.
  split; [exact three_tiles_fit|].
  destruct three_tiles_fit as (H1 & H2 & H3 & H4).
  exact (relabel_counter_total int32 Examples.three_tiles _ _ _ H1 H2 H3 H4).
Defined.

End RelabelLaws.

(** ** [segment] from the first statement to the last *)

Module PipelineLaws.
Import SegmentProofs.

Section pipeline_laws.
Context `{ext : Externals} `{ops : ContainerOps}.

Lemma segment_tail_unfold masks xcoord ycoord key (w : world) :
  segment_tail masks xcoord ycoord key w
  = match Relabel.relabel_crops mask_dtype masks with
    | inl e => (inl e, w)
    | inr r =>
        match uncrop_img r.1 xcoord ycoord (img_shape (container w)) "mask" with
        | inl e => (inl e, add_events w [EvUncrop r.1])
        | inr merged =>
            match add_img (container w) merged key "mask" with
            | inl e => (inl e, add_events w [EvUncrop r.1; EvAddImg key])
            | inr img' =>
                (inr (), {| container := img';
                            trace := trace w ++ [EvUncrop r.1; EvAddImg key] |})
            end
        end
    end.
Proof.
  unfold segment_tail, get_shape, relabel_and_merge, call_add_img, get_container,
    put_container, emit, lift, add_events, mbind, ST_bind, mret, ST_ret.
  destruct (Relabel.relabel_crops mask_dtype masks) as [e|r]; [done|]. cbn.
  destruct (uncrop_img _ _ _ _ _) as [e|d]; [done|]. cbn.
  destruct (add_img _ _ _ _) as [e|c]; cbn; by rewrite <- app_assoc.
Qed.

Lemma segment_unfold img_id model_group model_instance model_kwargs channel_idx
    xs ys key_added (w : world) :
  segment img_id model_group model_instance model_kwargs channel_idx xs ys key_added w
  = match select_model model_group model_instance with
    | inl e => (inl e, w)
    | inr sm =>
        let w1 := add_events w [EvCropEqually xs ys img_id] in
        match crop_equally (container w) xs ys img_id with
        | inl e => (inl e, w1)
        | inr (crops, xcoord, ycoord) =>
            match channel_slice_of channel_idx crops with
            | inl e => (inl e, w1)
            | inr sl =>
                match mapM (tile_step sl sm model_kwargs) crops w1 with
                | (inl e, w2) => (inl e, w2)
                | (inr masks, w2) =>
                    segment_tail masks xcoord ycoord
                      (output_key model_group key_added) w2
                end
            end
        end
    end.
Proof.
  unfold segment. unfold mbind at 1, ST_bind at 1, lift at 1.
  destruct (select_model model_group model_instance) as [e|sm]; [done|].
  unfold mbind at 1, ST_bind at 1, call_crop_equally.
  unfold mbind at 1, ST_bind at 1, emit at 1.
  unfold mbind at 1, ST_bind at 1, get_container at 1. cbn [container].
  unfold lift at 1. cbn zeta.
  destruct (crop_equally (container w) xs ys img_id) as [e|[[crops xcoord] ycoord]];
    [done|].
  unfold mbind at 1, ST_bind at 1, lift at 1.
  destruct (channel_slice_of channel_idx crops) as [e|sl]; [done|].
  unfold mbind at 1, ST_bind at 1. reflexivity.
Qed.

Lemma mapM_tiles_selected sl sm kw channel_idx crops : ∀ (w : world),
  Forall (λ x, backend_input sl x = inr (selected channel_idx x)) crops →
  mapM (tile_step sl sm kw) crops w
  = mapM (call_backend sm kw) (selected channel_idx <$> crops) w.
Proof.
  induction crops as [|x crops IH]; intros w Hall; [done|].
  apply Forall_cons in Hall as [Hx Hall].
  assert (tile_step sl sm kw x w = call_backend sm kw (selected channel_idx x) w)
    as Heq.
  { unfold tile_step, call_backend. unfold mbind at 1, ST_bind at 1, lift at 1.
    by rewrite Hx. }
  rewrite fmap_cons, !mapM_ST_cons, Heq.
  destruct (call_backend sm kw (selected channel_idx x) w) as [[e|m] w1]; [done|].
  by rewrite (IH w1 Hall).
Qed.

(** C8.  The backend is called on each tile in order, and [segment] goes
    on with what these calls return.  With an integer [channel_idx] the
    argument of the call is that channel of the tile and nothing else (for
    tiles whose leading dimension is [channels] and has that index); with
    any other [channel_idx] it is the whole array of the tile, all channels
    unchanged (for tiles that all have the channel count of the first
    one). *)
Theorem segment_channel_selection img_id model_group model_instance model_kwargs
    channel_idx xs ys key_added (w : world) sm crops xcoord ycoord :
  select_model model_group model_instance = inr sm →
  crop_equally (container w) xs ys img_id = inr (crops, xcoord, ycoord) →
  match channel_idx with
  | ArgInt k =>
      Forall (λ x, ∃ c rest ds,
                dims x = "channels" :: ds ∧ shape (values x) = c :: rest
                ∧ wf_array (values x) ∧ - Z.of_nat c ≤ k < Z.of_nat c) crops
  | _ =>
      ∃ c0 n, head crops = Some c0 ∧ channels_shape0 c0 = inr n
              ∧ Forall (λ y, wf_DataArray y ∧ channels_shape0 y = inr n) crops
  end →
  segment img_id model_group model_instance model_kwargs channel_idx xs ys key_added w
  = (masks ← mapM (call_backend sm model_kwargs) (selected channel_idx <$> crops);
     segment_tail masks xcoord ycoord (output_key model_group key_added))
      (add_events w [EvCropEqually xs ys img_id]).
Proof.
  intros Hsm Hcrop Htiles. rewrite segment_unfold, Hsm. cbn zeta. rewrite Hcrop.
  assert (∃ sl, channel_slice_of channel_idx crops = inr sl
                ∧ Forall (λ x, backend_input sl x = inr (selected channel_idx x))
                    crops) as (sl & -> & Hsel).
  { assert (Hother : (∃ c0 n, head crops = Some c0 ∧ channels_shape0 c0 = inr n
                       ∧ Forall (λ y, wf_DataArray y ∧ channels_shape0 y = inr n) crops)
                     → ∃ n, match crops with
                            | [] => raise (IndexError "list index out of range")
                            | c0 :: _ => n ← channels_shape0 c0; mret (Slice 0 n)
                            end = inr (Slice 0 n)
                            ∧ Forall (λ x, backend_input (Slice 0 n) x = inr (values x))
                                crops).
    { intros (c0 & n & Hhead & Hn & Hall). exists n.
      destruct crops as [|c0' rest]; [done|]. injection Hhead as ->.
      rewrite Hn. split; [done|].
      eapply Forall_impl; [exact Hall|]. cbn. intros y [Hwf Hy].
      unfold channels_shape0 in Hy.
      destruct (axis_of (dims y) "channels") as [p|] eqn:Hax; [|done].
      injection Hy as Hy.
      pose proof (axis_of_lt _ _ _ Hax) as Hp. destruct Hwf as [Hdims Hwfa].
      rewrite Hdims in Hp.
      destruct (lookup_lt_is_Some_2 (shape (values y)) p Hp) as [d Hd].
      rewrite Hd in Hy. cbn in Hy. subst d.
      by apply (backend_input_slice_all y n p n). }
    destruct channel_idx as [|k|s].
    - destruct (Hother Htiles) as (n & Hsl & Hall). by exists (Slice 0 n).
    - exists (IntIndex k). split; [done|].
      eapply Forall_impl; [exact Htiles|]. cbn.
      intros x (c & rest & ds & Hdims & Hsh & Hwf & Hk).
      rewrite (backend_input_int_plane x k c rest ds Hdims Hsh Hwf Hk).
      unfold channel_block. by rewrite Hsh.
    - destruct (Hother Htiles) as (n & Hsl & Hall). by exists (Slice 0 n). }
  rewrite (mapM_tiles_selected sl sm model_kwargs channel_idx crops _ Hsel).
  reflexivity.
Qed.

Lemma mapM_tiles_inr sl sm kw crops : ∀ (w w' : world) masks,
  mapM (tile_step sl sm kw) crops w = (inr masks, w') →
  ∃ arrs, Forall2 (λ x a, backend_input sl x = inr a) crops arrs
          ∧ Forall2 (λ a m, Backend.segment sm a kw = inr m) arrs masks
          ∧ w' = add_events w (EvBackend <$> arrs).
Proof.
  induction crops as [|x crops IH]; intros w w' masks Hrun.
  - cbn in Hrun. injection Hrun as <- <-. exists [].
    rewrite add_events_nil. by split_and!.
  - cbn [mapM] in Hrun. unfold mbind at 1, ST_bind at 1 in Hrun.
    destruct (backend_input sl x) as [e|arr] eqn:Hx.
    { unfold tile_step, mbind, ST_bind, lift in Hrun. by rewrite Hx in Hrun. }
    destruct (Backend.segment sm arr kw) as [e|m] eqn:Hm.
    { by rewrite (tile_step_backend_raises _ _ _ _ _ _ _ Hx Hm) in Hrun. }
    rewrite (tile_step_ok _ _ _ _ _ _ _ Hx Hm) in Hrun.
    unfold mbind at 1, ST_bind at 1 in Hrun.
    destruct (mapM (tile_step sl sm kw) crops (add_events w [EvBackend arr]))
      as [[e|ms] w2] eqn:Hrest; [done|].
    cbn in Hrun. injection Hrun as <- <-.
    destruct (IH _ _ _ Hrest) as (arrs & Hin & Hseg & ->).
    exists (arr :: arrs). split_and!; [by constructor|by constructor|].
    by rewrite add_events_app.
Qed.

Lemma mapM_tiles_container sl sm kw crops (w : world) :
  container (mapM (tile_step sl sm kw) crops w).2 = container w.
Proof.
  destruct (mapM_tiles_calls sl sm kw crops w) as (arrs & -> & _). done.
Qed.

Lemma select_model_group model_group model_instance sm :
  select_model model_group model_instance = inr sm →
  model_group ∈ ["skimage_blob"; "watershed"; "tensorflow"].
Proof.
  unfold select_model. repeat case_decide; subst; try done; set_solver.
Qed.

Lemma output_key_lower model_group key_added :
  model_group ∈ ["skimage_blob"; "watershed"; "tensorflow"] →
  output_key model_group key_added
  = match key_added with
    | Some k => k
    | None => "segmented_" +:+ model_group
    end.
Proof.
  intros Hin. destruct key_added; [done|]. unfold output_key.
  assert (model_group = "skimage_blob" ∨ model_group = "watershed"
          ∨ model_group = "tensorflow") as [-> | [-> | ->]] by set_solver;
    reflexivity.
Qed.

(** X6.  [segment] changes the container only by its last statement: when it
    raises, whatever the statement that raised, the container is the one it
    was called with. *)
Theorem segment_raises_container_unchanged img_id model_group model_instance
    model_kwargs channel_idx xs ys key_added (w : world) e :
  (segment img_id model_group model_instance model_kwargs channel_idx xs ys
     key_added w).1 = inl e →
  container (segment img_id model_group model_instance model_kwargs channel_idx
               xs ys key_added w).2 = container w.
Proof.
  rewrite segment_unfold.
  destruct (select_model model_group model_instance) as [e0|sm]; [done|]. cbn zeta.
  destruct (crop_equally (container w) xs ys img_id) as [e0|[[crops xcoord] ycoord]];
    [done|].
  destruct (channel_slice_of channel_idx crops) as [e0|sl]; [done|].
  pose proof (mapM_tiles_container sl sm model_kwargs crops
                (add_events w [EvCropEqually xs ys img_id])) as Hc.
  destruct (mapM (tile_step sl sm model_kwargs) crops _) as [[e0|masks] w2];
    cbn [fst snd] in Hc |- *; [done|].
  rewrite segment_tail_unfold.
  destruct (Relabel.relabel_crops mask_dtype masks) as [e0|r]; [done|].
  destruct (uncrop_img _ _ _ _ _) as [e0|merged]; [done|].
  destruct (add_img _ _ _ _) as [e0|img']; [done|]. done.
Qed.

(** What a run of [segment] that returns has done, step by step. *)
Lemma segment_run_returns img_id model_group model_instance model_kwargs
    channel_idx xs ys key_added (w : world) :
  passable model_kwargs →
  (segment img_id model_group model_instance model_kwargs channel_idx xs ys
     key_added w).1 = inr () →
  ∃ sm crops xcoord ycoord sl arrs masks relabeled c merged img',
    let key := match key_added with
               | Some k => k
               | None => "segmented_" +:+ model_group
               end in
    model_group ∈ ["skimage_blob"; "watershed"; "tensorflow"]
    ∧ select_model model_group model_instance = inr sm
    ∧ crop_equally (container w) xs ys img_id = inr (crops, xcoord, ycoord)
    ∧ channel_slice_of channel_idx crops = inr sl
    ∧ Forall2 (λ x a, backend_input sl x = inr a) crops arrs
    ∧ Forall2 (λ a m, Backend.segment sm a model_kwargs = inr m) arrs masks
    ∧ Relabel.relabel_crops mask_dtype masks = inr (relabeled, c)
    ∧ uncrop_img relabeled xcoord ycoord (img_shape (container w)) "mask" = inr merged
    ∧ add_img (container w) merged key "mask" = inr img'
    ∧ (segment img_id model_group model_instance model_kwargs channel_idx xs ys
         key_added w).2
      = {| container := img';
           trace := trace w ++ EvCropEqually xs ys img_id
                      :: (EvBackend <$> arrs) ++ [EvUncrop relabeled; EvAddImg key] |}.
Proof.
  intros _. rewrite segment_unfold.
  destruct (select_model model_group model_instance) as [e0|sm] eqn:Hsm; [done|].
  pose proof (select_model_group _ _ _ Hsm) as Hgroup. cbn zeta.
  destruct (crop_equally (container w) xs ys img_id)
    as [e0|[[crops xcoord] ycoord]] eqn:Hcrop; [done|].
  destruct (channel_slice_of channel_idx crops) as [e0|sl] eqn:Hsl; [done|].
  destruct (mapM (tile_step sl sm model_kwargs) crops _) as [[e0|masks] w2] eqn:Hrun;
    [done|].
  destruct (mapM_tiles_inr _ _ _ _ _ _ _ Hrun) as (arrs & Hin & Hseg & ->).
  rewrite segment_tail_unfold, (output_key_lower _ _ Hgroup). cbn [container add_events].
  destruct (Relabel.relabel_crops mask_dtype masks) as [e0|[relabeled c]] eqn:Hrel; [done|].
  cbn [fst].
  destruct (uncrop_img _ _ _ _ _) as [e0|merged] eqn:Hun; [done|].
  destruct (add_img _ _ _ _) as [e0|img'] eqn:Hadd; [done|].
  intros _. exists sm, crops, xcoord, ycoord, sl, arrs, masks, relabeled, c, merged, img'.
  cbn zeta. split_and!; try done.
  cbn. by rewrite <- !app_assoc.
Qed.

(** X7.  When [segment] returns, for keywords that the call of the backend can
    pass on: the backend was built for one of the three families, every tile
    went to the backend once, in order, the masks were relabeled and merged,
    and the merged mask was added under [key_added], or under [segmented_]
    followed by the family name. *)
Theorem segment_returns img_id model_group model_instance model_kwargs
    channel_idx xs ys key_added (w : world) :
  passable model_kwargs →
  (segment img_id model_group model_instance model_kwargs channel_idx xs ys
     key_added w).1 = inr () →
  ∃ sm crops xcoord ycoord sl arrs masks relabeled c merged img',
    let key := match key_added with
               | Some k => k
               | None => "segmented_" +:+ model_group
               end in
    model_group ∈ ["skimage_blob"; "watershed"; "tensorflow"]
    ∧ select_model model_group model_instance = inr sm
    ∧ crop_equally (container w) xs ys img_id = inr (crops, xcoord, ycoord)
    ∧ channel_slice_of channel_idx crops = inr sl
    ∧ Forall2 (λ x a, backend_input sl x = inr a) crops arrs
    ∧ Forall2 (λ a m, Backend.segment sm a model_kwargs = inr m) arrs masks
    ∧ Relabel.relabel_crops mask_dtype masks = inr (relabeled, c)
    ∧ uncrop_img relabeled xcoord ycoord (img_shape (container w)) "mask" = inr merged
    ∧ add_img (container w) merged key "mask" = inr img'
    ∧ (segment img_id model_group model_instance model_kwargs channel_idx xs ys
         key_added w).2
      = {| container := img';
           trace := trace w ++ EvCropEqually xs ys img_id
                      :: (EvBackend <$> arrs) ++ [EvUncrop relabeled; EvAddImg key] |}.
Proof.
  intros Hkw Hrun. by apply segment_run_returns.
Qed.

Lemma bind_arguments_passable (kw : gmap string kwval) :
  passable kw → Backend.bind_arguments kw = inr ().
Proof.
  intros [Harr Hself]. unfold Backend.bind_arguments.
  rewrite Harr, Hself. rewrite !decide_False by (by intros []). done.
Qed.

(** X8.  An unknown method name for the blob family is not noticed when the
    backend is built: [segment] crops the image first and raises on the
    first tile, with the container as it was. *)
Theorem segment_blob_unknown_method img_id model_instance model_kwargs
    channel_idx xs ys key_added (w : world) x rest xcoord ycoord sl arr :
  passable model_kwargs →
  model_instance ≠ InstanceName "log" → model_instance ≠ InstanceName "dog" →
  model_instance ≠ InstanceName "doh" →
  crop_equally (container w) xs ys img_id = inr (x :: rest, xcoord, ycoord) →
  channel_slice_of channel_idx (x :: rest) = inr sl →
  backend_input sl x = inr arr →
  segment img_id "skimage_blob" model_instance model_kwargs channel_idx xs ys
    key_added w
  = (inl (ValueError ("did not recognize self.model "
                      +:+ Backend.str_of_model model_instance)),
     {| container := container w;
        trace := trace w ++ [EvCropEqually xs ys img_id; EvBackend arr] |}).
Proof.
  intros Hkw H1 H2 H3 Hcrop Hsl Hx. rewrite segment_unfold.
  change (select_model "skimage_blob" model_instance)
    with (inr (Backend.SegmentationModelBlob model_instance)
          : result Backend.SegmentationModel).
  cbn zeta. rewrite Hcrop, Hsl.
  rewrite (mapM_tiles_backend_raises sl _ model_kwargs [] [] [] x arr
             (ValueError ("did not recognize self.model "
                          +:+ Backend.str_of_model model_instance)) rest);
    [|constructor|constructor|done|].
  - unfold add_events. cbn. by rewrite <- app_assoc.
  - unfold Backend.segment. rewrite (bind_arguments_passable _ Hkw).
    unfold Backend._segment, Backend.Blob_segment. cbn [mbind result_bind].
    by rewrite !decide_False.
Qed.

Lemma mapM_ST_ext {S A B} (f g : A → ST S B) l :
  (∀ x s, f x s = g x s) → ∀ s, mapM f l s = mapM g l s.
Proof.
  intros Hfg. induction l as [|x l IH]; intros s; [done|].
  cbn [mapM]. unfold mbind, ST_bind. rewrite Hfg.
  destruct (g x s) as [[e|b] s1]; [done|]. by rewrite IH.
Qed.

(** X9.  The watershed family uses neither [model_instance] nor any keyword
    other than [thresh] and [geq], among the keywords that the call of the
    backend can pass on. *)
Theorem segment_watershed_ignores img_id m m' (kw kw' : gmap string kwval)
    channel_idx xs ys key_added (w : world) :
  passable kw → passable kw' →
  kw !! "thresh" = kw' !! "thresh" → kw !! "geq" = kw' !! "geq" →
  segment img_id "watershed" m kw channel_idx xs ys key_added w
  = segment img_id "watershed" m' kw' channel_idx xs ys key_added w.
Proof.
  intros Hkw Hkw' Ht Hg. rewrite !segment_unfold.
  change (select_model "watershed" m)
    with (inr (Backend.SegmentationModelWatershed m) : result Backend.SegmentationModel).
  change (select_model "watershed" m')
    with (inr (Backend.SegmentationModelWatershed m') : result Backend.SegmentationModel).
  cbn zeta.
  destruct (crop_equally (container w) xs ys img_id) as [e|[[crops xcoord] ycoord]];
    [done|].
  destruct (channel_slice_of channel_idx crops) as [e|sl]; [done|].
  rewrite (mapM_ST_ext (tile_step sl (Backend.SegmentationModelWatershed m) kw)
             (tile_step sl (Backend.SegmentationModelWatershed m') kw')); [done|].
  intros x s. unfold tile_step, Backend.segment.
  rewrite !bind_arguments_passable by done.
  unfold Backend._segment, Backend.Watershed_segment. by rewrite Ht, Hg.
Qed.


(** X11.  An integer [channel_idx] outside the channels of the first tile makes
    [segment] raise [IndexError] before the backend is called. *)
Theorem segment_channel_out_of_range img_id model_group model_instance
    model_kwargs (k : Z) xs ys key_added (w : world) sm x rest xcoord ycoord p d :
  select_model model_group model_instance = inr sm →
  crop_equally (container w) xs ys img_id = inr (x :: rest, xcoord, ycoord) →
  axis_of (dims x) "channels" = Some p →
  shape (values x) !! p = Some d →
  ¬ (- Z.of_nat d ≤ k < Z.of_nat d) →
  ∃ msg,
    segment img_id model_group model_instance model_kwargs (ArgInt k) xs ys
      key_added w
    = (inl (IndexError msg),
       {| container := container w;
          trace := trace w ++ [EvCropEqually xs ys img_id] |}).
Proof.
  intros Hsm Hcrop Hax Hd Hk. eexists. rewrite segment_unfold, Hsm. cbn zeta.
  rewrite Hcrop. cbn [channel_slice_of mret result_ret mapM].
  unfold mbind at 1, ST_bind at 1.
  unfold tile_step at 1. unfold mbind at 1, ST_bind at 1, lift at 1.
  unfold backend_input, isel. rewrite Hax, Hd. cbn [default from_option id].
  rewrite decide_False by done. reflexivity.
Qed.

End pipeline_laws.

Lemma segment_channel_selection_witness :
  let tiles := [SpecOps.window Examples.small_image 0 0 2 2;
                SpecOps.window Examples.small_image 2 0 2 2] in
  crop_equally (ContainerOps := SpecOps.spec_ops)
    (container Examples.small_world) (Some 2) (Some 2) "image"
  = inr (tiles, [0; 2]%nat, [0; 0]%nat)
  ∧ selected (ArgInt 0) <$> tiles
    = [{| shape := [2; 2]%nat; data := [0; 1; 0; 0] |};
       {| shape := [2; 2]%nat; data := [0; 0; 1; 0] |}]
  ∧ selected ArgNone <$> tiles
    = [{| shape := [1; 2; 2]%nat; data := [0; 1; 0; 0] |};
       {| shape := [1; 2; 2]%nat; data := [0; 0; 1; 0] |}]
  ∧ segment (ext := Examples.demo_externals) (ops := SpecOps.spec_ops)
      "image" "watershed" InstanceNone ∅ (ArgInt 0) (Some 2) (Some 2) None
      Examples.small_world
    = (masks ← mapM (call_backend (ext := Examples.demo_externals)
                       (Backend.SegmentationModelWatershed InstanceNone) ∅)
                 (selected (ArgInt 0) <$> tiles);
       segment_tail (ext := Examples.demo_externals) (ops := SpecOps.spec_ops)
         masks [0; 2]%nat [0; 0]%nat (output_key "watershed" None))
        (add_events Examples.small_world [EvCropEqually (Some 2) (Some 2) "image"])
  ∧ segment (ext := Examples.demo_externals) (ops := SpecOps.spec_ops)
      "image" "watershed" InstanceNone ∅ ArgNone (Some 2) (Some 2) None
      Examples.small_world
    = (masks ← mapM (call_backend (ext := Examples.demo_externals)
                       (Backend.SegmentationModelWatershed InstanceNone) ∅)
                 (selected ArgNone <$> tiles);
       segment_tail (ext := Examples.demo_externals) (ops := SpecOps.spec_ops)
         masks [0; 2]%nat [0; 0]%nat (output_key "watershed" None))
        (add_events Examples.small_world [EvCropEqually (Some 2) (Some 2) "image"]).
Proof.
  intros tiles.
  assert (Hsm : select_model (ext := Examples.demo_externals) "watershed" InstanceNone
                = inr (Backend.SegmentationModelWatershed InstanceNone))
    by reflexivity.
  assert (Hcrop : crop_equally (ContainerOps := SpecOps.spec_ops)
                    (container Examples.small_world) (Some 2) (Some 2) "image"
                  = inr (tiles, [0; 2]%nat, [0; 0]%nat)) by (vm_compute; reflexivity).
  assert (Hint : Forall (λ x, ∃ c rest ds,
                     dims x = "channels" :: ds ∧ shape (values x) = c :: rest
                     ∧ wf_array (values x) ∧ - Z.of_nat c ≤ 0 < Z.of_nat c) tiles).
  { apply Forall_cons_2; [|apply Forall_cons_2; [|apply Forall_nil_2]];
      exists 1%nat, [2; 2]%nat, ["y"; "x"];
      (split_and!;
         [reflexivity|vm_compute; reflexivity|vm_compute; reflexivity|lia|lia]). }
  assert (Hall : ∃ c0 n, head tiles = Some c0 ∧ channels_shape0 c0 = inr n
                   ∧ Forall (λ y, wf_DataArray y ∧ channels_shape0 y = inr n) tiles).
  { exists (SpecOps.window Examples.small_image 0 0 2 2), 1%nat.
    split; [reflexivity|]. split; [reflexivity|].
    apply Forall_cons_2; [|apply Forall_cons_2; [|apply Forall_nil_2]];
      repeat split; vm_compute; reflexivity. }
  split; [exact Hcrop|]. split; [vm_compute; reflexivity|].
  split; [vm_compute; reflexivity|]. split.
  - exact (segment_channel_selection (ext := Examples.demo_externals)
             (ops := SpecOps.spec_ops) "image" "watershed" InstanceNone ∅ (ArgInt 0)
             (Some 2) (Some 2) None Examples.small_world _ tiles _ _ Hsm Hcrop Hint).
  - exact (segment_channel_selection (ext := Examples.demo_externals)
             (ops := SpecOps.spec_ops) "image" "watershed" InstanceNone ∅ ArgNone
             (Some 2) (Some 2) None Examples.small_world _ tiles _ _ Hsm Hcrop Hall).
Defined.

Lemma segment_raises_container_unchanged_witness :
  (segment (ext := Examples.demo_externals) (ops := SpecOps.spec_ops)
     "image" "tensorflow" (InstanceObject 1) ∅ (ArgInt 0) (Some 2) (Some 2) None
     Examples.small_world).1
  = inl (LibraryError "InvalidArgumentError" "incompatible input shape")
  ∧ container (segment (ext := Examples.demo_externals) (ops := SpecOps.spec_ops)
                 "image" "tensorflow" (InstanceObject 1) ∅ (ArgInt 0) (Some 2)
                 (Some 2) None Examples.small_world).2
    = container Examples.small_world.
Proof.
  assert (H : (segment (ext := Examples.demo_externals) (ops := SpecOps.spec_ops)
                 "image" "tensorflow" (InstanceObject 1) ∅ (ArgInt 0) (Some 2)
                 (Some 2) None Examples.small_world).1
              = inl (LibraryError "InvalidArgumentError" "incompatible input shape"))
    by (vm_compute; reflexivity).
  split; [exact H|].
  exact (segment_raises_container_unchanged (ext := Examples.demo_externals)
           (ops := SpecOps.spec_ops) "image" "tensorflow" (InstanceObject 1) ∅
           (ArgInt 0) (Some 2) (Some 2) None Examples.small_world _ H).
Defined.

Lemma segment_returns_witness :
  (segment (ext := Examples.demo_externals) (ops := SpecOps.spec_ops)
     "image" "tensorflow" (InstanceObject 0) ∅ (ArgInt 0) (Some 2) (Some 2) None
     Examples.small_world).1 = inr ()
  ∧ ∃ arrs relabeled img',
      (segment (ext := Examples.demo_externals) (ops := SpecOps.spec_ops)
         "image" "tensorflow" (InstanceObject 0) ∅ (ArgInt 0) (Some 2) (Some 2) None
         Examples.small_world).2
      = {| container := img';
           trace := trace Examples.small_world
                    ++ EvCropEqually (Some 2) (Some 2) "image"
                       :: (EvBackend <$> arrs)
                       ++ [EvUncrop relabeled; EvAddImg "segmented_tensorflow"] |}.
Proof.
  assert (H : (segment (ext := Examples.demo_externals) (ops := SpecOps.spec_ops)
                 "image" "tensorflow" (InstanceObject 0) ∅ (ArgInt 0) (Some 2)
                 (Some 2) None Examples.small_world).1 = inr ())
    by (vm_compute; reflexivity).
  assert (Hkw : passable ∅) by (split; reflexivity).
  split; [exact H|].
  destruct (segment_returns (ext := Examples.demo_externals)
              (ops := SpecOps.spec_ops) "image" "tensorflow" (InstanceObject 0) ∅
              (ArgInt 0) (Some 2) (Some 2) None Examples.small_world Hkw H)
    as (sm & crops & xcoord & ycoord & sl & arrs & masks & relabeled & c & merged
        & img' & _ & _ & _ & _ & _ & _ & _ & _ & _ & Hrun).
  exists arrs, relabeled, img'. exact Hrun.
Defined.

Lemma segment_blob_unknown_method_witness :
  (InstanceNone ≠ InstanceName "log" ∧ InstanceNone ≠ InstanceName "dog"
   ∧ InstanceNone ≠ InstanceName "doh")
  ∧ segment (ext := Examples.demo_externals) (ops := SpecOps.spec_ops)
      "image" "skimage_blob" InstanceNone ∅ (ArgInt 0) (Some 2) (Some 2) None
      Examples.small_world
    = (inl (ValueError "did not recognize self.model None"),
       {| container := container Examples.small_world;
          trace := [EvCropEqually (Some 2) (Some 2) "image";
                    EvBackend {| shape := [2; 2]%nat; data := [0; 1; 0; 0] |}] |}).
Proof.
  split; [by split_and!|].
  apply (segment_blob_unknown_method (ext := Examples.demo_externals)
           (ops := SpecOps.spec_ops) "image" InstanceNone ∅ (ArgInt 0) (Some 2)
           (Some 2) None Examples.small_world
           (SpecOps.window Examples.small_image 0 0 2 2)
           [SpecOps.window Examples.small_image 2 0 2 2]
           [0; 2]%nat [0; 0]%nat (IntIndex 0)
           {| shape := [2; 2]%nat; data := [0; 1; 0; 0] |}).
  - split; reflexivity.
  - done.
  - done.
  - done.
  - vm_compute. reflexivity.
  - reflexivity.
  - vm_compute. reflexivity.
Defined.

Lemma segment_watershed_ignores_witness :
  segment (ext := Examples.demo_externals) (ops := SpecOps.spec_ops)
    "image" "watershed" InstanceNone ∅ (ArgInt 0) (Some 2) (Some 2) None
    Examples.small_world
  = segment (ext := Examples.demo_externals) (ops := SpecOps.spec_ops)
      "image" "watershed" (InstanceName "log") {["min_distance" := KwNum 3%Q]}
      (ArgInt 0) (Some 2) (Some 2) None Examples.small_world.
Proof.
  apply (segment_watershed_ignores (ext := Examples.demo_externals)
           (ops := SpecOps.spec_ops)).
  - split; reflexivity.
  - split; vm_compute; reflexivity.
  - vm_compute. reflexivity.
  - vm_compute. reflexivity.
Defined.


Lemma segment_channel_out_of_range_witness :
  ¬ (- Z.of_nat 1 ≤ 5 < Z.of_nat 1)
  ∧ ∃ msg,
      segment (ext := Examples.demo_externals) (ops := SpecOps.spec_ops)
        "image" "watershed" InstanceNone ∅ (ArgInt 5) (Some 2) (Some 2) None
        Examples.small_world
      = (inl (IndexError msg),
         {| container := container Examples.small_world;
            trace := trace Examples.small_world
                     ++ [EvCropEqually (Some 2) (Some 2) "image"] |}).
Proof.
  assert (Hk : ¬ (- Z.of_nat 1 ≤ 5 < Z.of_nat 1)) by lia.
  split; [exact Hk|].
  apply (segment_channel_out_of_range (ext := Examples.demo_externals)
           (ops := SpecOps.spec_ops) "image" "watershed" InstanceNone ∅ 5 (Some 2)
           (Some 2) None Examples.small_world
           (Backend.SegmentationModelWatershed InstanceNone)
           (SpecOps.window Examples.small_image 0 0 2 2)
           [SpecOps.window Examples.small_image 2 0 2 2]
           [0; 2]%nat [0; 0]%nat 0%nat 1%nat).
  - reflexivity.
  - vm_compute. reflexivity.
  - reflexivity.
  - reflexivity.
  - exact Hk.
Defined.

End PipelineLaws.

(** ** [segment_crops]: errors, label maps with a leading dimension, count *)

Module CropLaws.
Import CropProofs.

Lemma mapM_result_length {A B} (f : A → result B) l r :
  mapM f l = inr r → length r = length l.
Proof.
  revert r. induction l as [|x l IH]; intros r Hr.
  - by injection Hr as <-.
  - cbn in Hr. destruct (f x) as [|b]; [done|]. cbn in Hr.
    destruct (mapM f l) as [|bs]; [done|]. cbn in Hr. injection Hr as <-.
    cbn. by rewrite (IH bs).
Qed.

Lemma true_positions_lt cond p : p ∈ true_positions cond → (p < length cond)%nat.
Proof.
  unfold true_positions. rewrite elem_of_true_positions_from.
  intros [_ Hp]. rewrite Nat.sub_0_r in Hp. by eapply lookup_lt_Some.
Qed.

Lemma positions_of_lt a i p : p ∈ positions_of a i → (p < length (data a))%nat.
Proof.
  intros Hp%true_positions_lt. by rewrite length_fmap in Hp.
Qed.

Lemma length_nonzero_labels a :
  length (nonzero_labels a) = size ((list_to_set (data a) : gset Z) ∖ {[0]}).
Proof.
  unfold nonzero_labels. rewrite merge_sort_Permutation.
  unfold size at 1, set_size. cbn. f_equal. f_equal. f_equal.
  apply set_eq. intros v. rewrite !elem_of_list_to_set. unfold np_unique.
  by rewrite merge_sort_Permutation, elem_of_remove_dups.
Qed.

Lemma floor_mean_zeros (l : list nat) : Forall (λ n, n = 0%nat) l → floor_mean l = 0.
Proof.
  intros Hl. unfold floor_mean.
  assert (sum_nat l = 0%nat) as ->.
  { induction Hl as [|n l -> _ IH]; [done|]. cbn. exact IH. }
  apply Zdiv_0_l.
Qed.

Section more_crops.
Context `{ops : ContainerOps}.

Lemma segment_centre_1d img key l i :
  img_data img !! key = Some l → ndim (values l) = 1%nat →
  segment_centre img key i = inl (IndexError "tuple index out of range").
Proof.
  intros Hl Hnd. unfold segment_centre, lookup_data. rewrite Hl.
  cbn [mbind result_bind mret result_ret].
  unfold ndim in Hnd. destruct (shape (values l)) as [|n [|? ?]]; done.
Qed.

(** X12.  A missing label map is a [KeyError]; a one-dimensional label map with a
    label is an [IndexError], from [np.where(...)[1]].  Neither requests a
    crop. *)
Theorem segment_crops_errors img_id key xs ys (w : world) :
  (img_data (container w) !! key = None →
   segment_crops img_id key xs ys w = (inl (KeyError key), w))
  ∧ (∀ l, img_data (container w) !! key = Some l → ndim (values l) = 1%nat →
          (∃ v, v ∈ data (values l) ∧ v ≠ 0) →
          segment_crops img_id key xs ys w
          = (inl (IndexError "tuple index out of range"), w)).
Proof.
  split.
  - intros Hnone. rewrite segment_crops_unfold.
    unfold segment_centres, lookup_data. by rewrite Hnone.
  - intros l Hl Hnd (v & Hv & Hv0). rewrite segment_crops_unfold.
    unfold segment_centres, lookup_data. rewrite Hl. cbn [mbind result_bind mret result_ret].
    destruct (nonzero_labels (values l)) as [|i labels] eqn:Hlab.
    { assert (v ∈ nonzero_labels (values l)) as Hin
        by (by apply elem_of_nonzero_labels).
      rewrite Hlab in Hin. by apply elem_of_nil in Hin. }
    cbn [mapM]. by rewrite (segment_centre_1d _ _ _ _ Hl Hnd).
Qed.

Lemma np_where_leading (H W : nat) cond :
  length cond = (H * W)%nat →
  np_where [1%nat; H; W] cond !! 0%nat = Some ((λ _, 0%nat) <$> true_positions cond)
  ∧ np_where [1%nat; H; W] cond !! 1%nat
    = Some ((λ p, p / W)%nat <$> true_positions cond).
Proof.
  intros Hlen. unfold np_where. cbn [length seq fmap list_fmap lookup list_lookup].
  split; f_equal; apply list_fmap_ext; intros k p Hp;
    cbn [unravel size_of foldr lookup list_lookup default from_option id].
  - apply Nat.div_small.
    pose proof (true_positions_lt cond p ltac:(by eapply list_elem_of_lookup_2)). lia.
  - rewrite Nat.mul_1_r. f_equal. apply Nat.mod_small.
    pose proof (true_positions_lt cond p ltac:(by eapply list_elem_of_lookup_2)). lia.
Qed.

(** The requests of [segment_crops] on a label map of shape [(1, H, W)]. *)
Lemma crops_leading_axis img_id key xs ys (w : world) l (H W : nat) :
  img_data (container w) !! key = Some l →
  shape (values l) = [1%nat; H; W] → wf_array (values l) →
  (segment_crops img_id key xs ys w).1
  = mapM (λ i, crop (container w) 0
                 (floor_mean ((λ p, p / W)%nat <$> positions_of (values l) i))
                 xs ys img_id)
      (nonzero_labels (values l)).
Proof.
  intros Hl Hsh Hwf.
  destruct (segment_crops_run img_id key xs ys w) as [-> _].
  unfold segment_centres, lookup_data. rewrite Hl.
  cbn [mbind result_bind mret result_ret].
  assert (Hlen : ∀ i, length ((λ v, bool_decide (v = i)) <$> data (values l))
                     = (H * W)%nat).
  { intros i. rewrite length_fmap. unfold wf_array in Hwf. rewrite Hwf, Hsh.
    cbn. lia. }
  rewrite (mapM_result_ext _
             (λ i, inr (np_mean ((λ _, 0%nat) <$> positions_of (values l) i),
                        np_mean ((λ p, p / W)%nat <$> positions_of (values l) i)))).
  2:{ intros i _. unfold segment_centre, lookup_data. rewrite Hl.
      cbn [mbind result_bind mret result_ret]. rewrite Hsh.
      destruct (np_where_leading H W _ (Hlen i)) as [H0 H1].
      unfold tuple_get. rewrite H0, H1. reflexivity. }
  rewrite mapM_inr_fmap. cbn [mbind result_bind]. rewrite mapM_fmap_result.
  apply mapM_result_ext. intros i [_ Hi]%elem_of_nonzero_labels.
  unfold crop_at. cbn [fst snd].
  pose proof (positions_of_nonempty _ _ Hi) as Hne.
  rewrite !python_int_np_mean by (by intros ?%fmap_nil_inv).
  cbn [mbind result_bind]. f_equal.
  apply floor_mean_zeros. apply Forall_fmap. by apply Forall_true.
Qed.

(** X13.  For a label map with a leading dimension of length one, shape
    [(1, H, W)], the first two index arrays of [np.where] are the index along
    that dimension and the row index: every crop is requested at [x = 0] and
    at [y] the mean row index, rounded down; the column index is not used. *)
Theorem segment_crops_leading_axis img_id key xs ys (w : world) l (H W : nat) :
  img_data (container w) !! key = Some l →
  shape (values l) = [1%nat; H; W] → wf_array (values l) →
  (segment_crops img_id key xs ys w).1
  = mapM (λ i, crop (container w) 0
                 (floor_mean ((λ p, p / W)%nat <$> positions_of (values l) i))
                 xs ys img_id)
      (nonzero_labels (values l)).
Proof.
  intros Hl Hsh Hwf. by apply (crops_leading_axis _ _ _ _ _ _ H).
Qed.

(** X14.  When [segment_crops] returns, it returns one crop for each distinct
    nonzero value of the label map. *)
Theorem segment_crops_count img_id key xs ys (w : world) l ds :
  img_data (container w) !! key = Some l →
  (segment_crops img_id key xs ys w).1 = inr ds →
  length ds = size ((list_to_set (data (values l)) : gset Z) ∖ {[0]}).
Proof.
  intros Hl. destruct (segment_crops_run img_id key xs ys w) as [-> _].
  unfold segment_centres, lookup_data. rewrite Hl.
  cbn [mbind result_bind mret result_ret].
  destruct (mapM _ (nonzero_labels (values l))) as [|cs] eqn:Hcs; [done|].
  cbn [mbind result_bind]. intros Hds.
  rewrite (mapM_result_length _ _ _ Hds), (mapM_result_length _ _ _ Hcs).
  apply length_nonzero_labels.
Qed.

End more_crops.

Lemma segment_crops_errors_witness :
  img_data (container Examples.small_world) !! "seg" = None
  ∧ segment_crops (ops := SpecOps.spec_ops) "image" "seg" (Some 1) (Some 1)
      Examples.small_world
    = (inl (KeyError "seg"), Examples.small_world)
  ∧ (∃ v, v ∈ data (values MoreExamples.label_map_1d) ∧ v ≠ 0)
  ∧ segment_crops (ops := SpecOps.spec_ops) "image" "seg" (Some 1) (Some 1)
      (Examples.labelled_world MoreExamples.label_map_1d)
    = (inl (IndexError "tuple index out of range"),
       Examples.labelled_world MoreExamples.label_map_1d).
Proof.
  assert (H1 : img_data (container Examples.small_world) !! "seg" = None)
    by (vm_compute; reflexivity).
  assert (H2 : img_data (container (Examples.labelled_world MoreExamples.label_map_1d)) !! "seg"
               = Some MoreExamples.label_map_1d) by (vm_compute; reflexivity).
  assert (H3 : ∃ v, v ∈ data (values MoreExamples.label_map_1d) ∧ v ≠ 0).
  { exists 1. split; [|lia]. right. left. }
  split; [exact H1|]. split; [|split; [exact H3|]].
  - exact (proj1 (segment_crops_errors (ops := SpecOps.spec_ops) "image" "seg"
                    (Some 1) (Some 1) Examples.small_world) H1).
  - exact (proj2 (segment_crops_errors (ops := SpecOps.spec_ops) "image" "seg"
                    (Some 1) (Some 1) (Examples.labelled_world MoreExamples.label_map_1d))
             MoreExamples.label_map_1d H2 eq_refl H3).
Defined.

Lemma segment_crops_leading_axis_witness :
  (img_data (container (Examples.labelled_world Examples.label_map_3d)) !! "seg"
   = Some Examples.label_map_3d
   ∧ wf_array (values Examples.label_map_3d))
  ∧ (segment_crops (ops := SpecOps.spec_ops) "image" "seg" (Some 1) (Some 1)
       (Examples.labelled_world Examples.label_map_3d)).1
    = mapM (λ i, crop (ContainerOps := SpecOps.spec_ops)
                   (container (Examples.labelled_world Examples.label_map_3d)) 0
                   (floor_mean ((λ p, p / 2)%nat
                                  <$> positions_of (values Examples.label_map_3d) i))
                   (Some 1) (Some 1) "image")
        (nonzero_labels (values Examples.label_map_3d)).
Proof.
  assert (H1 : img_data (container (Examples.labelled_world Examples.label_map_3d))
                 !! "seg" = Some Examples.label_map_3d) by (vm_compute; reflexivity).
  assert (H2 : wf_array (values Examples.label_map_3d)) by reflexivity.
  split; [by split|].
  exact (segment_crops_leading_axis (ops := SpecOps.spec_ops) "image" "seg" (Some 1)
           (Some 1) (Examples.labelled_world Examples.label_map_3d)
           Examples.label_map_3d 2 2 H1 eq_refl H2).
Defined.

Lemma segment_crops_count_witness :
  img_data (container (Examples.labelled_world Examples.label_map_2d)) !! "seg"
  = Some Examples.label_map_2d
  ∧ (segment_crops (ops := SpecOps.spec_ops) "image" "seg" (Some 1) (Some 1)
       (Examples.labelled_world Examples.label_map_2d)).1
    = inr [SpecOps.window Examples.small_image 0 0 1 1]
  ∧ length [SpecOps.window Examples.small_image 0 0 1 1]
    = size ((list_to_set (data (values Examples.label_map_2d)) : gset Z) ∖ {[0]}).
Proof.
  assert (H1 : img_data (container (Examples.labelled_world Examples.label_map_2d))
                 !! "seg" = Some Examples.label_map_2d) by (vm_compute; reflexivity).
  assert (H2 : (segment_crops (ops := SpecOps.spec_ops) "image" "seg" (Some 1) (Some 1)
                  (Examples.labelled_world Examples.label_map_2d)).1
               = inr [SpecOps.window Examples.small_image 0 0 1 1])
    by (vm_compute; reflexivity).
  split; [exact H1|]. split; [exact H2|].
  exact (segment_crops_count (ops := SpecOps.spec_ops) "image" "seg" (Some 1) (Some 1)
           (Examples.labelled_world Examples.label_map_2d) Examples.label_map_2d _
           H1 H2).
Defined.

End CropLaws.

(** ** [segment], then [segment_crops] on its result *)

Module RoundTrip.
Import SegmentProofs CropProofs PipelineLaws CropLaws.

Lemma paste_length W t x0 y0 cv : length (SpecOps.paste W t x0 y0 cv) = length cv.
Proof.
  unfold SpecOps.paste.
  destruct (shape (values t)) as [|? [|? [|? [|? ?]]]]; try done.
  apply length_imap.
Qed.

Lemma pasted_length W (ts : list (DataArray * nat * nat)) : ∀ cv,
  length (foldl (λ cv t, SpecOps.paste W t.1.1 t.1.2 t.2 cv) cv ts) = length cv.
Proof.
  induction ts as [|t ts IH]; intros cv; [done|].
  cbn [foldl]. by rewrite IH, paste_length.
Qed.

Section round_trip.
Context `{ext : Externals}.

(** X23.  With the container operations of [SpecOps], [segment] stores the
    label map with a leading dimension of length one, and [segment_crops]
    reads the first two dimensions: on the result of [segment], every crop
    is requested at [x = 0] and at [y] the mean row index of the segment,
    rounded down. *)
Theorem segment_then_segment_crops img_id model_group model_instance model_kwargs
    channel_idx xs ys key_added (w : world) img_id' xs' ys' :
  passable model_kwargs →
  (segment (ops := SpecOps.spec_ops) img_id model_group model_instance model_kwargs
     channel_idx xs ys key_added w).1 = inr () →
  let w' := (segment (ops := SpecOps.spec_ops) img_id model_group model_instance
               model_kwargs channel_idx xs ys key_added w).2 in
  let key := match key_added with
             | Some k => k
             | None => "segmented_" +:+ model_group
             end in
  ∃ l, img_data (container w') !! key = Some l
       ∧ shape (values l)
         = [1%nat; (img_shape (container w)).1; (img_shape (container w)).2]
       ∧ (segment_crops (ops := SpecOps.spec_ops) img_id' key xs' ys' w').1
         = mapM (λ i, SpecOps.crop_spec (container w') 0
                        (floor_mean ((λ p, p / (img_shape (container w)).2)%nat
                                       <$> positions_of (values l) i))
                        xs' ys' img_id')
             (nonzero_labels (values l)).
Proof.
  intros Hkw Hrun.
  destruct (segment_run_returns (ops := SpecOps.spec_ops) _ _ _ _ _ _ _ _ _ Hkw Hrun)
    as (sm & crops & xcoord & ycoord & sl & arrs & masks & relabeled & c & merged
        & img' & _ & _ & _ & _ & _ & _ & _ & Hun & Hadd & ->).
  cbn zeta in Hadd |- *. cbn [container].
  cbn [uncrop_img SpecOps.spec_ops] in Hun. unfold SpecOps.uncrop_img_spec in Hun.
  destruct (img_shape (container w)) as [H W] eqn:Hsh.
  injection Hun as <-.
  cbn [add_img SpecOps.spec_ops] in Hadd. unfold SpecOps.add_img_spec in Hadd.
  injection Hadd as <-. cbn [fst snd].
  eexists. split; [apply lookup_insert_eq|]. split; [reflexivity|].
  apply (crops_leading_axis (ops := SpecOps.spec_ops)) with (H := H).
  - cbn. apply lookup_insert_eq.
  - reflexivity.
  - unfold wf_array. cbn. rewrite pasted_length, length_replicate. lia.
Qed.

End round_trip.

Lemma segment_then_segment_crops_witness :
  (segment (ext := Examples.demo_externals) (ops := SpecOps.spec_ops)
     "image" "tensorflow" (InstanceObject 0) ∅ (ArgInt 0) (Some 2) (Some 2) None
     Examples.small_world).1 = inr ()
  ∧ (segment_crops (ops := SpecOps.spec_ops) "image" "segmented_tensorflow"
       (Some 1) (Some 1)
       (segment (ext := Examples.demo_externals) (ops := SpecOps.spec_ops)
          "image" "tensorflow" (InstanceObject 0) ∅ (ArgInt 0) (Some 2) (Some 2)
          None Examples.small_world).2).1
    = inr [SpecOps.window Examples.small_image 0 0 1 1;
           SpecOps.window Examples.small_image 0 1 1 1].
Proof.
  assert (H : (segment (ext := Examples.demo_externals) (ops := SpecOps.spec_ops)
                 "image" "tensorflow" (InstanceObject 0) ∅ (ArgInt 0) (Some 2)
                 (Some 2) None Examples.small_world).1 = inr ())
    by (vm_compute; reflexivity).
  assert (Hkw : passable ∅) by (split; reflexivity).
  split; [exact H|].
  destruct (segment_then_segment_crops (ext := Examples.demo_externals)
              "image" "tensorflow" (InstanceObject 0) ∅ (ArgInt 0) (Some 2) (Some 2)
              None Examples.small_world "image" (Some 1) (Some 1) Hkw H)
    as (l & Hl & _ & Hcrops).
  refine (eq_trans Hcrops _).
  vm_compute in Hl. injection Hl as <-. vm_compute. reflexivity.
Defined.

End RoundTrip.

(** ** [extract]: the columns written *)

Module ExtractLaws.
Import Extract ExtractWrites ExtractProofs CropProofs.

Lemma ST_bind_unfold {S A B} (m : ST S A) (f : A → ST S B) (s : S) :
  (m ≫= f) s = match m s with
               | (inl e, s') => (inl e, s')
               | (inr a, s') => f a s'
               end.
Proof. reflexivity. Qed.

Lemma write_one tmp key col (σ : state) at_ :
  objs σ !! tmp = Some at_ →
  (_ ← _warn_if_exists_obs tmp key; set_obs tmp key col) σ
  = (inr (),
     {| objs := <[tmp := {| obs := set_column (obs at_) key col; obsm := obsm at_ |}]>
                  (objs σ);
        log := if bool_decide (key ∈ (fst <$> obs at_))
               then log σ ++ [overwrite_warning key] else log σ |}).
Proof.
  intros Htmp. rewrite ST_bind_unfold. unfold _warn_if_exists_obs.
  rewrite ST_bind_unfold. unfold deref at 1. rewrite Htmp.
  case_bool_decide.
  - unfold warning, set_obs. rewrite ST_bind_unfold. unfold deref. cbn [objs].
    rewrite Htmp. reflexivity.
  - unfold set_obs. cbn. rewrite ST_bind_unfold. unfold deref. rewrite Htmp.
    reflexivity.
Qed.

Lemma run_writes_app df lg ws1 ws2 :
  run_writes df lg (ws1 ++ ws2)
  = run_writes (run_writes df lg ws1).1 (run_writes df lg ws1).2 ws2.
Proof.
  revert df lg. induction ws1 as [|[k c] ws1 IH]; intros df lg; [done|].
  cbn. apply IH.
Qed.

Lemma after_writes_nil tmp at_ σ :
  objs σ !! tmp = Some at_ → after_writes tmp at_ σ [] = σ.
Proof.
  intros Htmp. unfold after_writes. cbn. destruct σ as [o l]. cbn in *.
  f_equal. destruct at_. by apply insert_id.
Qed.

(** The writes of a list of items, each giving one key and one column. *)
Lemma write_items_run {A} tmp (step : A → ST state ()) (wr : A → result (string * list Q))
    (items : list A) :
  (∀ x kc σ at_, wr x = inr kc → objs σ !! tmp = Some at_ →
     step x σ = (_ ← _warn_if_exists_obs tmp kc.1; set_obs tmp kc.1 kc.2) σ) →
  ∀ ws σ at_,
    mapM wr items = inr ws → objs σ !! tmp = Some at_ →
    ∃ us, mapM step items σ = (inr us, after_writes tmp at_ σ ws).
Proof.
  intros Hstep. induction items as [|x items IH]; intros ws σ at_ Hws Htmp.
  - injection Hws as <-. exists []. cbn. by rewrite after_writes_nil.
  - cbn in Hws. destruct (wr x) as [|[k c]] eqn:Hx; [done|]. cbn in Hws.
    destruct (mapM wr items) as [|ws'] eqn:Hrest; [done|]. cbn in Hws.
    injection Hws as <-.
    cbn [mapM]. rewrite ST_bind_unfold.
    rewrite (Hstep x (k, c) σ at_ Hx Htmp). cbn [fst snd].
    rewrite (write_one tmp k c σ at_ Htmp).
    set (σ1 := {| objs := _; log := _ |}).
    destruct (IH ws' σ1 {| obs := set_column (obs at_) k c; obsm := obsm at_ |} eq_refl)
      as (us & Hrun).
    { cbn. apply lookup_insert_eq. }
    rewrite ST_bind_unfold, Hrun. eexists. cbn. f_equal.
    unfold after_writes. cbn. by rewrite insert_insert_eq.
Qed.

Lemma mapM_result_inr_lookup {A B} (f : A → result B) l r i x :
  mapM f l = inr r → l !! i = Some x → ∃ y, f x = inr y ∧ r !! i = Some y.
Proof.
  revert r i. induction l as [|z l IH]; intros r i Hr Hi; [done|].
  cbn in Hr. destruct (f z) as [|b] eqn:Hz; [done|]. cbn in Hr.
  destruct (mapM f l) as [|bs] eqn:Hl; [done|]. cbn in Hr. injection Hr as <-.
  destruct i as [|i]; cbn in Hi.
  - injection Hi as <-. eauto.
  - destruct (IH bs i eq_refl Hi) as (y & Hy & Hlook). eauto.
Qed.

Lemma loc_column_distinct (columns : list (string * list Q)) col :
  NoDup (fst <$> columns) → col ∈ columns → loc_column columns col = inr col.2.
Proof.
  intros Hnd Hin. unfold loc_column. rewrite decide_True; [done|].
  induction columns as [|y l IH]; [by apply elem_of_nil in Hin|].
  cbn in Hnd. apply NoDup_cons in Hnd as [Hy Hnd]. rewrite filter_cons.
  apply elem_of_cons in Hin as [->|Hin].
  - rewrite decide_True by done. cbn. f_equal.
    destruct (filter _ l) as [|z l'] eqn:Hf; [done|]. exfalso. apply Hy.
    assert (z ∈ filter (λ c : string * list Q, c.1 = y.1) l) as Hz
      by (rewrite Hf; left).
    apply list_elem_of_filter in Hz as [Hz1 Hz]. rewrite <- Hz1.
    apply list_elem_of_fmap. by exists z.
  - rewrite decide_False; [by apply IH|].
    intros Heq. apply Hy. rewrite Heq. apply list_elem_of_fmap. by exists col.
Qed.

Lemma copy_columns_run adata tmp pres i key (σ : state) a at_ pre e ws :
  adata ≠ tmp → objs σ !! adata = Some a → objs σ !! tmp = Some at_ →
  pres !! i = Some pre → obsm a !! key = Some e → distinct_columns e →
  writes_of pre e = inr ws →
  copy_columns adata tmp pres i key σ = (inr (), after_writes tmp at_ σ ws).
Proof.
  intros Hne Ha Htmp Hpre He Hdist Hws. unfold copy_columns.
  rewrite ST_bind_unfold. unfold deref at 1. rewrite Ha.
  rewrite ST_bind_unfold. unfold lift at 1. rewrite He. cbn [mret result_ret].
  destruct e as [columns|sh vals]; cbn [writes_of] in Hws.
  - injection Hws as <-. rewrite ST_bind_unfold.
    edestruct (write_items_run tmp
                 (λ col : string * list Q,
                    p ← lift (match pres !! i with
                              | Some p => mret p
                              | None => raise (IndexError "list index out of range")
                              end);
                    let obs_key := p +:+ col.1 in
                    _ ← _warn_if_exists_obs tmp obs_key;
                    c ← lift (loc_column columns col);
                    set_obs tmp obs_key c)
                 (λ col : string * list Q,
                    c ← loc_column columns col; mret (pre +:+ col.1, c))
                 columns) as (us & ->); [| |exact Htmp|reflexivity].
    + intros col kc σ' at' Hcol _. rewrite Hpre.
      destruct (loc_column columns col) as [|c]; [done|]. injection Hcol as <-.
      reflexivity.
    + rewrite (mapM_result_ext _
                 (λ col : string * list Q, inr (pre +:+ col.1, col.2))).
      * apply mapM_inr_fmap.
      * intros col Hcol. by rewrite (loc_column_distinct columns col Hdist Hcol).
  - destruct (shape1 sh) as [|m] eqn:Hm; [done|]. cbn [mbind result_bind] in Hws.
    rewrite ST_bind_unfold. unfold lift at 1.
    rewrite ST_bind_unfold.
    edestruct (write_items_run tmp
                 (λ j : nat,
                    p ← lift (match pres !! i with
                              | Some p => mret p
                              | None => raise (IndexError "list index out of range")
                              end);
                    let obs_key := p +:+ pretty j in
                    _ ← _warn_if_exists_obs tmp obs_key;
                    c ← lift (array_column sh vals j);
                    set_obs tmp obs_key c)
                 (λ j : nat, c ← array_column sh vals j; mret (pre +:+ pretty j, c))
                 (seq 0 m)) as (us & ->); [|exact Hws|exact Htmp|reflexivity].
    intros j kc σ' at' Hj _. rewrite Hpre.
    destruct (array_column sh vals j) as [|c]; [done|]. injection Hj as <-.
    reflexivity.
Qed.

Lemma after_writes_app tmp at_ σ ws1 ws2 :
  after_writes tmp
    {| obs := (run_writes (obs at_) (log σ) ws1).1; obsm := obsm at_ |}
    (after_writes tmp at_ σ ws1) ws2
  = after_writes tmp at_ σ (ws1 ++ ws2).
Proof.
  unfold after_writes. cbn. rewrite run_writes_app. by rewrite insert_insert_eq.
Qed.

Lemma copy_all_run adata tmp pres a (iks : list (nat * string)) wss :
  adata ≠ tmp →
  Forall2 (λ ik ws, ∃ pre e, pres !! ik.1 = Some pre ∧ obsm a !! ik.2 = Some e
                             ∧ distinct_columns e ∧ writes_of pre e = inr ws) iks wss →
  ∀ (σ : state) at_,
    objs σ !! adata = Some a → objs σ !! tmp = Some at_ →
    ∃ us, mapM (λ ik : nat * string, copy_columns adata tmp pres ik.1 ik.2) iks σ
          = (inr us, after_writes tmp at_ σ (concat wss)).
Proof.
  intros Hne. induction 1 as [|ik ws iks wss (pre & e & Hpre & He & Hdist & Hws) _ IH];
    intros σ at_ Ha Htmp.
  - exists []. cbn. by rewrite after_writes_nil.
  - cbn [mapM concat]. rewrite ST_bind_unfold.
    rewrite (copy_columns_run adata tmp pres ik.1 ik.2 σ a at_ pre e ws) by done.
    destruct (IH (after_writes tmp at_ σ ws)
                {| obs := (run_writes (obs at_) (log σ) ws).1; obsm := obsm at_ |})
      as (us & Hrun).
    { cbn. by rewrite lookup_insert_ne. }
    { cbn. apply lookup_insert_eq. }
    rewrite ST_bind_unfold, Hrun. eexists. cbn. by rewrite after_writes_app.
Qed.

Lemma prefix_list_length keys prefix pres :
  prefix_list keys prefix = inr pres → length pres = length keys.
Proof.
  unfold prefix_list. destruct prefix as [p|].
  - case_decide as Hlen.
    + destruct (match p with OneStr s => [s] | StrList l => l end) as [|p0 [|? ?]];
        try done. cbn. intros [= <-]. by rewrite !length_fmap.
    + cbn. intros [= <-]. by rewrite length_fmap.
  - cbn. intros [= <-]. by rewrite length_fmap.
Qed.

(** When every key is an entry of [obsm] whose columns can be read,
    [extract] returns a new object with the [obsm] of the input and with the
    input's [obs] after the writes of all keys, in order; one warning is
    logged for each write onto a column that exists at that moment. *)
Lemma extract_run adata obsm_key prefix (σ : state) a pres wss :
  objs σ !! adata = Some a →
  prefix_list (key_list obsm_key) prefix = inr pres →
  reads a (key_list obsm_key) pres wss →
  extract adata obsm_key prefix σ
  = (inr (fresh (dom (objs σ))),
     after_writes (fresh (dom (objs σ))) a σ (concat wss)).
Proof.
  intros Ha Hpre Hall. rewrite extract_unfold. cbn zeta.
  change (match obsm_key with OneStr s => [s] | StrList l => l end)
    with (key_list obsm_key).
  rewrite Hpre, Ha.
  set (tmp := fresh (dom (objs σ))).
  assert (Hne : adata ≠ tmp).
  { apply fresh_not_allocated. by rewrite Ha. }
  pose proof (prefix_list_length _ _ _ Hpre) as Hlen.
  destruct (copy_all_run adata tmp pres a (imap pair (key_list obsm_key)) wss Hne)
    with (σ := {| objs := <[tmp := a]> (objs σ); log := log σ |}) (at_ := a)
    as (us & ->).
  - apply Forall2_same_length_lookup.
    apply Forall2_same_length_lookup in Hall as [Hl Hlook]. split.
    + rewrite length_imap. rewrite <- Hl, length_zip_with. lia.
    + intros i [i' k] ws Hik Hws. rewrite list_lookup_imap in Hik.
      destruct (key_list obsm_key !! i) as [k'|] eqn:Hk; [|done].
      cbn in Hik. injection Hik as <- <-.
      destruct (lookup_lt_is_Some_2 pres i) as [pre Hp].
      { rewrite Hlen. by eapply lookup_lt_Some. }
      destruct (Hlook i (k', pre) ws) as (e & He & Hdist & Hw); [|done|].
      { apply lookup_zip_with_Some. by exists k', pre. }
      exists pre, e. done.
  - cbn. by rewrite lookup_insert_ne.
  - cbn. apply lookup_insert_eq.
  - f_equal. unfold after_writes. cbn. by rewrite insert_insert_eq.
Qed.

Lemma get_set_column df k c key :
  get_column (set_column df k c) key
  = if decide (k = key) then Some c else get_column df key.
Proof.
  induction df as [|[k' c'] df IH]; cbn.
  - done.
  - destruct (decide (k' = k)) as [->|Hne]; cbn.
    + destruct (decide (k = key)); done.
    + destruct (decide (k' = key)) as [->|]; [|done].
      by rewrite decide_False.
Qed.

Lemma last_write_cons key k c ws :
  last_write key ((k, c) :: ws)
  = match last_write key ws with
    | Some v => Some v
    | None => if decide (k = key) then Some c else None
    end.
Proof.
  unfold last_write. rewrite filter_cons. cbn [fst].
  destruct (decide (k = key)) as [->|Hne].
  - destruct (filter _ ws) as [|x l] eqn:Hf; [done|].
    rewrite last_cons. by destruct (last (x :: l)).
  - by destruct (last (filter _ ws)).
Qed.

Lemma get_column_run_writes ws : ∀ df lg key,
  get_column (run_writes df lg ws).1 key
  = from_option Some (get_column df key) (last_write key ws).
Proof.
  induction ws as [|[k c] ws IH]; intros df lg key; [done|].
  cbn [run_writes]. rewrite IH, last_write_cons, get_set_column.
  destruct (last_write key ws); [done|]. cbn. by destruct (decide (k = key)).
Qed.

Lemma set_column_fresh df k c : k ∉ (fst <$> df) → set_column df k c = df ++ [(k, c)].
Proof.
  induction df as [|[k' c'] df IH]; intros Hk; [done|].
  cbn in Hk |- *. apply not_elem_of_cons in Hk as [Hne Hk].
  rewrite decide_False by done. by rewrite IH.
Qed.

Lemma run_writes_fresh ws : ∀ df lg,
  NoDup ((fst <$> df) ++ (fst <$> ws)) →
  run_writes df lg ws = (df ++ ws, lg).
Proof.
  induction ws as [|[k c] ws IH]; intros df lg Hnd.
  - by rewrite app_nil_r.
  - cbn [run_writes]. cbn in Hnd.
    assert (k ∉ (fst <$> df)) as Hk.
    { apply NoDup_app in Hnd as (_ & Hdis & _). intros Hin.
      apply (Hdis k Hin). left. }
    rewrite bool_decide_eq_false_2 by done. rewrite set_column_fresh by done.
    rewrite IH.
    + by rewrite <- app_assoc.
    + rewrite fmap_app. cbn. rewrite <- app_assoc. exact Hnd.
Qed.

Lemma set_column_keys df k c :
  fst <$> set_column df k c
  = (fst <$> df) ++ (if bool_decide (k ∈ (fst <$> df)) then [] else [k]).
Proof.
  induction df as [|[k' c'] df IH]; [done|]. cbn.
  destruct (decide (k' = k)) as [->|Hne]; cbn.
  - rewrite bool_decide_eq_true_2 by left. by rewrite app_nil_r.
  - rewrite IH. do 2 f_equal. apply (f_equal (λ b : bool, if b then [] else [k])).
    apply bool_decide_ext. rewrite elem_of_cons. naive_solver.
Qed.

(** The warnings of a run of writes: one for each write whose key is a
    column at that moment; every other write appends a column. *)
Lemma run_writes_log ws : ∀ df lg,
  ∃ ks new,
    (run_writes df lg ws).2 = lg ++ (overwrite_warning <$> ks)
    ∧ ks `sublist_of` (fst <$> ws)
    ∧ fst <$> (run_writes df lg ws).1 = (fst <$> df) ++ new
    ∧ (length new + length ks = length ws)%nat.
Proof.
  induction ws as [|[k c] ws IH]; intros df lg.
  - exists [], []. cbn. by rewrite !app_nil_r.
  - cbn [run_writes].
    destruct (IH (set_column df k c)
                (if bool_decide (k ∈ (fst <$> df))
                 then lg ++ [overwrite_warning k] else lg))
      as (ks & new & Hlog & Hsub & Hkeys & Hlen).
    rewrite Hlog, Hkeys, set_column_keys. case_bool_decide.
    + exists (k :: ks), new. rewrite app_nil_r, <- app_assoc. cbn.
      split_and!; [done| |done|lia]. by apply sublist_skip.
    + exists ks, (k :: new). rewrite <- app_assoc. cbn.
      split_and!; [done| |done|lia]. by apply sublist_cons.
Qed.

Lemma last_write_NoDup ws k c :
  NoDup (fst <$> ws) → (k, c) ∈ ws → last_write k ws = Some c.
Proof.
  induction ws as [|[k' c'] ws IH]; intros Hnd Hin; [by apply elem_of_nil in Hin|].
  cbn in Hnd. apply NoDup_cons in Hnd as [Hk' Hnd].
  rewrite last_write_cons. apply elem_of_cons in Hin as [[= <- <-]|Hin].
  - assert (last_write k ws = None) as ->.
    { unfold last_write. destruct (filter _ ws) as [|[k1 c1] l] eqn:Hf; [done|].
      exfalso. apply Hk'.
      assert ((k1, c1) ∈ filter (λ kc : string * list Q, kc.1 = k) ws) as Hx
        by (rewrite Hf; left).
      apply list_elem_of_filter in Hx as [Hk1 Hx]. cbn in Hk1. subst k1.
      apply list_elem_of_fmap. by exists (k, c1). }
    by rewrite decide_True.
  - by rewrite (IH Hnd Hin).
Qed.

Lemma last_write_None ws k : k ∉ (fst <$> ws) → last_write k ws = None.
Proof.
  intros Hk. unfold last_write.
  destruct (filter _ ws) as [|[k1 c1] l] eqn:Hf; [done|]. exfalso. apply Hk.
  assert ((k1, c1) ∈ filter (λ kc : string * list Q, kc.1 = k) ws) as Hx
    by (rewrite Hf; left).
  apply list_elem_of_filter in Hx as [Hk1 Hx]. cbn in Hk1. subst k1.
  apply list_elem_of_fmap. by exists (k, c1).
Qed.

Lemma omap_total {A B} (f : A → option B) (g : A → B) (l : list A) :
  Forall (λ x, f x = Some (g x)) l → omap f l = g <$> l.
Proof.
  induction 1 as [|x l Hx _ IH]; [done|]. cbn. by rewrite Hx, IH.
Qed.

(** The writes of an array entry of shape [[n; m]]: column [j] goes to the
    key [pre +:+ pretty j]. *)
Lemma writes_of_array pre n m vals :
  writes_of pre (ObsmArray [n; m] vals)
  = inr ((λ j : nat, (pre +:+ pretty j,
                      omap (λ r : nat, vals !! (r * m + j)%nat) (seq 0 n)))
           <$> seq 0 m).
Proof.
  cbn [writes_of shape1 lookup list_lookup mret result_ret mbind result_bind].
  change (shape1 [n; m]) with (inr m : result nat). cbn [mbind result_bind].
  apply (mapM_inr_fmap
           (λ j : nat, (pre +:+ pretty j,
                        omap (λ r : nat, vals !! (r * m + j)%nat) (seq 0 n)))).
Qed.

Lemma array_keys_NoDup pre (m : nat) :
  NoDup ((λ j : nat, pre +:+ pretty j) <$> seq 0 m).
Proof.
  apply NoDup_fmap_2; [|apply NoDup_seq].
  intros i j Hij. apply (inj (String.app pre)) in Hij. by apply (inj pretty) in Hij.
Qed.

Lemma array_column_entries (n m j : nat) (vals : list Q) :
  length vals = (n * m)%nat → (j < m)%nat →
  length (omap (λ r : nat, vals !! (r * m + j)%nat) (seq 0 n)) = n
  ∧ ∀ r, (r < n)%nat →
      omap (λ r : nat, vals !! (r * m + j)%nat) (seq 0 n) !! r
      = vals !! (r * m + j)%nat.
Proof.
  intros Hlen Hj.
  rewrite (omap_total _ (λ r : nat, default 0%Q (vals !! (r * m + j)%nat))).
  - rewrite length_fmap, length_seq. split; [done|]. intros r Hr.
    rewrite list_lookup_fmap, lookup_seq_lt by done. cbn.
    destruct (lookup_lt_is_Some_2 vals (r * m + j)) as [v ->]; [nia|done].
  - apply Forall_forall. intros r Hr%elem_of_seq.
    destruct (lookup_lt_is_Some_2 vals (r * m + j)) as [v ->]; [nia|done].
Qed.

Lemma copy_all_missing adata tmp pres a (iks1 : list (nat * string)) wss i k iks2 :
  adata ≠ tmp →
  Forall2 (λ ik ws, ∃ pre e, pres !! ik.1 = Some pre ∧ obsm a !! ik.2 = Some e
                             ∧ distinct_columns e ∧ writes_of pre e = inr ws) iks1 wss →
  obsm a !! k = None →
  ∀ (σ : state) at_,
    objs σ !! adata = Some a → objs σ !! tmp = Some at_ →
    mapM (λ ik : nat * string, copy_columns adata tmp pres ik.1 ik.2)
         (iks1 ++ (i, k) :: iks2) σ
    = (inl (KeyError k), after_writes tmp at_ σ (concat wss)).
Proof.
  intros Hne Hall Hk.
  induction Hall as [|ik ws iks wss (pre & e & Hpre & He & Hdist & Hws) _ IH];
    intros σ at_ Ha Htmp.
  - cbn [app mapM concat]. rewrite ST_bind_unfold. unfold copy_columns.
    rewrite ST_bind_unfold. unfold deref at 1. rewrite Ha.
    rewrite ST_bind_unfold. unfold lift at 1. cbn [fst snd]. rewrite Hk.
    cbn. by rewrite after_writes_nil.
  - cbn [app mapM concat]. rewrite ST_bind_unfold.
    rewrite (copy_columns_run adata tmp pres ik.1 ik.2 σ a at_ pre e ws) by done.
    rewrite ST_bind_unfold.
    rewrite (IH (after_writes tmp at_ σ ws)
                {| obs := (run_writes (obs at_) (log σ) ws).1; obsm := obsm at_ |}).
    + by rewrite after_writes_app.
    + cbn. by rewrite lookup_insert_ne.
    + cbn. apply lookup_insert_eq.
Qed.

Lemma indexed_keys (keys pres : list string) wss (a : AnnData) :
  (length keys ≤ length pres)%nat →
  reads a keys pres wss →
  Forall2 (λ ik ws, ∃ pre e, pres !! ik.1 = Some pre ∧ obsm a !! ik.2 = Some e
                             ∧ distinct_columns e ∧ writes_of pre e = inr ws)
    (imap pair keys) wss.
Proof.
  intros Hlen Hall. apply Forall2_same_length_lookup.
  apply Forall2_same_length_lookup in Hall as [Hl Hlook]. split.
  - rewrite length_imap. rewrite <- Hl, length_zip_with. lia.
  - intros i [i' k] ws Hik Hws. rewrite list_lookup_imap in Hik.
    destruct (keys !! i) as [k'|] eqn:Hk; [|done].
    cbn in Hik. injection Hik as <- <-.
    destruct (lookup_lt_is_Some_2 pres i) as [pre Hp].
    { apply lookup_lt_Some in Hk. lia. }
    destruct (Hlook i (k', pre) ws) as (e & He & Hdist & Hw); [|done|].
    { apply lookup_zip_with_Some. by exists k', pre. }
    exists pre, e. done.
Qed.

(** [extract] up to the first key that is not in [obsm]: the writes of the
    keys before it have been made on the copy. *)
Lemma extract_run_missing adata obsm_key prefix (σ : state) a pres ks1 k ks2 wss :
  objs σ !! adata = Some a →
  prefix_list (key_list obsm_key) prefix = inr pres →
  key_list obsm_key = ks1 ++ k :: ks2 →
  reads a ks1 pres wss →
  obsm a !! k = None →
  extract adata obsm_key prefix σ
  = (inl (KeyError k), after_writes (fresh (dom (objs σ))) a σ (concat wss)).
Proof.
  intros Ha Hpre Hkeys Hall Hk. rewrite extract_unfold. cbn zeta.
  change (match obsm_key with OneStr s => [s] | StrList l => l end)
    with (key_list obsm_key).
  rewrite Hpre, Ha.
  set (tmp := fresh (dom (objs σ))).
  assert (Hne : adata ≠ tmp).
  { apply fresh_not_allocated. by rewrite Ha. }
  pose proof (prefix_list_length _ _ _ Hpre) as Hlen.
  rewrite Hkeys in Hlen |- *. rewrite length_app in Hlen.
  rewrite imap_app. cbn [imap].
  rewrite (copy_all_missing adata tmp pres a (imap pair ks1) wss _ k _ Hne)
    with (at_ := a).
  - f_equal. unfold after_writes. cbn. by rewrite insert_insert_eq.
  - apply indexed_keys; [lia|done].
  - done.
  - cbn. by rewrite lookup_insert_ne.
  - cbn. apply lookup_insert_eq.
Qed.

Lemma run_writes_NoDup ws : ∀ df lg,
  NoDup (fst <$> df) → NoDup (fst <$> (run_writes df lg ws).1).
Proof.
  induction ws as [|[k c] ws IH]; intros df lg Hnd; [done|].
  cbn [run_writes]. apply IH. rewrite set_column_keys. case_bool_decide as Hk.
  - by rewrite app_nil_r.
  - apply NoDup_app. split_and!; [done| |apply NoDup_singleton].
    intros x Hx ->%list_elem_of_singleton. done.
Qed.

(** X15.  For an input whose column names are distinct, in [obs] and in each
    data frame read, [extract] returns a new object in which a column of
    [obs] holds the last value written under its name, and the input's value
    when no key wrote it; [obsm] is the input's. *)
Theorem extract_last_write_wins adata obsm_key prefix (σ : state) a pres wss :
  objs σ !! adata = Some a → NoDup (fst <$> obs a) →
  prefix_list (key_list obsm_key) prefix = inr pres →
  reads a (key_list obsm_key) pres wss →
  ∃ tmp a',
    (extract adata obsm_key prefix σ).1 = inr tmp
    ∧ objs σ !! tmp = None
    ∧ objs (extract adata obsm_key prefix σ).2 !! tmp = Some a'
    ∧ obsm a' = obsm a
    ∧ ∀ key, get_column (obs a') key
             = from_option Some (get_column (obs a) key)
                           (last_write key (concat wss)).
Proof.
  intros Ha _ Hpre Hall.
  rewrite (extract_run _ _ _ _ _ _ _ Ha Hpre Hall).
  eexists _, _. cbn [fst snd after_writes objs]. split_and!.
  - done.
  - apply not_elem_of_dom, is_fresh.
  - apply lookup_insert_eq.
  - done.
  - intros key. cbn [obs]. apply get_column_run_writes.
Qed.

(** X16.  When the written names are pairwise distinct and none of them is a
    column of the input's [obs], the columns are appended to [obs] in the
    order of the keys and nothing is logged. *)
Theorem extract_fresh_columns_appended adata obsm_key prefix (σ : state) a pres wss :
  objs σ !! adata = Some a →
  prefix_list (key_list obsm_key) prefix = inr pres →
  reads a (key_list obsm_key) pres wss →
  NoDup ((fst <$> obs a) ++ (fst <$> concat wss)) →
  ∃ tmp,
    (extract adata obsm_key prefix σ).1 = inr tmp
    ∧ objs (extract adata obsm_key prefix σ).2 !! tmp
      = Some {| obs := obs a ++ concat wss; obsm := obsm a |}
    ∧ log (extract adata obsm_key prefix σ).2 = log σ.
Proof.
  intros Ha Hpre Hall Hnd.
  rewrite (extract_run _ _ _ _ _ _ _ Ha Hpre Hall).
  eexists. cbn [fst snd after_writes objs log].
  rewrite (run_writes_fresh _ _ (log σ) Hnd). cbn [fst snd]. split_and!.
  - done.
  - apply lookup_insert_eq.
  - done.
Qed.

(** X17.  For an input whose column names are distinct, every write either
    appends a column to [obs] or replaces a column in place and logs one
    warning that names it; the columns of the input keep their positions and
    the names stay distinct. *)
Theorem extract_warnings adata obsm_key prefix (σ : state) a pres wss :
  objs σ !! adata = Some a → NoDup (fst <$> obs a) →
  prefix_list (key_list obsm_key) prefix = inr pres →
  reads a (key_list obsm_key) pres wss →
  ∃ tmp a' ks new,
    (extract adata obsm_key prefix σ).1 = inr tmp
    ∧ objs (extract adata obsm_key prefix σ).2 !! tmp = Some a'
    ∧ log (extract adata obsm_key prefix σ).2 = log σ ++ (overwrite_warning <$> ks)
    ∧ ks `sublist_of` (fst <$> concat wss)
    ∧ fst <$> obs a' = (fst <$> obs a) ++ new
    ∧ NoDup (fst <$> obs a')
    ∧ (length new + length ks = length (concat wss))%nat.
Proof.
  intros Ha Hnd Hpre Hall.
  rewrite (extract_run _ _ _ _ _ _ _ Ha Hpre Hall).
  destruct (run_writes_log (concat wss) (obs a) (log σ))
    as (ks & new & Hlog & Hsub & Hkeys & Hlen).
  eexists _, _, ks, new. cbn [fst snd after_writes objs log]. split_and!.
  - done.
  - apply lookup_insert_eq.
  - done.
  - done.
  - done.
  - cbn [obs]. by apply run_writes_NoDup.
  - done.
Qed.

(** X18.  For an array entry of shape [[n; m]], [extract] writes column [j] of
    the array under the name made of the prefix and the decimal digits of
    [j]: entry [r] of the column is [vals[r * m + j]]. *)
Theorem extract_array_columns adata k prefix (σ : state) a pre (n m j : nat) vals :
  objs σ !! adata = Some a → NoDup (fst <$> obs a) →
  prefix_list [k] prefix = inr [pre] →
  obsm a !! k = Some (ObsmArray [n; m] vals) →
  length vals = (n * m)%nat → (j < m)%nat →
  ∃ tmp a' c,
    (extract adata (OneStr k) prefix σ).1 = inr tmp
    ∧ objs (extract adata (OneStr k) prefix σ).2 !! tmp = Some a'
    ∧ get_column (obs a') (pre +:+ pretty j) = Some c
    ∧ length c = n
    ∧ ∀ r, (r < n)%nat → c !! r = vals !! (r * m + j)%nat.
Proof.
  intros Ha _ Hpre He Hlen Hj.
  set (ws := (λ j : nat, (pre +:+ pretty j,
                omap (λ r : nat, vals !! (r * m + j)%nat) (seq 0 n))) <$> seq 0 m).
  assert (Hrun := extract_run adata (OneStr k) prefix σ a [pre] [ws] Ha Hpre).
  rewrite Hrun.
  - destruct (array_column_entries n m j vals Hlen Hj) as [Hc Hr].
    eexists _, _, _. cbn [fst snd after_writes objs]. split_and!.
    + done.
    + apply lookup_insert_eq.
    + cbn [obs concat]. rewrite get_column_run_writes, app_nil_r.
      rewrite (last_write_NoDup ws (pre +:+ pretty j)
                 (omap (λ r : nat, vals !! (r * m + j)%nat) (seq 0 n))); [done| |].
      * unfold ws. rewrite <- list_fmap_compose. apply array_keys_NoDup.
      * unfold ws. apply list_elem_of_fmap. exists j. split; [done|].
        apply elem_of_seq. lia.
    + exact Hc.
    + exact Hr.
  - cbn. constructor; [|constructor]. exists (ObsmArray [n; m] vals).
    split; [done|]. split; [done|]. apply writes_of_array.
Qed.

(** X22.  For a data frame entry with distinct column names, [extract] writes
    each column under the prefix followed by its name, and leaves every
    other column of [obs] as it is in the input. *)
Theorem extract_frame_columns adata k prefix (σ : state) a pre columns :
  objs σ !! adata = Some a → NoDup (fst <$> obs a) →
  prefix_list [k] prefix = inr [pre] →
  obsm a !! k = Some (ObsmDataFrame columns) → NoDup (fst <$> columns) →
  ∃ tmp a',
    (extract adata (OneStr k) prefix σ).1 = inr tmp
    ∧ objs (extract adata (OneStr k) prefix σ).2 !! tmp = Some a'
    ∧ (∀ name col, (name, col) ∈ columns →
         get_column (obs a') (pre +:+ name) = Some col)
    ∧ (∀ key, (∀ name, name ∈ (fst <$> columns) → key ≠ pre +:+ name) →
         get_column (obs a') key = get_column (obs a) key).
Proof.
  intros Ha _ Hpre He Hnd.
  set (ws := (λ col : string * list Q, (pre +:+ col.1, col.2)) <$> columns).
  assert (Hkeys : fst <$> ws = (String.app pre) <$> (fst <$> columns)).
  { unfold ws. by rewrite <- !list_fmap_compose. }
  assert (Hrun := extract_run adata (OneStr k) prefix σ a [pre] [ws] Ha Hpre).
  rewrite Hrun.
  - eexists _, _. cbn [fst snd after_writes objs]. split_and!.
    + done.
    + apply lookup_insert_eq.
    + intros name col Hin. cbn [obs concat].
      rewrite get_column_run_writes, app_nil_r.
      rewrite (last_write_NoDup ws (pre +:+ name) col); [done| |].
      * rewrite Hkeys. apply NoDup_fmap_2; [apply _|done].
      * unfold ws. apply list_elem_of_fmap. by exists (name, col).
    + intros key Hkey. cbn [obs concat].
      rewrite get_column_run_writes, app_nil_r.
      rewrite last_write_None; [done|].
      rewrite Hkeys. intros (name & -> & Hname)%list_elem_of_fmap.
      by apply (Hkey name).
  - cbn. constructor; [|constructor]. exists (ObsmDataFrame columns).
    split; [done|]. split; [done|]. reflexivity.
Qed.

(** X19.  A list of prefixes that has neither one element nor as many elements
    as there are keys makes [extract] raise [ValueError] before anything is
    copied: the store and the log are as they were. *)
Theorem extract_prefix_mismatch adata obsm_key (l : list string) (σ : state) :
  length l ≠ length (key_list obsm_key) → length l ≠ 1%nat →
  extract adata obsm_key (Some (StrList l)) σ
  = (inl (ValueError ("length of prefix " +:+ pretty (length l) +:+
                      " does not fit length of obsm_key " +:+
                      pretty (length (key_list obsm_key)))), σ).
Proof.
  intros Hlen H1. rewrite extract_unfold. cbn zeta.
  change (match obsm_key with OneStr s => [s] | StrList l => l end)
    with (key_list obsm_key).
  unfold prefix_list. rewrite decide_True by done.
  destruct l as [|p0 [|p1 l]]; [done| |done]. done.
Qed.

(** X20.  A key that is not in [obsm] makes [extract] raise [KeyError] with
    that key; the copy has been made by then and holds the writes of the
    keys before it, which are read as in X15. *)
Theorem extract_missing_key adata obsm_key prefix (σ : state) a pres ks1 k ks2 wss :
  objs σ !! adata = Some a → NoDup (fst <$> obs a) →
  prefix_list (key_list obsm_key) prefix = inr pres →
  key_list obsm_key = ks1 ++ k :: ks2 →
  reads a ks1 pres wss →
  obsm a !! k = None →
  (extract adata obsm_key prefix σ).1 = inl (KeyError k)
  ∧ objs (extract adata obsm_key prefix σ).2
    = <[fresh (dom (objs σ)) :=
          {| obs := (run_writes (obs a) (log σ) (concat wss)).1; obsm := obsm a |}]>
        (objs σ).
Proof.
  intros Ha _ Hpre Hkeys Hall Hk.
  by rewrite (extract_run_missing _ _ _ _ _ _ _ _ _ _ Ha Hpre Hkeys Hall Hk).
Qed.

Lemma writes0_ok p1 p2 :
  reads Examples.adata0 ["img_features"; "spatial"] [p1; p2] (MoreExamples.writes0 p1 p2).
Proof.
  repeat constructor.
  - exists (ObsmDataFrame [("area", [3%Q; 4%Q]); ("0", [5%Q; 6%Q])]).
    split; [vm_compute; reflexivity|]. split; [|reflexivity].
    apply (bool_decide_unpack _). vm_compute. exact I.
  - exists (ObsmArray [2; 2]%nat [7%Q; 8%Q; 9%Q; 10%Q]).
    split; [vm_compute; reflexivity|]. split; [exact I|reflexivity].
Defined.

Lemma adata0_columns : NoDup (fst <$> obs Examples.adata0).
Proof. apply (bool_decide_unpack _). vm_compute. exact I. Defined.

Lemma extract_last_write_wins_witness :
  objs Examples.store0 !! 0%nat = Some Examples.adata0
  ∧ prefix_list ["img_features"; "spatial"] (Some (OneStr "feat"))
    = inr ["feat_"; "feat_"]
  ∧ ∃ tmp a',
      (extract 0%nat (StrList ["img_features"; "spatial"]) (Some (OneStr "feat"))
         Examples.store0).1 = inr tmp
      ∧ objs (extract 0%nat (StrList ["img_features"; "spatial"])
                (Some (OneStr "feat")) Examples.store0).2 !! tmp = Some a'
      ∧ get_column (obs a') "feat_0" = Some [7%Q; 9%Q]
      ∧ get_column (obs a') "n_counts" = Some [1%Q; 2%Q].
Proof.
  assert (H1 : objs Examples.store0 !! 0%nat = Some Examples.adata0)
    by (vm_compute; reflexivity).
  assert (H2 : prefix_list ["img_features"; "spatial"] (Some (OneStr "feat"))
               = inr ["feat_"; "feat_"]) by reflexivity.
  split; [exact H1|]. split; [exact H2|].
  destruct (extract_last_write_wins 0%nat (StrList ["img_features"; "spatial"])
              (Some (OneStr "feat")) Examples.store0 Examples.adata0
              ["feat_"; "feat_"] (MoreExamples.writes0 "feat_" "feat_") H1 adata0_columns H2
              (writes0_ok "feat_" "feat_"))
    as (tmp & a' & Hrun & _ & Hobj & _ & Hcol).
  exists tmp, a'. split; [exact Hrun|]. split; [exact Hobj|]. split.
  - rewrite (Hcol "feat_0"). reflexivity.
  - rewrite (Hcol "n_counts"). reflexivity.
Defined.

Lemma extract_fresh_columns_appended_witness :
  NoDup ((fst <$> obs Examples.adata0) ++ (fst <$> concat (MoreExamples.writes0 "a_" "b_")))
  ∧ ∃ tmp,
      (extract 0%nat (StrList ["img_features"; "spatial"]) (Some (StrList ["a"; "b"]))
         Examples.store0).1 = inr tmp
      ∧ objs (extract 0%nat (StrList ["img_features"; "spatial"])
                (Some (StrList ["a"; "b"])) Examples.store0).2 !! tmp
        = Some {| obs := obs Examples.adata0 ++ concat (MoreExamples.writes0 "a_" "b_");
                  obsm := obsm Examples.adata0 |}
      ∧ log (extract 0%nat (StrList ["img_features"; "spatial"])
               (Some (StrList ["a"; "b"])) Examples.store0).2
        = log Examples.store0.
Proof.
  assert (H1 : objs Examples.store0 !! 0%nat = Some Examples.adata0)
    by (vm_compute; reflexivity).
  assert (H2 : prefix_list ["img_features"; "spatial"] (Some (StrList ["a"; "b"]))
               = inr ["a_"; "b_"]) by reflexivity.
  assert (H3 : NoDup ((fst <$> obs Examples.adata0)
                      ++ (fst <$> concat (MoreExamples.writes0 "a_" "b_")))).
  { apply (bool_decide_unpack _). vm_compute. exact I. }
  split; [exact H3|].
  exact (extract_fresh_columns_appended 0%nat (StrList ["img_features"; "spatial"])
           (Some (StrList ["a"; "b"])) Examples.store0 Examples.adata0
           ["a_"; "b_"] (MoreExamples.writes0 "a_" "b_") H1 H2 (writes0_ok "a_" "b_") H3).
Defined.

Lemma extract_warnings_witness :
  ∃ tmp a' ks new,
    (extract 0%nat (StrList ["img_features"; "spatial"]) (Some (OneStr "feat"))
       Examples.store0).1 = inr tmp
    ∧ objs (extract 0%nat (StrList ["img_features"; "spatial"])
              (Some (OneStr "feat")) Examples.store0).2 !! tmp = Some a'
    ∧ log (extract 0%nat (StrList ["img_features"; "spatial"])
             (Some (OneStr "feat")) Examples.store0).2
      = log Examples.store0 ++ (overwrite_warning <$> ks)
    ∧ ks `sublist_of` (fst <$> concat (MoreExamples.writes0 "feat_" "feat_"))
    ∧ fst <$> obs a' = (fst <$> obs Examples.adata0) ++ new
    ∧ NoDup (fst <$> obs a')
    ∧ (length new + length ks = length (concat (MoreExamples.writes0 "feat_" "feat_")))%nat.
Proof.
  assert (H1 : objs Examples.store0 !! 0%nat = Some Examples.adata0)
    by (vm_compute; reflexivity).
  assert (H2 : prefix_list ["img_features"; "spatial"] (Some (OneStr "feat"))
               = inr ["feat_"; "feat_"]) by reflexivity.
  exact (extract_warnings 0%nat (StrList ["img_features"; "spatial"])
           (Some (OneStr "feat")) Examples.store0 Examples.adata0
           ["feat_"; "feat_"] (MoreExamples.writes0 "feat_" "feat_") H1 adata0_columns H2
           (writes0_ok "feat_" "feat_")).
Defined.

Lemma extract_array_columns_witness :
  obsm Examples.adata0 !! "spatial" = Some (ObsmArray [2; 2]%nat [7%Q; 8%Q; 9%Q; 10%Q])
  ∧ ∃ tmp a' c,
      (extract 0%nat (OneStr "spatial") None Examples.store0).1 = inr tmp
      ∧ objs (extract 0%nat (OneStr "spatial") None Examples.store0).2 !! tmp = Some a'
      ∧ get_column (obs a') "1" = Some c
      ∧ length c = 2%nat
      ∧ ∀ r, (r < 2)%nat → c !! r = [7%Q; 8%Q; 9%Q; 10%Q] !! (r * 2 + 1)%nat.
Proof.
  assert (H1 : objs Examples.store0 !! 0%nat = Some Examples.adata0)
    by (vm_compute; reflexivity).
  assert (H2 : prefix_list ["spatial"] None = inr [""]) by reflexivity.
  assert (H3 : obsm Examples.adata0 !! "spatial"
               = Some (ObsmArray [2; 2]%nat [7%Q; 8%Q; 9%Q; 10%Q]))
    by (vm_compute; reflexivity).
  split; [exact H3|].
  exact (extract_array_columns 0%nat "spatial" None Examples.store0 Examples.adata0
           "" 2 2 1 [7%Q; 8%Q; 9%Q; 10%Q] H1 adata0_columns H2 H3 eq_refl (le_n 2)).
Defined.

Lemma extract_prefix_mismatch_witness :
  extract 0%nat (StrList ["img_features"; "spatial"]) (Some (StrList ["a"; "b"; "c"]))
    Examples.store0
  = (inl (ValueError "length of prefix 3 does not fit length of obsm_key 2"),
     Examples.store0).
Proof.
  apply (extract_prefix_mismatch 0%nat (StrList ["img_features"; "spatial"])
           ["a"; "b"; "c"] Examples.store0).
  - cbn. lia.
  - cbn. lia.
Defined.

Lemma extract_missing_key_witness :
  obsm Examples.adata0 !! "X_umap" = None
  ∧ (extract 0%nat (StrList ["img_features"; "X_umap"]) None Examples.store0).1
    = inl (KeyError "X_umap")
  ∧ objs (extract 0%nat (StrList ["img_features"; "X_umap"]) None Examples.store0).2
    = <[1%nat := {| obs := obs Examples.adata0
                            ++ [("area", [3%Q; 4%Q]); ("0", [5%Q; 6%Q])];
                    obsm := obsm Examples.adata0 |}]> (objs Examples.store0).
Proof.
  assert (H1 : objs Examples.store0 !! 0%nat = Some Examples.adata0)
    by (vm_compute; reflexivity).
  assert (H2 : prefix_list ["img_features"; "X_umap"] None = inr [""; ""])
    by reflexivity.
  assert (H3 : obsm Examples.adata0 !! "X_umap" = None) by (vm_compute; reflexivity).
  split; [exact H3|].
  apply (extract_missing_key 0%nat (StrList ["img_features"; "X_umap"]) None
           Examples.store0 Examples.adata0 [""; ""] ["img_features"] "X_umap" []
           [[("area", [3%Q; 4%Q]); ("0", [5%Q; 6%Q])]] H1 adata0_columns H2 eq_refl).
  - repeat constructor.
    exists (ObsmDataFrame [("area", [3%Q; 4%Q]); ("0", [5%Q; 6%Q])]).
    split; [vm_compute; reflexivity|]. split; [|reflexivity].
    apply (bool_decide_unpack _). vm_compute. exact I.
  - exact H3.
Defined.

Lemma extract_frame_columns_witness :
  obsm Examples.adata0 !! "img_features"
  = Some (ObsmDataFrame [("area", [3%Q; 4%Q]); ("0", [5%Q; 6%Q])])
  ∧ ∃ tmp a',
      (extract 0%nat (OneStr "img_features") (Some (OneStr "feat"))
         Examples.store0).1 = inr tmp
      ∧ objs (extract 0%nat (OneStr "img_features") (Some (OneStr "feat"))
                Examples.store0).2 !! tmp = Some a'
      ∧ get_column (obs a') "feat_area" = Some [3%Q; 4%Q]
      ∧ get_column (obs a') "feat_0" = Some [5%Q; 6%Q]
      ∧ get_column (obs a') "n_counts" = Some [1%Q; 2%Q].
Proof.
  assert (H1 : objs Examples.store0 !! 0%nat = Some Examples.adata0)
    by (vm_compute; reflexivity).
  assert (H2 : prefix_list ["img_features"] (Some (OneStr "feat")) = inr ["feat_"])
    by reflexivity.
  assert (H3 : obsm Examples.adata0 !! "img_features"
               = Some (ObsmDataFrame [("area", [3%Q; 4%Q]); ("0", [5%Q; 6%Q])]))
    by (vm_compute; reflexivity).
  assert (H4 : NoDup (fst <$> [("area", [3%Q; 4%Q]); ("0", [5%Q; 6%Q])])).
  { apply (bool_decide_unpack _). vm_compute. exact I. }
  split; [exact H3|].
  destruct (extract_frame_columns 0%nat "img_features" (Some (OneStr "feat"))
              Examples.store0 Examples.adata0 "feat_" _ H1 adata0_columns H2 H3 H4)
    as (tmp & a' & Hrun & Hobj & Hcol & Hrest).
  exists tmp, a'. split; [exact Hrun|]. split; [exact Hobj|]. split_and!.
  - apply (Hcol "area"). left.
  - apply (Hcol "0"). right. left.
  - rewrite (Hrest "n_counts"); [reflexivity|].
    intros name Hname. cbn in Hname.
    apply elem_of_cons in Hname as [->|Hname]; [done|].
    apply elem_of_cons in Hname as [->|Hname]; [done|].
    by apply elem_of_nil in Hname.
Defined.

End ExtractLaws.
